(** * Version resolution and metadata loaders of the jsDelivr data API

    A shallow embedding of [src/routes/lib/v1/PackageRequest.js]:
    [PackageRequest.getResolvedVersion], [PackageRequest.fetchFiles],
    [PackageRequest.getFiles], the handlers [handleResolveVersion],
    [handleVersions] and [handleVersionFiles] with
    [responseFromRemoteError], and the loaders [fetchGitHubMetadata] and
    [fetchNpmMetadata], together with models of
    the packages they call ([semver], [lodash], [bluebird], [promise-retry],
    [got]), of [Array.prototype.sort] and of the shared promise cache.

    Conventions.  JavaScript strings are modelled as [string] (the strings
    that occur here are ASCII).  Numbers that are integers are [Z] or [N].
    A JavaScript computation that may throw returns a [Completion].  A
    promise is represented by the way it settles; where several promises
    race, each one carries the instant at which it settles.  A value that
    may be [undefined] is an [option].  What the language leaves to the
    engine when it sorts is a parameter, [JsArray.SortEngine]: the
    properties hold for every engine, and the examples are computed with
    an insertion sort. *)

From Stdlib Require Import ZArith Lia Ascii String List Permutation Sorted.
From stdpp Require Import base strings gmap list.

Open Scope string_scope.
Open Scope Z_scope.

(** ** JavaScript values and completions *)

(** What a JavaScript function does when it finishes: it returns a value
    or throws. *)
Inductive Completion (E A : Type) : Type :=
| Returns (a : A)
| Throws (e : E).
Arguments Returns {E A} a.
Arguments Throws {E A} e.

#[global] Instance completion_ret {E} : MRet (Completion E) :=
  fun _ a => Returns a.

#[global] Instance completion_bind {E} : MBind (Completion E) :=
  fun _ _ k c =>
    match c with
    | Returns a => k a
    | Throws e => Throws e
    end.

(** The values [getResolvedVersion] can produce. *)
Inductive JsValue : Type :=
| JsUndefined
| JsNull
| JsString (s : string)
| JsNumber (n : Z).

(** ** Failures

    The errors of the HTTP client [got]: [HTTPError] carries the response
    (status code and body), the others carry none. *)
Inductive GotErrorClass : Type :=
| HTTPError
| ParseError
| TimeoutError
| RequestError.

Record GotResponse : Type := mkGotResponse {
  statusCode : Z;
  body : string
}.

Record GotError : Type := mkGotError {
  errorClass : GotErrorClass;
  response : option GotResponse
}.

(** The errors of the GitHub client: [status] is the HTTP status, [block]
    is set when GitHub reports that access is blocked; [response] is the
    property the loader adds to mimic [got]. *)
Record OctokitError : Type := mkOctokitError {
  status : Z;
  block : bool;
  ghResponse : option Z
}.

(** Everything the modelled code can throw; [ThrownResponse] is the
    object [{ response: { statusCode } }] that the loaders hand to the
    cache as a negative result. *)
Inductive Thrown : Type :=
| TypeError (message : string)
| Error (message : string)
| ThrownGot (e : GotError)
| ThrownOctokit (e : OctokitError)
| ThrownResponse (statusCode : Z).

(** ** Characters and text *)

Module Text.

Definition isDigit (c : ascii) : bool :=
  ((48 <=? N_of_ascii c) && (N_of_ascii c <=? 57))%N.

Definition isLetter (c : ascii) : bool :=
  (((65 <=? N_of_ascii c) && (N_of_ascii c <=? 90))
   || ((97 <=? N_of_ascii c) && (N_of_ascii c <=? 122)))%N.

(** [[0-9A-Za-z-]] *)
Definition isIdentChar (c : ascii) : bool :=
  isDigit c || isLetter c || (c =? "-")%char.

(** [\s] on ASCII: tab, line feed, vertical tab, form feed, carriage
    return, space. *)
Definition isSpace (c : ascii) : bool :=
  (((9 <=? N_of_ascii c) && (N_of_ascii c <=? 13)) || (N_of_ascii c =? 32))%N.

Fixpoint dropSpaces (l : list ascii) : list ascii :=
  match l with
  | c :: r => if isSpace c then dropSpaces r else l
  | [] => []
  end.

(** [String.prototype.trim]. *)
Definition trim (l : list ascii) : list ascii :=
  rev (dropSpaces (rev (dropSpaces l))).

(** [s.split(sep)] for a one-character separator. *)
Fixpoint splitOn (sep : ascii) (l : list ascii) : list (list ascii) :=
  match l with
  | [] => [[]]
  | c :: r =>
      if (c =? sep)%char then [] :: splitOn sep r
      else match splitOn sep r with
           | w :: ws => (c :: w) :: ws
           | [] => [[c]]
           end
  end.

(** Cut at the first occurrence of [sep]: the text before it and, when
    [sep] occurs, the text after it. *)
Fixpoint breakOn (sep : ascii) (l : list ascii)
  : list ascii * option (list ascii) :=
  match l with
  | [] => ([], None)
  | c :: r =>
      if (c =? sep)%char then ([], Some r)
      else let '(a, b) := breakOn sep r in (c :: a, b)
  end.

Definition digitValue (c : ascii) : N := (N_of_ascii c - 48)%N.

Definition digitsValue (l : list ascii) : N :=
  fold_left (fun acc c => (10 * acc + digitValue c)%N) l 0%N.

(** Comparison of two strings with [<]: code unit by code unit. *)
Fixpoint ltb (a b : list ascii) : bool :=
  match a, b with
  | [], [] => false
  | [], _ :: _ => true
  | _ :: _, [] => false
  | x :: a', y :: b' =>
      if (N_of_ascii x <? N_of_ascii y)%N then true
      else if (N_of_ascii y <? N_of_ascii x)%N then false
      else ltb a' b'
  end.

Definition eqb (a b : list ascii) : bool :=
  bool_decide (a = b).

(** A character that is not a blank. *)
Definition solid (c : ascii) : Prop := isSpace c = false.

End Text.

(** ** Regular expressions

    The regular expressions of JavaScript, as far as the [semver] package
    uses them: a backtracking matcher with greedy repetition and numbered
    capturing groups.  None of the expressions of the package has a group
    under a repetition, so a repetition leaves the groups as they are. *)

Module Regex.
Import Text.

Inductive Re : Type :=
| Eps
| Chr (p : ascii → bool)
| Seq (a b : Re)
| Alt (a b : Re)
| Star (a : Re)
| Group (i : nat) (a : Re)
| Bol
| Eol.

(** A point of a match: the index reached, the text after it and the
    groups captured so far, the last capture first. *)
Record State : Type := mkState {
  pos : nat;
  rest : list ascii;
  groups : list (nat * list ascii)
}.

(** The matcher of [r] with the continuation [k]: the first way of
    matching [r] at [s], in the order of the alternatives, that [k]
    accepts.  An iteration of a repetition that consumes nothing is
    refused. *)
Fixpoint run {R : Type} (r : Re) (k : State → option R) (s : State)
  : option R :=
  match r with
  | Eps => k s
  | Chr p =>
      match rest s with
      | c :: t => if p c then k (mkState (S (pos s)) t (groups s)) else None
      | [] => None
      end
  | Seq a b => run a (run b k) s
  | Alt a b =>
      match run a k s with
      | Some x => Some x
      | None => run b k s
      end
  | Star a =>
      (fix loop (fuel : nat) (s : State) : option R :=
         match fuel with
         | O => k s
         | S fuel' =>
             match run a (fun s' => if (pos s <? pos s')%nat
                                    then loop fuel' s' else None) s with
             | Some x => Some x
             | None => k s
             end
         end) (S (length (rest s))) s
  | Group i a =>
      run a (fun s' =>
               k (mkState (pos s') (rest s')
                          ((i, take (pos s' - pos s) (rest s)) :: groups s')))
          s
  | Bol => if (pos s =? 0)%nat then k s else None
  | Eol => match rest s with [] => k s | _ :: _ => None end
  end.

(** A match: where it starts, and the point where it ends. *)
Record Match : Type := mkMatch {
  index : nat;
  final : State
}.

Definition lastIndex (m : Match) : nat := pos (final m).

(** [m[i]] for [i >= 1]; [None] is [undefined]. *)
Definition group (m : Match) (i : nat) : option (list ascii) :=
  snd <$> find (fun kv => (fst kv =? i)%nat) (groups (final m)).

(** The match of [r] in [l] that starts at the index [i]. *)
Definition matchAt (r : Re) (l : list ascii) (i : nat) : option Match :=
  if (i <=? length l)%nat
  then mkMatch i <$> run r Some (mkState i (drop i l) [])
  else None.

(** The first match of [r] in [l] at the index [i] or after it. *)
Fixpoint searchFrom (r : Re) (fuel : nat) (l : list ascii) (i : nat)
  : option Match :=
  match matchAt r l i with
  | Some m => Some m
  | None =>
      match fuel with
      | O => None
      | S fuel' => searchFrom r fuel' l (S i)
      end
  end.

(** [r.exec(l)], [l.match(r)] for an expression without the flag [g]. *)
Definition exec (r : Re) (l : list ascii) : option Match :=
  searchFrom r (length l) l 0.

(** [m[0]] *)
Definition matched (l : list ascii) (m : Match) : list ascii :=
  take (lastIndex m - index m) (drop (index m) l).

(** [l.replace(r, f)] for an expression without the flag [g]: [f] gets
    the text of the match and the groups. *)
Definition replace (r : Re)
           (f : list ascii → (nat → option (list ascii)) → list ascii)
           (l : list ascii) : list ascii :=
  match exec r l with
  | None => l
  | Some m => (take (index m) l ++ f (matched l m) (group m)
               ++ drop (lastIndex m) l)%list
  end.

(** [l.replace(r, f)] for an expression with the flag [g], from the
    index [i] on: after an empty match the search goes on one character
    further. *)
Fixpoint replaceAllFrom (r : Re)
         (f : list ascii → (nat → option (list ascii)) → list ascii)
         (fuel : nat) (l : list ascii) (i : nat) : list ascii :=
  match fuel with
  | O => drop i l
  | S fuel' =>
      match searchFrom r (length l - i) l i with
      | None => drop i l
      | Some m =>
          (take (index m - i) (drop i l) ++ f (matched l m) (group m)
           ++ if (lastIndex m =? index m)%nat
              then take 1 (drop (index m) l)
                   ++ replaceAllFrom r f fuel' l (S (index m))
              else replaceAllFrom r f fuel' l (lastIndex m))%list
      end
  end.

Definition replaceAll (r : Re)
           (f : list ascii → (nat → option (list ascii)) → list ascii)
           (l : list ascii) : list ascii :=
  replaceAllFrom r f (S (length l)) l 0.

(** The loop of [l.split(r)] for an expression without groups: [p] is
    the start of the current piece and [q] the index at which a
    separator is looked for. *)
Fixpoint splitFrom (r : Re) (fuel : nat) (l : list ascii) (p q : nat)
  : list (list ascii) :=
  match fuel with
  | O => [drop p l]
  | S fuel' =>
      if (length l <=? q)%nat then [drop p l]
      else match matchAt r l q with
           | None => splitFrom r fuel' l p (S q)
           | Some m =>
               if (lastIndex m =? p)%nat then splitFrom r fuel' l p (S q)
               else take (q - p) (drop p l)
                    :: splitFrom r fuel' l (lastIndex m) (lastIndex m)
           end
  end.

(** [l.split(r)] *)
Definition split (r : Re) (l : list ascii) : list (list ascii) :=
  match l with
  | [] => match matchAt r [] 0 with Some _ => [] | None => [[]] end
  | _ :: _ => splitFrom r (2 * S (length l)) l 0 0
  end.

(** Ways of writing expressions: a character, [a?], [a+], a sequence. *)
Definition chr (c : ascii) : Re := Chr (Ascii.eqb c).
Definition opt (a : Re) : Re := Alt a Eps.
Definition plus (a : Re) : Re := Seq a (Star a).

Fixpoint seq (l : list Re) : Re :=
  match l with
  | [] => Eps
  | [a] => a
  | a :: r => Seq a (seq r)
  end.

(** [\s], [\d] *)
Definition space : Re := Chr isSpace.
Definition digit : Re := Chr isDigit.

End Regex.

(** ** The [semver] package

    Model of the functions of the [semver] package (version 5.7) that the
    request handler calls: [valid], [prerelease], [rcompare] and
    [maxSatisfying], in strict mode.  The package is a dependency, not part
    of the repository.  Versions are read with the grammar of the package's
    expression [FULL]; ranges are rewritten with the package's own
    expressions, step by step ([parseRange]). *)

Module Semver.
Import Text.

Definition MAX_LENGTH : nat := 256.
Definition MAX_SAFE_INTEGER : N := 9007199254740991.

(** A pre-release identifier is a number or a string.  [NumId n] stands
    for the identifier whose text is the digits of [n]: the package keeps
    it as a number when [n] is below [MAX_SAFE_INTEGER] and as the string
    of its digits otherwise, and converts the string when it compares
    ([compareIdentifiers]). *)
Inductive Identifier : Type :=
| NumId (n : N)
| StrId (s : list ascii).

#[global] Instance Identifier_eq_dec : EqDecision Identifier.
Proof. solve_decision. Defined.

(** The fields of a [SemVer] object. *)
Record SemVer : Type := mkSemVer {
  major : N;
  minor : N;
  patch : N;
  prerelease : list Identifier;
  build : list (list ascii)
}.

(** A numeric identifier, [0] or digits without a leading zero, and its
    value. *)
Definition numericIdentifier (l : list ascii) : option N :=
  match l with
  | [] => None
  | c :: r =>
      if forallb isDigit l && (negb (c =? "0")%char || bool_decide (r = []))
      then Some (digitsValue l)
      else None
  end.

(** A pre-release identifier: a numeric identifier, or letters, digits
    and hyphens with at least one that is not a digit. *)
Definition prereleaseIdentifier (l : list ascii) : option Identifier :=
  if forallb isDigit l then NumId <$> numericIdentifier l
  else if forallb isIdentChar l then Some (StrId l)
  else None.

(** A build identifier: one or more letters, digits and hyphens. *)
Definition buildIdentifier (l : list ascii) : option (list ascii) :=
  match l with
  | [] => None
  | _ => if forallb isIdentChar l then Some l else None
  end.

(** All the elements of a list of optional values, when none is missing. *)
Fixpoint sequence {A} (l : list (option A)) : option (list A) :=
  match l with
  | [] => Some []
  | o :: r =>
      match o, sequence r with
      | Some a, Some r' => Some (a :: r')
      | _, _ => None
      end
  end.

(** The part of a version after the three numbers: an optional [-] with
    dot-separated pre-release identifiers, then an optional [+] with
    dot-separated build identifiers. *)
Definition parseQualifier (pre : option (list ascii))
           (bld : option (list ascii))
  : option (list Identifier * list (list ascii)) :=
  match
    match pre with
    | None => Some []
    | Some p => sequence (map prereleaseIdentifier (splitOn "." p))
    end,
    match bld with
    | None => Some []
    | Some b => sequence (map buildIdentifier (splitOn "." b))
    end
  with
  | Some p, Some b => Some (p, b)
  | _, _ => None
  end.

(** Cut [main(-pre)?(+build)?] into its three parts.  The numbers contain
    neither [-] nor [+], a pre-release contains no [+]. *)
Definition cutVersion (l : list ascii)
  : list ascii * option (list ascii) * option (list ascii) :=
  let '(front, bld) := breakOn "+" l in
  let '(main, pre) := breakOn "-" front in
  (main, pre, bld).

(** [l.match(re[FULL])]: an optional [v], the three numbers and the
    qualifier; the fields are the groups of the match, the numbers
    converted. *)
Definition matchFull (l : list ascii) : option SemVer :=
  let l' := match l with
            | c :: r => if (c =? "v")%char then r else l
            | [] => l
            end in
  let '(main, pre, bld) := cutVersion l' in
  match map numericIdentifier (splitOn "." main), parseQualifier pre bld with
  | [Some a; Some b; Some c], Some (p, bl) => Some (mkSemVer a b c p bl)
  | _, _ => None
  end.

Definition inRange (n : N) : bool := (n <=? MAX_SAFE_INTEGER)%N.

(** [new SemVer(version)] for a string: the constructor throws a
    [TypeError] when the text is too long, when it does not match [FULL]
    after trimming, and when one of the three numbers is above
    [MAX_SAFE_INTEGER]. *)
Definition newSemVer (version : string) : Completion Thrown SemVer :=
  if bool_decide (MAX_LENGTH < String.length version)%nat
  then Throws (TypeError "version is longer than 256 characters")
  else
    match matchFull (trim (list_ascii_of_string version)) with
    | None => Throws (TypeError ("Invalid Version: " +:+ version))
    | Some sv =>
        if negb (inRange (major sv))
        then Throws (TypeError "Invalid major version")
        else if negb (inRange (minor sv))
        then Throws (TypeError "Invalid minor version")
        else if negb (inRange (patch sv))
        then Throws (TypeError "Invalid patch version")
        else Returns sv
    end.

(** The object that [new SemVer(version)] makes; [None] when the
    constructor throws. *)
Definition construct (version : string) : option SemVer :=
  match newSemVer version with
  | Returns sv => Some sv
  | Throws _ => None
  end.

(** [semver.parse(version)]: [null] for a text that is too long or that
    does not match [FULL] as it is given, and when the constructor
    throws. *)
Definition parse (version : string) : option SemVer :=
  if bool_decide (MAX_LENGTH < String.length version)%nat then None
  else match matchFull (list_ascii_of_string version) with
       | Some _ => construct version
       | None => None
       end.

(** [semver.valid(v)], as a truth value. *)
Definition valid (v : string) : bool :=
  match parse v with Some _ => true | None => false end.

(** [semver.prerelease(v)], as a truth value: the array of pre-release
    identifiers when there is one, [null] otherwise. *)
Definition hasPrerelease (v : string) : bool :=
  match parse v with
  | Some sv => negb (bool_decide (prerelease sv = []))
  | None => false
  end.

Definition compareN (a b : N) : Z :=
  if (a <? b)%N then -1 else if (b <? a)%N then 1 else 0.

(** [+text] for the digits of [n]: [n] as a double, which is [n] up to
    [MAX_SAFE_INTEGER] and above it the nearest number with 53
    significant bits, the even one of two that are equally near. *)
Definition toDouble (n : N) : N :=
  if (n <=? MAX_SAFE_INTEGER)%N then n
  else
    let shift := (N.size n - 53)%N in
    let q := N.shiftr n shift in
    let r := (n - N.shiftl q shift)%N in
    let half := N.shiftl 1 (shift - 1) in
    N.shiftl (if (half <? r)%N || ((r =? half)%N && N.odd q)
              then q + 1 else q)%N
             shift.

(** [compareIdentifiers(a, b)]: two numeric identifiers are converted to
    numbers and compared, a numeric identifier comes before any other,
    and two others are compared as strings, in code unit order. *)
Definition compareIdentifiers (a b : Identifier) : Z :=
  match a, b with
  | NumId x, NumId y => compareN (toDouble x) (toDouble y)
  | NumId _, StrId _ => -1
  | StrId _, NumId _ => 1
  | StrId x, StrId y =>
      if Text.eqb x y then 0 else if ltb x y then -1 else 1
  end.

(** The loop of [SemVer.prototype.comparePre]: it goes on while the two
    identifiers are identical ([a === b]) and returns
    [compareIdentifiers(a, b)] at the first pair that is not. *)
Fixpoint comparePreLoop (a b : list Identifier) : Z :=
  match a, b with
  | [], [] => 0
  | _ :: _, [] => 1
  | [], _ :: _ => -1
  | x :: a', y :: b' =>
      if bool_decide (x = y) then comparePreLoop a' b'
      else compareIdentifiers x y
  end.

Definition comparePre (a b : SemVer) : Z :=
  match prerelease a, prerelease b with
  | _ :: _, [] => -1
  | [], _ :: _ => 1
  | [], [] => 0
  | pa, pb => comparePreLoop pa pb
  end.

Definition compareMain (a b : SemVer) : Z :=
  if bool_decide (compareN (major a) (major b) = 0)
  then if bool_decide (compareN (minor a) (minor b) = 0)
       then compareN (patch a) (patch b)
       else compareN (minor a) (minor b)
  else compareN (major a) (major b).

(** [SemVer.prototype.compare]: [compareMain(other) || comparePre(other)]. *)
Definition compareSemVer (a b : SemVer) : Z :=
  if bool_decide (compareMain a b = 0) then comparePre a b
  else compareMain a b.

(** [semver.compare(a, b)] builds the [SemVer] object of [a], then the
    one of [b], and compares them. *)
Definition compare (a b : string) : Completion Thrown Z :=
  x ← newSemVer a; y ← newSemVer b; mret (compareSemVer x y).

(** [semver.rcompare(a, b) = compare(b, a)]. *)
Definition rcompare (a b : string) : Completion Thrown Z := compare b a.

(** *** Ranges

    A range is a disjunction of comparator sets; a comparator is an
    operator with a version, or [ANY].  The constructor of [Range] rewrites
    the text of a range with the regular expressions of the package until
    it is a list of comparators ([parseRange]), with the steps and the
    expressions of the package in strict mode. *)

Inductive Operator : Type := OpEq | OpLt | OpLe | OpGt | OpGe.

Inductive Comparator : Type :=
| ANY
| Cmp (op : Operator) (v : SemVer).

Definition Set_ : Type := list Comparator.
Definition Range : Type := list Set_.

Section Ranges.
Local Open Scope list_scope.
Local Open Scope nat_scope.

(** A string literal as a text. *)
Definition txt (s : string) : list ascii := list_ascii_of_string s.

(** [array.join(sep)] *)
Fixpoint join (sep : list ascii) (l : list (list ascii)) : list ascii :=
  match l with
  | [] => []
  | [a] => a
  | a :: r => a ++ sep ++ join sep r
  end.

(** The decimal digits of a number, the last digit first. *)
Fixpoint digitsOf (fuel : nat) (n : N) : list ascii :=
  match fuel with
  | O => []
  | S fuel' =>
      ascii_of_N (48 + n mod 10)
      :: (if (n <? 10)%N then [] else digitsOf fuel' (n / 10))
  end%N.

(** [String(n)] for a natural number. *)
Definition decimal (n : N) : list ascii :=
  rev (digitsOf (S (N.to_nat (N.log2 n))) n).

(** [(+M + 1)] as a string, for digits [M].  The package adds as a
    double; the two differ only above [MAX_SAFE_INTEGER], where the
    constructor of [SemVer] rejects the one and the other. *)
Definition inc (M : list ascii) : list ascii :=
  decimal (digitsValue M + 1)%N.

End Ranges.

Module Expressions.
Import Regex.
Local Open Scope nat_scope.

Definition dot : Re := chr ".".

(** [[v=\s]*] *)
Definition lead : Re :=
  Star (Chr (fun c => (c =? "v")%char || (c =? "=")%char || isSpace c)).

(** [0|[1-9]\d*] *)
Definition NUMERICIDENTIFIER : Re :=
  Alt (chr "0")
      (Seq (Chr (fun c => isDigit c && negb (c =? "0")%char)) (Star digit)).

(** [[0-9]+] *)
Definition NUMERICIDENTIFIERLOOSE : Re := plus digit.

(** [\d*[a-zA-Z-][a-zA-Z0-9-]*] *)
Definition NONNUMERICIDENTIFIER : Re :=
  seq [Star digit; Chr (fun c => isLetter c || (c =? "-")%char);
       Star (Chr isIdentChar)].

(** Three numeric identifiers with dots, as the groups [i], [i + 1] and
    [i + 2]. *)
Definition MAINVERSION (i : nat) : Re :=
  seq [Group i NUMERICIDENTIFIER; dot; Group (i + 1) NUMERICIDENTIFIER; dot;
       Group (i + 2) NUMERICIDENTIFIER].

Definition MAINVERSIONLOOSE (i : nat) : Re :=
  seq [Group i NUMERICIDENTIFIERLOOSE; dot;
       Group (i + 1) NUMERICIDENTIFIERLOOSE; dot;
       Group (i + 2) NUMERICIDENTIFIERLOOSE].

Definition PRERELEASEIDENTIFIER : Re :=
  Alt NUMERICIDENTIFIER NONNUMERICIDENTIFIER.

Definition PRERELEASEIDENTIFIERLOOSE : Re :=
  Alt NUMERICIDENTIFIERLOOSE NONNUMERICIDENTIFIER.

(** A hyphen and dot-separated identifiers, the identifiers as the
    group [i]. *)
Definition PRERELEASE (i : nat) : Re :=
  Seq (chr "-")
      (Group i (Seq PRERELEASEIDENTIFIER
                    (Star (Seq dot PRERELEASEIDENTIFIER)))).

Definition PRERELEASELOOSE (i : nat) : Re :=
  Seq (opt (chr "-"))
      (Group i (Seq PRERELEASEIDENTIFIERLOOSE
                    (Star (Seq dot PRERELEASEIDENTIFIERLOOSE)))).

(** [[0-9A-Za-z-]+] *)
Definition BUILDIDENTIFIER : Re := plus (Chr isIdentChar).

Definition BUILD (i : nat) : Re :=
  Seq (chr "+")
      (Group i (Seq BUILDIDENTIFIER (Star (Seq dot BUILDIDENTIFIER)))).

(** An optional [v], the main version, an optional pre-release and an
    optional build: the groups [i] to [i + 4]. *)
Definition FULLPLAIN (i : nat) : Re :=
  seq [opt (chr "v"); MAINVERSION i; opt (PRERELEASE (i + 3));
       opt (BUILD (i + 4))].

Definition LOOSEPLAIN (i : nat) : Re :=
  seq [lead; MAINVERSIONLOOSE i; opt (PRERELEASELOOSE (i + 3));
       opt (BUILD (i + 4))].

(** An optional [<] or [>] and an optional [=], as the group [i]. *)
Definition GTLT (i : nat) : Re :=
  Group i (Seq (opt (Alt (chr "<") (chr ">"))) (opt (chr "="))).

(** A numeric identifier, [x], [X] or a star. *)
Definition XRANGEIDENTIFIER : Re :=
  Alt NUMERICIDENTIFIER (Alt (chr "x") (Alt (chr "X") (chr "*"))).

(** Any number of [v], [=] and blanks, then one to three components; a
    pre-release and a build only after the third.  The groups [i] to
    [i + 4]. *)
Definition XRANGEPLAIN (i : nat) : Re :=
  seq [lead; Group i XRANGEIDENTIFIER;
       opt (seq [dot; Group (i + 1) XRANGEIDENTIFIER;
                 opt (seq [dot; Group (i + 2) XRANGEIDENTIFIER;
                           opt (PRERELEASE (i + 3));
                           opt (BUILD (i + 4))])])].

Definition XRANGE : Re := seq [Bol; GTLT 1; Star space; XRANGEPLAIN 2; Eol].

(** [~>?] *)
Definition LONETILDE : Re := Seq (chr "~") (opt (chr ">")).

Definition TILDETRIM : Re :=
  seq [Group 1 (Star space); LONETILDE; plus space].

Definition TILDE : Re := seq [Bol; LONETILDE; XRANGEPLAIN 1; Eol].

Definition LONECARET : Re := chr "^".

Definition CARETTRIM : Re :=
  seq [Group 1 (Star space); LONECARET; plus space].

Definition CARET : Re := seq [Bol; LONECARET; XRANGEPLAIN 1; Eol].

(** An operator and a full version, or the empty text. *)
Definition COMPARATOR : Re :=
  Alt (seq [Bol; GTLT 1; Star space; Group 2 (FULLPLAIN 3); Eol])
      (Seq Bol Eol).

Definition COMPARATORTRIM : Re :=
  seq [Group 1 (Star space); GTLT 2; Star space;
       Group 3 (Alt (LOOSEPLAIN 4) (XRANGEPLAIN 4))].

Definition HYPHENRANGE : Re :=
  seq [Bol; Star space; Group 1 (XRANGEPLAIN 2); plus space; chr "-";
       plus space; Group 7 (XRANGEPLAIN 8); Star space; Eol].

(** An optional [<] or [>], an optional [=], blanks and a star. *)
Definition STAR : Re :=
  seq [opt (Group 1 (Alt (chr "<") (chr ">"))); opt (chr "="); Star space;
       chr "*"].

(** [\s+] and the separator of the sets, [||] with the blanks around
    it. *)
Definition blanks : Re := plus space.

Definition OR : Re := seq [Star space; chr "|"; chr "|"; Star space].

End Expressions.

Section Rewriting.
Local Open Scope list_scope.
Local Open Scope nat_scope.

(** The text of a group, the empty text when the group is [undefined]. *)
Definition str (g : option (list ascii)) : list ascii := default [] g.

(** [isX(id)]: the component is missing, or is [x], [X] or a star. *)
Definition isX (id : option (list ascii)) : bool :=
  match id with
  | None => true
  | Some [] => true
  | Some [c] => (c =? "x")%char || (c =? "X")%char || (c =? "*")%char
  | Some _ => false
  end.

(** [id] is the string [s]. *)
Definition equals (id : list ascii) (s : string) : bool := Text.eqb id (txt s).

(** [hyphenReplace]: the groups 1 to 6 are the first operand and its
    components, the groups 7 to 12 the second. *)
Definition hyphenReplace (whole : list ascii)
           (g : nat → option (list ascii)) : list ascii :=
  let from :=
    if isX (g 2) then []
    else if isX (g 3) then txt ">=" ++ str (g 2) ++ txt ".0.0"
    else if isX (g 4)
         then txt ">=" ++ str (g 2) ++ txt "." ++ str (g 3) ++ txt ".0"
         else txt ">=" ++ str (g 1) in
  let to :=
    if isX (g 8) then []
    else if isX (g 9) then txt "<" ++ inc (str (g 8)) ++ txt ".0.0"
    else if isX (g 10)
         then txt "<" ++ str (g 8) ++ txt "." ++ inc (str (g 9)) ++ txt ".0"
         else match g 11 with
              | Some ((_ :: _) as tpr) =>
                  txt "<=" ++ str (g 8) ++ txt "." ++ str (g 9) ++ txt "."
                  ++ str (g 10) ++ txt "-" ++ tpr
              | _ => txt "<=" ++ str (g 7)
              end in
  trim (from ++ txt " " ++ to).

(** [replaceCaret]: the groups 1 to 4 are [M], [m], [p] and [pr]. *)
Definition replaceCaret (comp : list ascii) : list ascii :=
  Regex.replace Expressions.CARET
    (fun _ g =>
       let M := str (g 1) in
       let m := str (g 2) in
       let p := str (g 3) in
       if isX (g 1) then []
       else if isX (g 2)
       then txt ">=" ++ M ++ txt ".0.0 <" ++ inc M ++ txt ".0.0"
       else if isX (g 3)
       then if equals M "0"
            then txt ">=" ++ M ++ txt "." ++ m ++ txt ".0 <" ++ M ++ txt "."
                 ++ inc m ++ txt ".0"
            else txt ">=" ++ M ++ txt "." ++ m ++ txt ".0 <" ++ inc M
                 ++ txt ".0.0"
       else
         let low :=
           match g 4 with
           | Some ((_ :: _) as pr) =>
               txt ">=" ++ M ++ txt "." ++ m ++ txt "." ++ p ++ txt "-" ++ pr
           | _ => txt ">=" ++ M ++ txt "." ++ m ++ txt "." ++ p
           end in
         if equals M "0"
         then if equals m "0"
              then low ++ txt " <" ++ M ++ txt "." ++ m ++ txt "." ++ inc p
              else low ++ txt " <" ++ M ++ txt "." ++ inc m ++ txt ".0"
         else low ++ txt " <" ++ inc M ++ txt ".0.0")
    comp.

(** [replaceTilde] *)
Definition replaceTilde (comp : list ascii) : list ascii :=
  Regex.replace Expressions.TILDE
    (fun _ g =>
       let M := str (g 1) in
       let m := str (g 2) in
       let p := str (g 3) in
       if isX (g 1) then []
       else if isX (g 2)
       then txt ">=" ++ M ++ txt ".0.0 <" ++ inc M ++ txt ".0.0"
       else if isX (g 3)
       then txt ">=" ++ M ++ txt "." ++ m ++ txt ".0 <" ++ M ++ txt "."
            ++ inc m ++ txt ".0"
       else
         match g 4 with
         | Some ((_ :: _) as pr) =>
             txt ">=" ++ M ++ txt "." ++ m ++ txt "." ++ p ++ txt "-" ++ pr
             ++ txt " <" ++ M ++ txt "." ++ inc m ++ txt ".0"
         | _ =>
             txt ">=" ++ M ++ txt "." ++ m ++ txt "." ++ p
             ++ txt " <" ++ M ++ txt "." ++ inc m ++ txt ".0"
         end)
    comp.

(** [replaceXRange]: the group 1 is the operator, the groups 2 to 4 are
    [M], [m] and [p]. *)
Definition replaceXRange (comp : list ascii) : list ascii :=
  Regex.replace Expressions.XRANGE
    (fun ret g =>
       let M := str (g 2) in
       let xM := isX (g 2) in
       let xm := xM || isX (g 3) in
       let xp := xm || isX (g 4) in
       let anyX := xp in
       let gtlt := if equals (str (g 1)) "=" && anyX then [] else str (g 1) in
       if xM
       then if equals gtlt ">" || equals gtlt "<" then txt "<0.0.0" else txt "*"
       else if negb (equals gtlt "") && anyX
       then
         let m := if xm then txt "0" else str (g 3) in
         if equals gtlt ">"
         then if xm
              then txt ">=" ++ inc M ++ txt ".0.0"
              else txt ">=" ++ M ++ txt "." ++ inc m ++ txt ".0"
         else if equals gtlt "<="
         then if xm
              then txt "<" ++ inc M ++ txt "." ++ m ++ txt ".0"
              else txt "<" ++ M ++ txt "." ++ inc m ++ txt ".0"
         else gtlt ++ M ++ txt "." ++ m ++ txt ".0"
       else if xm
       then txt ">=" ++ M ++ txt ".0.0 <" ++ inc M ++ txt ".0.0"
       else if xp
       then txt ">=" ++ M ++ txt "." ++ str (g 3) ++ txt ".0 <" ++ M
            ++ txt "." ++ inc (str (g 3)) ++ txt ".0"
       else ret)
    (trim comp).

(** [replaceCarets], [replaceTildes], [replaceXRanges], [replaceStars] *)
Definition replaceCarets (comp : list ascii) : list ascii :=
  join (txt " ") (map replaceCaret (Regex.split Expressions.blanks (trim comp))).

Definition replaceTildes (comp : list ascii) : list ascii :=
  join (txt " ") (map replaceTilde (Regex.split Expressions.blanks (trim comp))).

Definition replaceXRanges (comp : list ascii) : list ascii :=
  join (txt " ") (map replaceXRange (Regex.split Expressions.blanks comp)).

Definition replaceStars (comp : list ascii) : list ascii :=
  Regex.replace Expressions.STAR (fun _ _ => []) (trim comp).

(** [parseComparator(comp)] *)
Definition parseComparator (comp : list ascii) : list ascii :=
  replaceStars (replaceXRanges (replaceTildes (replaceCarets comp))).

(** The operator of a comparator, from the group of [GTLT]; [=] is the
    same as none. *)
Definition operatorOf (gtlt : list ascii) : Operator :=
  if equals gtlt "<" then OpLt
  else if equals gtlt "<=" then OpLe
  else if equals gtlt ">" then OpGt
  else if equals gtlt ">=" then OpGe
  else OpEq.

(** [new Comparator(comp)]; [None] when the constructor throws, which it
    does when [comp] does not match [COMPARATOR] or when the constructor
    of [SemVer] throws. *)
Definition newComparator (comp : list ascii) : option Comparator :=
  match Regex.exec Expressions.COMPARATOR comp with
  | None => None
  | Some m =>
      match Regex.group m 2 with
      | Some ((_ :: _) as version) =>
          Cmp (operatorOf (str (Regex.group m 1)))
            <$> construct (string_of_list_ascii version)
      | _ => Some ANY
      end
  end.

(** [Range.prototype.parseRange(range)]: the comparators of one set. *)
Definition parseRange (range : list ascii) : option Set_ :=
  let range := trim range in
  let range := Regex.replace Expressions.HYPHENRANGE hyphenReplace range in
  let range :=
    Regex.replaceAll Expressions.COMPARATORTRIM
      (fun _ g => str (g 1) ++ str (g 2) ++ str (g 3)) range in
  let range :=
    Regex.replaceAll Expressions.TILDETRIM (fun _ g => str (g 1) ++ txt "~") range in
  let range :=
    Regex.replaceAll Expressions.CARETTRIM (fun _ g => str (g 1) ++ txt "^") range in
  let range := join (txt " ") (Regex.split Expressions.blanks range) in
  let set :=
    Regex.split Expressions.blanks
      (join (txt " ") (map parseComparator (splitOn " " range))) in
  sequence (map newComparator set).

(** [new Range(range)]; [None] when the constructor throws: a comparator
    is ill-formed, or no set is left. *)
Definition newRange (range : string) : option Range :=
  match
    sequence (map (fun r => parseRange (trim r))
                  (Regex.split Expressions.OR (txt range)))
  with
  | Some sets =>
      match List.filter (fun c => negb (length c =? 0)%nat) sets with
      | [] => None
      | set => Some set
      end
  | None => None
  end.
End Rewriting.
(** [cmp(a, op, b)] *)
Definition cmp (a : SemVer) (op : Operator) (b : SemVer) : bool :=
  match op with
  | OpEq => compareSemVer a b =? 0
  | OpLt => compareSemVer a b <? 0
  | OpLe => compareSemVer a b <=? 0
  | OpGt => compareSemVer a b >? 0
  | OpGe => compareSemVer a b >=? 0
  end.

(** [Comparator.prototype.test] *)
Definition testComparator (c : Comparator) (version : SemVer) : bool :=
  match c with
  | ANY => true
  | Cmp op v => cmp version op v
  end.

Definition sameTuple (a b : SemVer) : bool :=
  ((major a =? major b) && (minor a =? minor b) && (patch a =? patch b))%N.

(** [testSet]: every comparator accepts the version, and a pre-release
    version is accepted only when a comparator of the set names a
    pre-release of the same [major.minor.patch]. *)
Definition testSet (set : Set_) (version : SemVer) : bool :=
  forallb (fun c => testComparator c version) set
  && match prerelease version with
     | [] => true
     | _ :: _ =>
         existsb (fun c =>
                    match c with
                    | ANY => false
                    | Cmp _ v =>
                        negb (bool_decide (prerelease v = []))
                        && sameTuple v version
                    end) set
     end.

(** [Range.prototype.test] on a version object. *)
Definition testRange (r : Range) (version : SemVer) : bool :=
  existsb (fun set => testSet set version) r.

(** The loop of [maxSatisfying]: [max] and [maxSV] are [null] or the best
    version so far and its [SemVer] object. *)
Fixpoint maxLoop (r : Range) (versions : list string)
         (max : option (string * SemVer))
  : Completion Thrown (option (string * SemVer)) :=
  match versions with
  | [] => Returns max
  | v :: rest =>
      sv ← newSemVer v;
      if testRange r sv
      then match max with
           | None => maxLoop r rest (Some (v, sv))
           | Some (_, maxSV) =>
               if compareSemVer maxSV sv =? -1
               then maxLoop r rest (Some (v, sv))
               else maxLoop r rest max
           end
      else maxLoop r rest max
  end.

(** [semver.maxSatisfying(versions, range)]: [null] when the range is
    ill-formed, otherwise the first version of highest precedence among
    those in the range, or [null]. *)
Definition maxSatisfying (versions : list string) (range : string)
  : Completion Thrown (option string) :=
  match newRange range with
  | None => Returns None
  | Some r =>
      match maxLoop r versions None with
      | Returns m => Returns (fst <$> m)
      | Throws e => Throws e
      end
  end.

(** [semver.satisfies(version, range)] for a text that is a version:
    [false] when the range is ill-formed.  (For a text that is no version
    the package throws; the value here is [false].) *)
Definition satisfies (version range : string) : bool :=
  match newRange range, construct version with
  | Some r, Some sv => testRange r sv
  | _, _ => false
  end.

(** *** Precedence

    The precedence of versions as the Semantic Versioning specification
    defines it (item 11), on exact integers: the three numbers in order;
    with the same numbers a pre-release version is lower than the
    release; two pre-releases are compared identifier by identifier, a
    numeric identifier by value and below any other, the others in ASCII
    order, and a version whose identifiers all occur at the start of a
    longer list is lower. *)

Definition idLower (x y : Identifier) : Prop :=
  match x, y with
  | NumId n, NumId m => (n < m)%N
  | NumId _, StrId _ => True
  | StrId _, NumId _ => False
  | StrId s, StrId t => ltb s t = true
  end.

Fixpoint preLower (a b : list Identifier) : Prop :=
  match a, b with
  | [], [] => False
  | [], _ :: _ => True
  | _ :: _, [] => False
  | x :: a', y :: b' => idLower x y ∨ (x = y ∧ preLower a' b')
  end.

(** [a] has lower precedence than [b]. *)
Definition lower (a b : SemVer) : Prop :=
  (major a < major b)%N
  ∨ (major a = major b ∧ (minor a < minor b)%N)
  ∨ (major a = major b ∧ minor a = minor b ∧ (patch a < patch b)%N)
  ∨ (major a = major b ∧ minor a = minor b ∧ patch a = patch b
     ∧ match prerelease a, prerelease b with
       | _ :: _, [] => True
       | [], _ => False
       | pa, pb => preLower pa pb
       end).

(** The texts [v] and [w] are versions, and [v] does not have lower
    precedence than [w]. *)
Definition notBelow (v w : string) : Prop :=
  ∃ x y, construct v = Some x ∧ construct w = Some y ∧ ¬ lower x y.

(** *** Notions used to state the properties of the package *)

(** A comparison function that induces a total preorder: it answers [0]
    on equal arguments, changes sign when they are exchanged, and is
    transitive. *)
Record Order {A : Type} (c : A → A → Z) : Prop := mkOrder {
  o_refl : ∀ a, c a a = 0;
  o_anti : ∀ a b, c b a = - c a b;
  o_trans : ∀ a b d, c a b <= 0 → c b d <= 0 → c a d <= 0
}.

(** One step of a lexicographic comparison: [k] decides unless it is
    [0]. *)
Definition lexStep (k r : Z) : Z := if bool_decide (k = 0) then r else k.

(** The answers of a comparison. *)
Definition sign (z : Z) : Prop := z = -1 ∨ z = 0 ∨ z = 1.

(** A text the [SemVer] constructor accepts. *)
Definition isVersion (v : string) : Prop := is_Some (construct v).

(** The numeric pre-release identifiers of a version are at most
    [MAX_SAFE_INTEGER], so that they are compared as they are written. *)
Definition safeIdentifier (i : Identifier) : bool :=
  match i with
  | NumId n => (n <=? MAX_SAFE_INTEGER)%N
  | StrId _ => true
  end.

Definition safe (sv : SemVer) : bool := forallb safeIdentifier (prerelease sv).

(** A text that is a version with such identifiers. *)
Definition safeVersion (v : string) : bool :=
  match construct v with
  | Some sv => safe sv
  | None => false
  end.

(** The comparison of the package on exact integers: what [compareSemVer]
    computes when no identifier is above [MAX_SAFE_INTEGER]. *)
Definition exactIdentifiers (a b : Identifier) : Z :=
  match a, b with
  | NumId x, NumId y => compareN x y
  | NumId _, StrId _ => -1
  | StrId _, NumId _ => 1
  | StrId x, StrId y =>
      if Text.eqb x y then 0 else if ltb x y then -1 else 1
  end.

Fixpoint exactPreLoop (a b : list Identifier) : Z :=
  match a, b with
  | [], [] => 0
  | _ :: _, [] => 1
  | [], _ :: _ => -1
  | x :: a', y :: b' => lexStep (exactIdentifiers x y) (exactPreLoop a' b')
  end.

Definition exactPre (a b : SemVer) : Z :=
  match prerelease a, prerelease b with
  | _ :: _, [] => -1
  | [], _ :: _ => 1
  | [], [] => 0
  | pa, pb => exactPreLoop pa pb
  end.

Definition exactSemVer (a b : SemVer) : Z :=
  lexStep (compareMain a b) (exactPre a b).

(** [rank v] is the [SemVer] object of [v], or [0.0.0] for a text that is
    not a version; on versions [rcompareZ] is what [rcompare] returns, and
    [rcompareExact] is the same comparison on exact integers. *)
Definition rank (v : string) : SemVer :=
  default (mkSemVer 0 0 0 [] []) (construct v).

Definition rcompareZ (a b : string) : Z :=
  compareSemVer (rank b) (rank a).

Definition rcompareExact (a b : string) : Z :=
  exactSemVer (rank b) (rank a).

(** The [max] of the loop of [maxSatisfying] holds the [SemVer] object
    of its version, with identifiers that are compared as they are
    written. *)
Definition wellFormed (acc : option (string * SemVer)) : Prop :=
  ∀ m msv, acc = Some (m, msv) → construct m = Some msv ∧ safe msv = true.

End Semver.

(** ** Arrays and [lodash] *)

Module JsArray.

Section Sort.
Context {A : Type}.

(** An insertion sort with a comparison that may throw: one of the ways
    in which an engine may sort.  An exception of [compareFn] leaves the
    sort. *)
Variable compareFn : A → A → Completion Thrown Z.

Fixpoint insert (x : A) (l : list A) : Completion Thrown (list A) :=
  match l with
  | [] => Returns [x]
  | y :: r =>
      match compareFn x y with
      | Throws e => Throws e
      | Returns c =>
          if c <=? 0 then Returns (x :: y :: r)
          else match insert x r with
               | Returns r' => Returns (y :: r')
               | Throws e => Throws e
               end
      end
  end.

Fixpoint insertionSort (l : list A) : Completion Thrown (list A) :=
  match l with
  | [] => Returns []
  | x :: r =>
      match insertionSort r with
      | Returns r' => insert x r'
      | Throws e => Throws e
      end
  end.

(** The stable sort for a comparison that cannot throw: [a] is placed
    before [b] when [compareZ a b <= 0] and [a] came first.  For a
    consistent comparison function this is the order that the language
    prescribes. *)
Variable compareZ : A → A → Z.

Fixpoint insertZ (x : A) (l : list A) : list A :=
  match l with
  | [] => [x]
  | y :: r => if compareZ x y <=? 0 then x :: y :: r else y :: insertZ x r
  end.

Fixpoint sortZ (l : list A) : list A :=
  match l with
  | [] => []
  | x :: r => insertZ x (sortZ r)
  end.

(** [a] may stand before [b]. *)
Definition before (a b : A) : Prop := compareZ a b <= 0.

(** [compareFn] returns on [x] and [y], with the sign of [compareZ]. *)
Definition agree (x y : A) : Prop :=
  ∃ c, compareFn x y = Returns c ∧ (c <=? 0) = (compareZ x y <=? 0).

(** [compareFn] is a consistent comparison function for the elements of
    [l], with the values [compareZ]: it returns on them, answers [0] on
    equal arguments, changes sign when they are exchanged, and is
    transitive. *)
Definition consistent (l : list A) : Prop :=
  (∀ x y, In x l → In y l → compareFn x y = Returns (compareZ x y))
  ∧ (∀ x, In x l → compareZ x x = 0)
  ∧ (∀ x y, In x l → In y l → (compareZ x y < 0 ↔ 0 < compareZ y x))
  ∧ (∀ x y z, In x l → In y l → In z l →
              compareZ x y <= 0 → compareZ y z <= 0 → compareZ x z <= 0).

(** Every comparison of [x] with an element of [l] throws. *)
Definition unreadable (x : A) (l : list A) : Prop :=
  ∀ y, In y l →
       (∃ e, compareFn x y = Throws e) ∧ (∃ e, compareFn y x = Throws e).
End Sort.

(** [Array.prototype.sort(compareFn)].  The language leaves to the engine
    in which order the elements are compared and, when [compareFn] is not
    a consistent comparison function, the order of the result.  An engine
    is any function with the properties that the language and the nature
    of a sort by comparisons fix: an array of fewer than two elements is
    returned as it is, nothing being compared; with a consistent
    comparison function the result is the stable sort; an exception that
    leaves the sort was thrown by [compareFn] on two elements of the
    array; a result is a permutation of the array; and every element of an
    array of two or more elements is compared with another one, so that
    an element on which every comparison throws makes the sort throw. *)
Class SortEngine : Type := mkSortEngine {
  sort : ∀ A : Type,
      (A → A → Completion Thrown Z) → list A → Completion Thrown (list A);
  sort_short : ∀ A (compareFn : A → A → Completion Thrown Z) l,
      (length l < 2)%nat → sort A compareFn l = Returns l;
  sort_consistent :
    ∀ A (compareFn : A → A → Completion Thrown Z) compareZ l,
      consistent compareFn compareZ l →
      sort A compareFn l = Returns (sortZ compareZ l);
  sort_throws : ∀ A (compareFn : A → A → Completion Thrown Z) l e,
      sort A compareFn l = Throws e →
      ∃ x y, In x l ∧ In y l ∧ compareFn x y = Throws e;
  sort_returns : ∀ A (compareFn : A → A → Completion Thrown Z) l r,
      sort A compareFn l = Returns r → Permutation l r;
  sort_reads : ∀ A (compareFn : A → A → Completion Thrown Z) l x,
      (2 ≤ length l)%nat → In x l → unreadable compareFn x l →
      ∃ e, sort A compareFn l = Throws e
}.
Arguments sort {_} {A} compareFn l.

(** [array.includes(x)] on strings. *)
Definition includes (x : string) (array : list string) : bool :=
  existsb (String.eqb x) array.

End JsArray.


Module Lodash.

(** [_.uniq(array)]: the first occurrence of every value, in order;
    [seen] holds the values already kept. *)
Fixpoint baseUniq (seen : list string) (array : list string) : list string :=
  match array with
  | [] => []
  | x :: r =>
      if JsArray.includes x seen then baseUniq seen r
      else x :: baseUniq (x :: seen) r
  end.

Definition uniq (array : list string) : list string := baseUniq [] array.

(** [y] is not the value [x]. *)
Definition differs (x y : string) : bool := negb (String.eqb y x).

(** [_.pick(object, paths)] on an object given by its properties: the
    properties named in [paths] that the object has, in the order of
    [paths]. *)
Definition pick {V} (object : list (string * V)) (paths : list string)
  : list (string * V) :=
  flat_map (fun k =>
              match find (fun kv => String.eqb (fst kv) k) object with
              | Some kv => [kv]
              | None => []
              end) paths.

End Lodash.

(** ** The metadata document *)

(** The [tags] property of a metadata document: the registry's [dist-tags]
    object (a map from tag names to versions), the empty array literal
    [[]] written by the GitHub loader, or [undefined] when the registry's
    answer has no [dist-tags]. *)
Inductive Tags : Type :=
| TagsObject (m : gmap string string)
| TagsArray
| TagsUndefined.

Record Metadata : Type := mkMetadata {
  tags : Tags;
  versions : list string
}.

(** [{}.hasOwnProperty.call(tags, key)]: an object has the keys of its
    map, an array has [length] (and no index when it is empty), and the
    call throws on [undefined]. *)
Definition hasOwnProperty (t : Tags) (key : string) : Completion Thrown bool :=
  match t with
  | TagsObject m => Returns (bool_decide (is_Some (m !! key)))
  | TagsArray => Returns (String.eqb key "length")
  | TagsUndefined =>
      Throws (TypeError "Cannot convert undefined or null to object")
  end.

(** [tags[key]] *)
Definition getProperty (t : Tags) (key : string) : JsValue :=
  match t with
  | TagsObject m =>
      match m !! key with
      | Some v => JsString v
      | None => JsUndefined
      end
  | TagsArray => if String.eqb key "length" then JsNumber 0 else JsUndefined
  | TagsUndefined => JsUndefined
  end.

(** ** [PackageRequest.getResolvedVersion] *)

Module PackageRequest.

(** [v => semver.valid(v) && !semver.prerelease(v)] *)
Definition isStable (v : string) : bool :=
  Semver.valid v && negb (Semver.hasPrerelease v).

Section Resolving.
(** The engine that sorts. *)
Context {engine : JsArray.SortEngine}.

(** [metadata.versions.filter(...).sort(semver.rcompare)] *)
Definition stableVersions (metadata : Metadata)
  : Completion Thrown (list string) :=
  JsArray.sort Semver.rcompare (List.filter isStable (versions metadata)).

(** [versions[0] || null] *)
Definition firstOrNull (l : list string) : JsValue :=
  match l with
  | v :: _ => if String.eqb v "" then JsNull else JsString v
  | [] => JsNull
  end.

Definition orNull (o : option string) : JsValue :=
  match o with
  | Some v => JsString v
  | None => JsNull
  end.

(** The callback of [getResolvedVersion], applied to the metadata the
    promise of [getMetadata] resolved with; [version] is
    [this.params.version]. *)
Definition getResolvedVersion (metadata : Metadata) (version : string)
  : Completion Thrown JsValue :=
  match stableVersions metadata with
  | Throws e => Throws e
  | Returns versions' =>
      if JsArray.includes version (versions metadata)
      then Returns (JsString version)
      else
        match hasOwnProperty (tags metadata) version with
        | Throws e => Throws e
        | Returns true => Returns (getProperty (tags metadata) version)
        | Returns false =>
            if String.eqb version "latest" || String.eqb version ""
            then Returns (firstOrNull versions')
            else
              match Semver.maxSatisfying versions' version with
              | Returns r => Returns (orNull r)
              | Throws e => Throws e
              end
        end
  end.

(** The same callback when [this.params.version] is [undefined]: no
    entry of [versions] is [undefined], the own-property test converts
    the key to the string ["undefined"], and [!this.params.version]
    holds. *)
Definition getResolvedVersionUndefined (metadata : Metadata)
  : Completion Thrown JsValue :=
  match stableVersions metadata with
  | Throws e => Throws e
  | Returns versions' =>
      match hasOwnProperty (tags metadata) "undefined" with
      | Throws e => Throws e
      | Returns true => Returns (getProperty (tags metadata) "undefined")
      | Returns false => Returns (firstOrNull versions')
      end
  end.
End Resolving.

(** [v] has the property [P], and has no lower precedence than any
    text with the property [P]. *)
Definition highest (P : string → Prop) (v : string) : Prop :=
  P v ∧ ∀ w, P w → Semver.notBelow v w.

(** The document of the example of the specification. *)
Definition exampleDocument : Metadata :=
  mkMetadata (TagsObject {[ "latest" := "2.0.0" ]})
             ["2.0.0"; "1.9.9"; "1.0.0-beta"].

End PackageRequest.

(** ** Loaders and the shared cache *)

(** The requests a loader sends: a [got] call with its options, or the
    paginated listing of the tags of a repository. *)
Inductive Request : Type :=
| GotRequest (url : string) (json : bool) (timeout : Z)
| ListTags (owner repo : string) (per_page : Z).

Inductive LabelValue : Type :=
| LabelString (s : string)
| LabelNumber (n : Z).

(** What a loader does besides sending requests: [cache(value, maxAge)]
    with the value [{ response: { statusCode } }] ([maxAge] is [None] when
    the argument is left out), [log.error], [apmClient.addLabels]. *)
Inductive Effect : Type :=
| CacheOverride (statusCode : Z) (maxAge : option Z)
| LogError (message : string)
| AddLabels (key : string) (value : LabelValue).

(** One execution of a loader: what it requested, what it did, and how its
    promise settled. *)
Record Run (V : Type) : Type := mkRun {
  requests : list Request;
  effects : list Effect;
  outcome : Completion Thrown V
}.
Arguments mkRun {V} requests effects outcome.
Arguments requests {V} r.
Arguments effects {V} r.
Arguments outcome {V} r.

(** The first [cache(...)] call of a run, if any. *)
Fixpoint firstOverride (l : list Effect) : option (Z * option Z) :=
  match l with
  | [] => None
  | CacheOverride sc ttl :: _ => Some (sc, ttl)
  | _ :: r => firstOverride r
  end.

Module SharedCache.

Section Cache.
Context {V : Type}.

(** Modelled from the spec: the settled entries of the shared promise
    cache ([lib/promise-cache-shared], which is not among the sources).
    An entry is a success or a failure (a negative result, kept as its
    status code) with the instant at which it expires. *)
Inductive Stored : Type :=
| Success (v : V)
| Failure (statusCode : Z).

(** Modelled from the spec: a settled cache entry of
    [lib/promise-cache-shared]. *)
Record Entry : Type := mkEntry {
  stored : Stored;
  expiresAt : Z
}.

(** Modelled from the spec: what a call of [get] of
    [lib/promise-cache-shared] yields: the new entries, the outcome
    for the caller, and the requests that were sent for it. *)
Record GetResult : Type := mkGetResult {
  entries : gmap string Entry;
  result : Completion Thrown V;
  sent : list Request;
  invoked : bool
}.

(** Modelled from the spec: an entry of [lib/promise-cache-shared] is
    visible while [now < expiresAt]. *)
Definition fresh (st : gmap string Entry) (now : Z) (key : string)
  : option Stored :=
  match st !! key with
  | Some e => if now <? expiresAt e then Some (stored e) else None
  | None => None
  end.

(** Modelled from the spec: [get(key, loader, defaultMaxAge)] of
    [lib/promise-cache-shared], for calls that follow one another (the
    pending state of an entry is not modelled, and no time passes
    during a load).  A fresh entry answers without the loader.
    Otherwise the loader runs: when it called the override the
    negative result is stored under the given [maxAge], or under
    [defaultMaxAge] when none was given, whatever the loader then
    returns or throws; when it resolved without override the value is
    stored under [defaultMaxAge]; when it failed without override
    nothing is stored.  The caller receives the outcome of the
    loader. *)
Definition get (st : gmap string Entry) (now : Z) (key : string)
           (loader : Run V) (defaultMaxAge : Z) : GetResult :=
  match fresh st now key with
  | Some (Success v) => mkGetResult st (Returns v) [] false
  | Some (Failure sc) =>
      mkGetResult st (Throws (ThrownResponse sc)) [] false
  | None =>
      let st' :=
        match firstOverride (effects loader), outcome loader with
        | Some (sc, ttl), _ =>
            <[key := mkEntry (Failure sc)
                             (now + default defaultMaxAge ttl)]> st
        | None, Returns v =>
            <[key := mkEntry (Success v) (now + defaultMaxAge)]> st
        | None, Throws _ => st
        end in
      mkGetResult st' (outcome loader) (requests loader) true
  end.
End Cache.
Arguments Stored V : clear implicits.
Arguments Entry V : clear implicits.
Arguments GetResult V : clear implicits.

End SharedCache.

(** ** [fetchGitHubMetadata] *)

Module GitHub.

(** A tag as the GitHub API lists it; only [name] is read. *)
Record Tag : Type := mkTag {
  name : string;
  commit : string
}.

(** The body of [data.forEach]: a name whose first character is [v]
    loses that character. *)
Definition stripV (tag : Tag) : Tag :=
  match name tag with
  | String "v"%char rest => mkTag rest (commit tag)
  | _ => tag
  end.

(** [v => v] as a filter on strings: the empty string is dropped. *)
Definition truthy (v : string) : bool := negb (String.eqb v "").

Section Loader.
(** [vCompare.rCompare] of the package [v-compare], which is a
    dependency and not part of the repository: a comparison of two
    tag names that does not throw. *)
Variable rCompare : string → string → Z.

(** [_.uniq(_.map(data, 'name').filter(v => v).sort(vCompare.rCompare))]
    after the [forEach]. *)
Definition normalize (data : list Tag) : list string :=
  Lodash.uniq
    (JsArray.sortZ rCompare
       (List.filter truthy (map name (map stripV data)))).

(** The [catch] callback of the loader. *)
Definition onError (maxAge : Z) (error : OctokitError)
  : list Effect * Thrown :=
  let error' := mkOctokitError (status error) (block error)
                               (Some (status error)) in
  let notFound :=
    if status error =? 404
    then [AddLabels "githubRepoNotFound" (LabelString "1");
          CacheOverride (status error) (Some (maxAge * 2))]
    else [] in
  let forbidden :=
    if status error =? 403
    then if block error
         then [CacheOverride (status error) (Some (maxAge * 2))]
         else [LogError "GitHub API rate limit exceeded."]
    else [] in
  ((notFound ++ forbidden)%list, ThrownOctokit error').

(** The loader passed to [fetchCache.get]; [paginated] is the way the
    promise of [githubApi.paginate] settles. *)
Definition loader (user repo : string) (maxAge : Z)
           (paginated : Completion OctokitError (list Tag))
  : Run Metadata :=
  let request := [ListTags user repo 100] in
  match paginated with
  | Returns data =>
      mkRun request
            [AddLabels "githubTagCount"
                       (LabelNumber (Z.of_nat (length data)))]
            (Returns (mkMetadata TagsArray (normalize data)))
  | Throws error =>
      let '(eff, thrown) := onError maxAge error in
      mkRun request eff (Throws thrown)
  end.

(** [fetchGitHubMetadata(user, repo, maxAge)] on the cache [st] at the
    instant [now].  The two labels set before the lookup ([githubUser],
    [githubRepo]) are telemetry and are left out. *)
Definition fetchGitHubMetadata
           (st : gmap string (SharedCache.Entry Metadata)) (now : Z)
           (user repo : string) (maxAge : Z)
           (paginated : Completion OctokitError (list Tag))
  : SharedCache.GetResult Metadata :=
  SharedCache.get st now ("gh/" +:+ user +:+ "/" +:+ repo)
                  (loader user repo maxAge paginated) maxAge.
End Loader.


End GitHub.

(** ** [fetchNpmMetadata] *)

(** A promise together with the instant at which it settles. *)
Record Settled (A : Type) : Type := mkSettled {
  settledAt : nat;
  settlement : Completion GotError A
}.
Arguments mkSettled {A} settledAt settlement.
Arguments settledAt {A} s.
Arguments settlement {A} s.

Module Bluebird.

Section Any.
Context {A : Type}.

(** The promises in the order in which they settle; promises are
    created in the order of the array, which decides between equal
    instants. *)
Definition byInstant (p q : Settled A) : Z :=
  Z.of_nat (settledAt p) - Z.of_nat (settledAt q).

Definition chronological (promises : list (Settled A))
  : list (Settled A) :=
  JsArray.sortZ byInstant promises.

Definition fulfilled (p : Settled A) : Prop :=
  ∃ r, settlement p = Returns r.

Definition rejected (p : Settled A) : Prop :=
  ∃ e, settlement p = Throws e.

(** How [Promise.any] settles: with the first fulfilment, or with an
    [AggregateError] of the rejection reasons. *)
Inductive AnyOutcome : Type :=
| Fulfilled (value : A)
| AggregateError (reasons : list GotError).

(** [SomePromiseArray]: a fulfilment resolves the promise, a rejection
    is pushed to the reasons, which are thus kept in the order in which
    the rejections happened. *)
Fixpoint anyLoop (events : list (Settled A)) (reasons : list GotError)
  : AnyOutcome :=
  match events with
  | [] => AggregateError reasons
  | p :: rest =>
      match settlement p with
      | Returns value => Fulfilled value
      | Throws reason => anyLoop rest (reasons ++ [reason])%list
      end
  end.

(** [Bluebird.any(promises)] for a non-empty array. *)
Definition any (promises : list (Settled A)) : AnyOutcome :=
  anyLoop (chronological promises) [].
End Any.
Arguments AnyOutcome A : clear implicits.

End Bluebird.

Module Npm.

(** The body of a registry answer, as far as the loader reads it:
    [dist-tags] ([None] when the property is missing) and the keys of
    [versions] in enumeration order ([None] when the property is missing
    or falsy). *)
Record RegistryBody : Type := mkRegistryBody {
  distTags : option (gmap string string);
  versionKeys : option (list string)
}.

(** A successful response; [None] is a falsy body. *)
Record Response : Type := mkResponse {
  responseBody : option RegistryBody
}.

(** [v1Config.npm.sourceUrl]: one string, or a non-empty array. *)
Inductive SourceUrl : Type :=
| OneUrl (sourceUrl : string)
| ManyUrls (first : string) (others : list string).

Definition tagsOf (b : RegistryBody) : Tags :=
  match distTags b with
  | Some m => TagsObject m
  | None => TagsUndefined
  end.

Section Loader.
(** [encodeURIComponent], the network (how the request to a URL settles
    and when), and the engine that sorts. *)
Variable encodeURIComponent : string → string.
Variable got : string → Settled Response.
Context {engine : JsArray.SortEngine}.

(** [name.charAt(0) === '@' ? '@' + encodeURIComponent(name.substr(1))
    : encodeURIComponent(name)] *)
Definition encodeName (name : string) : string :=
  match name with
  | String "@"%char rest => "@" +:+ encodeURIComponent rest
  | _ => encodeURIComponent name
  end.

Definition urlOf (name sourceUrl : string) : string :=
  sourceUrl +:+ "/" +:+ name.

Definition requestOf (url : string) : Request :=
  GotRequest url true 30000.

(** [promise]: the single request, or [Bluebird.any] of the requests
    with [throw e[0]] for the aggregate. *)
Definition promise (name : string) (cfg : SourceUrl)
  : Completion Thrown Response :=
  match cfg with
  | OneUrl u =>
      match settlement (got (urlOf name u)) with
      | Returns r => Returns r
      | Throws e => Throws (ThrownGot e)
      end
  | ManyUrls u us =>
      match Bluebird.any (map (fun s => got (urlOf name s)) (u :: us)) with
      | Bluebird.Fulfilled r => Returns r
      | Bluebird.AggregateError (e :: _) => Throws (ThrownGot e)
      | Bluebird.AggregateError [] =>
          Throws (TypeError "Cannot read property 'response' of undefined")
      end
  end.

Definition urlsOf (cfg : SourceUrl) : list string :=
  match cfg with
  | OneUrl u => [u]
  | ManyUrls u us => u :: us
  end.

(** [error.response && error.response.statusCode === 404] *)
Definition is404 (error : Thrown) : bool :=
  match error with
  | ThrownGot e =>
      match response e with
      | Some r => statusCode r =? 404
      | None => false
      end
  | _ => false
  end.

(** The loader passed to [fetchCache.get]. *)
Definition loader (name0 : string) (cfg : SourceUrl) : Run Metadata :=
  let name := encodeName name0 in
  let sentRequests := map (fun s => requestOf (urlOf name s)) (urlsOf cfg) in
  match promise name cfg with
  | Throws error =>
      mkRun sentRequests
            (if is404 error then [CacheOverride 404 None] else [])
            (Throws error)
  | Returns response =>
      match responseBody response with
      | None =>
          mkRun sentRequests []
                (Throws (Error ("Unable to retrieve versions for package "
                                  +:+ name +:+ ".")))
      | Some b =>
          match versionKeys b with
          | None =>
              mkRun sentRequests []
                    (Throws (Error
                               ("Unable to retrieve versions for package "
                                  +:+ name +:+ ".")))
          | Some keys =>
              mkRun sentRequests []
                    (match JsArray.sort Semver.rcompare keys with
                     | Returns sorted =>
                         Returns (mkMetadata (tagsOf b) sorted)
                     | Throws e => Throws e
                     end)
          end
      end
  end.

(** [fetchNpmMetadata(name, maxAge)] on the cache [st] at the instant
    [now]. *)
Definition fetchNpmMetadata
           (st : gmap string (SharedCache.Entry Metadata)) (now : Z)
           (cfg : SourceUrl) (name : string) (maxAge : Z)
  : SharedCache.GetResult Metadata :=
  SharedCache.get st now ("npm/" +:+ name) (loader name cfg) maxAge.
End Loader.

(** An example network: the first registry answers 500 at the instant
    2, every other registry answers 404 at the instant 1. *)
Definition exampleGot (url : string) : Settled Response :=
  if String.eqb url "https://registry.npmjs.org/left-pad"
  then mkSettled 2 (Throws (mkGotError
                              HTTPError
                              (Some (mkGotResponse 500 "Internal Server Error"))))
  else mkSettled 1 (Throws (mkGotError
                              HTTPError
                              (Some (mkGotResponse 404 "Not found")))).

Definition exampleConfig : SourceUrl :=
  ManyUrls "https://registry.npmjs.org" ["https://registry.npmjs.cf"].

(** An example answer: three versions and the tag [latest]. *)
Definition exampleBody : RegistryBody :=
  mkRegistryBody (Some {[ "latest" := "1.3.0" ]})
                 (Some ["1.0.0"; "1.3.0"; "1.3.0-rc.1"]).

Definition exampleSuccess (url : string) : Settled Response :=
  mkSettled 1 (Returns (mkResponse (Some exampleBody))).

End Npm.

(** ** [PackageRequest.fetchFiles] *)

Module Files.

(** The value the loader resolves with: the picked properties of the
    listing (with their JSON text), or [{ status, message }]. *)
Inductive FetchResult : Type :=
| Listing (properties : list (string * string))
| Refused (status : Z) (message : string).

(** What one attempt tells [promise-retry]: it settled, or it asked for
    another attempt with [retry(error)]. *)
Inductive Attempt : Type :=
| Settles (c : Completion Thrown FetchResult)
| Retry (error : GotError).

(** The function given to [promiseRetry], applied to the way the [got]
    request of this attempt settles: the [then] callback picks [default]
    and [files]; the [catch] callback turns an [HTTPError] with status
    403 into a value, asks for a retry on a [ParseError], and throws
    anything else again. *)
Definition attempt (settlement : Completion GotError (list (string * string)))
  : Attempt :=
  match settlement with
  | Returns body => Settles (Returns (Listing (Lodash.pick body ["default"; "files"])))
  | Throws error =>
      match errorClass error, response error with
      | HTTPError, Some r =>
          if statusCode r =? 403
          then Settles (Returns (Refused (statusCode r) (body r)))
          else Settles (Throws (ThrownGot error))
      | ParseError, _ => Retry error
      | _, _ => Settles (Throws (ThrownGot error))
      end
  end.

Section FetchFiles.
(** The network: how the [n]-th request to a URL settles. *)
Variable got : string → nat → Completion GotError (list (string * string)).
Variable encodeURIComponent : string → string.

(** [promiseRetry(fn, { retries })]: attempt number [number] is made;
    when it asks for a retry and retries are left the next attempt is
    made, otherwise the promise is rejected with the error given to
    [retry]. *)
Fixpoint promiseRetry (url : string) (retries : nat) (number : nat)
  : list Request * Completion Thrown FetchResult :=
  let request := GotRequest url true 30000 in
  match attempt (got url number) with
  | Settles c => ([request], c)
  | Retry error =>
      match retries with
      | O => ([request], Throws (ThrownGot error))
      | S retries' =>
          let '(reqs, c) := promiseRetry url retries' (S number) in
          (request :: reqs, c)
      end
  end.

(** The URL of the listing. *)
Definition filesUrl (sourceUrl type name version : string) : string :=
  sourceUrl +:+ "/" +:+ type +:+ "/" +:+ name +:+ "@"
    +:+ encodeURIComponent version +:+ "/+private-json".

(** The loader passed to [fetchCache.get]. *)
Definition loader (url : string) : Run FetchResult :=
  let '(reqs, c) := promiseRetry url 2 1 in
  mkRun reqs [] c.

(** [fetchFiles()] on the cache [st] at the instant [now];
    [defaultMaxAge] is the age the cache uses when [get] is given
    none. *)
Definition fetchFiles
           (st : gmap string (SharedCache.Entry FetchResult)) (now : Z)
           (sourceUrl type name version : string) (defaultMaxAge : Z)
  : SharedCache.GetResult FetchResult :=
  let url := filesUrl sourceUrl type name version in
  SharedCache.get st now url (loader url) defaultMaxAge.
End FetchFiles.

(** An example network: the listing endpoint answers 404. *)
Definition exampleNotFound (url : string) (number : nat)
  : Completion GotError (list (string * string)) :=
  Throws (mkGotError HTTPError (Some (mkGotResponse 404 "Not found"))).

(** An example network: the listing endpoint answers 403. *)
Definition exampleForbidden (url : string) (number : nat)
  : Completion GotError (list (string * string)) :=
  Throws (mkGotError HTTPError
                     (Some (mkGotResponse 403 "Package size exceeded"))).

End Files.

(** ** [PackageRequest.getFiles]

    The flat listing of a package is turned into a tree.  The directory
    objects of the source are shared between the object [dirs] and the
    [files] array of their parent; the model keeps them in [dirs] and puts
    a reference, [DirectoryItem key], into the array. *)

Module FileTree.

(** An entry of the flat listing. *)
Record FileEntry : Type := mkFileEntry {
  name : string;
  hash : string;
  time : string;
  size : Z
}.

(** An element of a [files] array of the tree: a file object, or the
    directory object [dirs[key]]. *)
Inductive Item : Type :=
| FileItem (name hash time : string) (size : Z)
| DirectoryItem (key : string).

(** A directory object [{ type: 'directory', name, files }]. *)
Record Directory : Type := mkDirectory {
  dirName : string;
  files : list Item
}.

(** The two variables the closure [fn] writes to. *)
Record Builder : Type := mkBuilder {
  tree : list Item;
  dirs : gmap string Directory
}.

(** The parsed listing: [default] and [files]; [None] stands for a
    property that is missing or falsy. *)
Record Listing : Type := mkListing {
  defaultFile : option string;
  listed : option (list FileEntry)
}.

(** What [getFiles] returns: the parsed listing as it is, or
    [{ default, files: tree }]. *)
Inductive Output : Type :=
| Unchanged (l : Listing)
| Nested (defaultFile : option string) (b : Builder).

(** [item.type === 'file'] *)
Definition isFile (i : Item) : bool :=
  match i with
  | FileItem _ _ _ _ => true
  | DirectoryItem _ => false
  end.

(** [array.findIndex(p)]; [None] is [-1]. *)
Fixpoint findIndex {A} (p : A → bool) (l : list A) : option nat :=
  match l with
  | [] => None
  | x :: r => if p x then Some O else S <$> findIndex p r
  end.

(** [array.splice(i, 0, x)] *)
Definition splice {A} (i : nat) (x : A) (l : list A) : list A :=
  (take i l ++ x :: drop i l)%list.

(** [files.splice(firstFileIndex !== -1 ? firstFileIndex : 0, 0, d)] *)
Definition addDirectory (l : list Item) (d : Item) : list Item :=
  splice (default O (findIndex isFile l)) d l.

(** The array [files] that [fn] is given: [tree] ([None]) or the [files]
    of the directory [dirs[key]]. *)
Definition filesAt (b : Builder) (at_ : option string) : list Item :=
  match at_ with
  | None => tree b
  | Some key =>
      match dirs b !! key with
      | Some d => files d
      | None => []
      end
  end.

(** A change of the array [files] in place. *)
Definition update (b : Builder) (at_ : option string)
           (f : list Item → list Item) : Builder :=
  match at_ with
  | None => mkBuilder (f (tree b)) (dirs b)
  | Some key =>
      mkBuilder (tree b)
                (alter (fun d => mkDirectory (dirName d) (f (files d)))
                       key (dirs b))
  end.

(** [s.substr(1)] *)
Definition substr1 (s : string) : string :=
  match s with
  | String _ r => r
  | EmptyString => EmptyString
  end.

(** One call of [fn] reads [name = entry.name.substr(1)] and cuts it at
    [index = name.indexOf('/')]: the result is [name.substr(0, index)] with
    [entry.name.substr(index + 1)], the text from that slash on, or the
    whole [name] when there is no slash. *)
Fixpoint cut (name : string) : string * option string :=
  match name with
  | EmptyString => (EmptyString, None)
  | String c r =>
      if (c =? "/")%char then (EmptyString, Some name)
      else let '(a, b) := cut r in (String c a, b)
  end.

(** [s.split('/')] *)
Fixpoint split (s : string) : list string :=
  match s with
  | EmptyString => [EmptyString]
  | String c r =>
      if (c =? "/")%char then EmptyString :: split r
      else match split r with
           | w :: ws => String c w :: ws
           | [] => [String c EmptyString]
           end
  end.

(** [fn(entry, files, dir)].  The recursive call is on a shorter name;
    [fuel] bounds the number of calls, and the length of [entry.name] is
    enough of it.  A directory name creates the directory when [dirs] has
    no [dir + '/' + dirName] yet, placing it before the first file of
    [files], and [fn] goes on in it with the rest of the name; a name
    without slash is pushed as a file. *)
Fixpoint fn (fuel : nat) (b : Builder) (entry : FileEntry)
         (at_ : option string) (dir : string) : Builder :=
  match cut (substr1 (name entry)) with
  | (fileName, None) =>
      update b at_
             (fun l => (l ++ [FileItem fileName (hash entry) (time entry)
                                       (size entry)])%list)
  | (dirName, Some rest) =>
      match fuel with
      | O => b
      | S fuel' =>
          let absDirName := dir +:+ "/" +:+ dirName in
          let b' :=
            if bool_decide (is_Some (dirs b !! absDirName)) then b
            else update (mkBuilder (tree b)
                                   (<[absDirName := mkDirectory dirName []]>
                                      (dirs b)))
                        at_
                        (fun l => addDirectory l (DirectoryItem absDirName)) in
          fn fuel' b'
             (mkFileEntry rest (hash entry) (time entry) (size entry))
             (Some absDirName) absDirName
      end
  end.

(** [files.files.forEach(file => fn(file, tree))] from the empty [tree]
    and [dirs]. *)
Definition build (entries : list FileEntry) : Builder :=
  fold_left (fun b e => fn (String.length (name e)) b e None "/")
            entries (mkBuilder [] ∅).

(** The directory names and the file name that the calls of [fn] read off
    [entry.name], one per call. *)
Definition pathOf (e : FileEntry) : list string := split (substr1 (name e)).

(** The directory step of [fn]: [dirs[dir + '/' + dirName]] is created
    and placed in [files] unless it exists. *)
Definition enter (b : Builder) (at_ : option string) (dir dirName : string)
  : Builder :=
  let absDirName := dir +:+ "/" +:+ dirName in
  if bool_decide (is_Some (dirs b !! absDirName)) then b
  else update (mkBuilder (tree b)
                         (<[absDirName := mkDirectory dirName []]> (dirs b)))
              at_ (fun l => addDirectory l (DirectoryItem absDirName)).

(** The file step of [fn]: [files.push({ type: 'file', name, ... })]. *)
Definition push (b : Builder) (at_ : option string) (fileName : string)
           (e : FileEntry) : Builder :=
  update b at_
         (fun l => (l ++ [FileItem fileName (hash e) (time e) (size e)])%list).

(** The calls of [fn] for one entry, told by the names they read: every
    name but the last is a directory, the last is the file. *)
Fixpoint walk (b : Builder) (at_ : option string) (dir : string)
         (path : list string) (e : FileEntry) : Builder :=
  match path with
  | [] => b
  | [fileName] => push b at_ fileName e
  | dirName :: rest =>
      let absDirName := dir +:+ "/" +:+ dirName in
      walk (enter b at_ dir dirName) (Some absDirName) absDirName rest e
  end.

(** [getFiles()] on the parsed listing; [flat] is
    [this.ctx.params.structure === 'flat']. *)
Definition getFiles (flat : bool) (l : Listing) : Output :=
  match listed l with
  | None => Unchanged l
  | Some entries =>
      if flat then Unchanged l else Nested (defaultFile l) (build entries)
  end.

(** The key of the directory reached by the names [ds] from the root, and
    the array in which its entries are. *)
Definition keyOf (ds : list string) : string :=
  fold_left (fun dir d => dir +:+ "/" +:+ d) ds "/".

Definition arrayOf (ds : list string) : option string :=
  match ds with
  | [] => None
  | _ => Some (keyOf ds)
  end.

(** In an array the directories come first. *)
Definition directoriesFirst (l : list Item) : Prop :=
  ∃ ds fs, l = (ds ++ fs)%list ∧ forallb isFile fs = true
           ∧ forallb (fun i => negb (isFile i)) ds = true.

(** A name without a slash. *)
Fixpoint slashFree (s : string) : bool :=
  match s with
  | EmptyString => true
  | String c r => negb (c =? "/")%char && slashFree r
  end.

(** The array that belongs to the directory key [dir]: [tree] for the
    root ["/"]. *)
Definition atOf (dir : string) : option string :=
  if String.eqb dir "/" then None else Some dir.

(** The directories named along [ds] exist: each is registered in [dirs]
    under its key, with its name, and is an element of the array of its
    parent. *)
Definition chain (b : Builder) (ds : list string) : Prop :=
  ∀ p d q, ds = (p ++ d :: q)%list →
    In (DirectoryItem (keyOf (p ++ [d]))) (filesAt b (arrayOf p))
    ∧ ∃ dd, dirs b !! keyOf (p ++ [d]) = Some dd ∧ dirName dd = d.

(** Every directory of [dirs] has a name without slash, a key made of the
    key of its parent and its name, and is an element of the array of its
    parent. *)
Definition registered (b : Builder) : Prop :=
  ∀ k dd, dirs b !! k = Some dd →
    slashFree (dirName dd) = true
    ∧ ∃ dir, dir ≠ EmptyString ∧ k = dir +:+ "/" +:+ dirName dd
             ∧ In (DirectoryItem k) (filesAt b (atOf dir)).

(** The array named by [at_] exists. *)
Definition present (b : Builder) (at_ : option string) : Prop :=
  match at_ with
  | None => True
  | Some key => is_Some (dirs b !! key)
  end.

(** In every array the directories come first. *)
Definition ordered (b : Builder) : Prop :=
  ∀ at_, directoriesFirst (filesAt b at_).

(** The directories of [b'] are directories of [b], with their names. *)
Definition sameDirs (b b' : Builder) : Prop :=
  ∀ k dd', dirs b' !! k = Some dd' →
    ∃ dd, dirs b !! k = Some dd ∧ dirName dd = dirName dd'.

(** The keys of the directories of an array, in order. *)
Definition directoryKeys (l : list Item) : list string :=
  flat_map (fun i => match i with
                     | DirectoryItem k => [k]
                     | FileItem _ _ _ _ => []
                     end) l.

(** Every directory of an array is in [dirs], and is in the array
    once. *)
Definition linked (b : Builder) : Prop :=
  ∀ at_, List.NoDup (directoryKeys (filesAt b at_))
         ∧ ∀ k, In (DirectoryItem k) (filesAt b at_) → is_Some (dirs b !! k).

(** The names before the last of the path of an entry, its last name,
    and the file object that [fn] pushes for it. *)
Definition directoryOf (e : FileEntry) : list string :=
  List.removelast (pathOf e).

Definition fileNameOf (e : FileEntry) : string :=
  List.last (pathOf e) EmptyString.

Definition fileOf (e : FileEntry) : Item :=
  FileItem (fileNameOf e) (hash e) (time e) (size e).

(** The files of an array, in order. *)
Definition filesOf (l : list Item) : list Item := List.filter isFile l.

(** [b'] has everything [b] has. *)
Definition grows (b b' : Builder) : Prop :=
  (∀ at_ i, In i (filesAt b at_) → In i (filesAt b' at_))
  ∧ (∀ k dd, dirs b !! k = Some dd →
             ∃ dd', dirs b' !! k = Some dd' ∧ dirName dd' = dirName dd).

End FileTree.

(** ** The request handlers of [PackageRequest] *)

Module Handlers.

(** The values of [v1Config] that the handlers read: the lifetimes, and
    the [maxAge] of the two package types. *)
Record Config : Type := mkConfig {
  maxAgeShort : Z;
  maxStaleShort : Z;
  maxStaleErrorShort : Z;
  maxAgeStatic : Z;
  maxStaleStatic : Z;
  npmMaxAge : Z;
  ghMaxAge : Z
}.

(** What the handlers depend on besides the request: the configuration,
    the network ([got] for the registries, [paginate] for the tags of a
    repository), and the packages that are dependencies and not part of
    the repository ([v-compare], [is-semver-static], [is-hexdigest] with
    the algorithm [sha1]; the argument of the last two is
    [this.params.version], which may be [undefined]).  [gotCode] and
    [octokitCode] give the property [code] of the errors of the two
    clients. *)
Record Env : Type := mkEnv {
  config : Config;
  sourceUrl : Npm.SourceUrl;
  encodeURIComponent : string → string;
  got : string → Settled Npm.Response;
  rCompare : string → string → Z;
  paginate : string → string → Completion OctokitError (list GitHub.Tag);
  isSemverStatic : option string → bool;
  isSha1 : option string → bool;
  gotCode : GotError → option string;
  octokitCode : OctokitError → option string
}.

(** [this.params].  [version] is [None] when the route has no version:
    the property is then [undefined].  [user] and [repo] are read for
    the type [gh] only, whose routes have them. *)
Record Params : Type := mkParams {
  type : string;
  name : string;
  user : string;
  repo : string;
  version : option string
}.

(** [this.params.version] in a template literal. *)
Definition versionText (p : Params) : string :=
  default "undefined" (version p).

(** [this.params.version] is truthy. *)
Definition hasVersion (p : Params) : bool :=
  match version p with
  | Some v => negb (String.eqb v "")
  | None => false
  end.

(** [metadata.versions.includes(this.params.version)] *)
Definition listed (p : Params) (versions : list string) : bool :=
  match version p with
  | Some v => JsArray.includes v versions
  | None => false
  end.

(** [error.response && error.response.statusCode] *)
Definition responseStatusCode (error : Thrown) : option Z :=
  match error with
  | ThrownGot e => statusCode <$> response e
  | ThrownOctokit e => ghResponse e
  | ThrownResponse sc => Some sc
  | TypeError _ => None
  | Error _ => None
  end.

(** [error instanceof got.TimeoutError] *)
Definition isTimeoutError (error : Thrown) : bool :=
  match error with
  | ThrownGot e =>
      match errorClass e with
      | TimeoutError => true
      | _ => false
      end
  | _ => false
  end.

(** [error.code]: the errors made by the code itself and the negative
    results of the cache have none. *)
Definition code (env : Env) (error : Thrown) : option string :=
  match error with
  | ThrownGot e => gotCode env e
  | ThrownOctokit e => octokitCode env e
  | _ => None
  end.

(** [error.code === 'ETIMEDOUT'] *)
Definition timedOut (env : Env) (error : Thrown) : bool :=
  bool_decide (code env error = Some "ETIMEDOUT").

(** [value] is truthy. *)
Definition isTruthy (value : JsValue) : bool :=
  match value with
  | JsString s => negb (String.eqb s "")
  | JsNumber n => negb (n =? 0)
  | JsNull => false
  | JsUndefined => false
  end.

Section Bodies.
(** The value [getFiles] resolves with, and the engine that sorts. *)
Context {FilesValue : Type}.
Context {engine : JsArray.SortEngine}.

(** What a handler assigns to [this.ctx.body]. *)
Inductive Body : Type :=
| VersionBody (version : JsValue)
| MetadataBody (metadata : Metadata)
| FilesBody (files : FilesValue)
| StatusBody (status : Z) (message : string).

(** The properties of [this.ctx] that the handlers assign; [None] is a
    property that was not assigned. *)
Record Ctx : Type := mkCtx {
  body : option Body;
  status : option Z;
  maxAge : option Z;
  maxStale : option Z;
  maxStaleError : option Z
}.

Definition setBody (b : Body) (ctx : Ctx) : Ctx :=
  mkCtx (Some b) (status ctx) (maxAge ctx) (maxStale ctx) (maxStaleError ctx).

Definition setStatus (s : Z) (ctx : Ctx) : Ctx :=
  mkCtx (body ctx) (Some s) (maxAge ctx) (maxStale ctx) (maxStaleError ctx).

Definition setMaxAge (a : Z) (ctx : Ctx) : Ctx :=
  mkCtx (body ctx) (status ctx) (Some a) (maxStale ctx) (maxStaleError ctx).

Definition setMaxStale (a : Z) (ctx : Ctx) : Ctx :=
  mkCtx (body ctx) (status ctx) (maxAge ctx) (Some a) (maxStaleError ctx).

Definition setMaxStaleError (a : Z) (ctx : Ctx) : Ctx :=
  mkCtx (body ctx) (status ctx) (maxAge ctx) (maxStale ctx) (Some a).

(** The [message] of [responseFromRemoteError]. *)
Definition remoteMessage (p : Params) : string :=
  if hasVersion p
  then "Couldn't find " +:+ name p +:+ "@" +:+ versionText p +:+ "."
  else "Couldn't fetch versions for " +:+ name p +:+ ".".

(** [responseFromRemoteError(error)] *)
Definition responseFromRemoteError (env : Env) (p : Params) (error : Thrown)
           (ctx : Ctx) : Ctx :=
  setBody
    (StatusBody
       (if bool_decide (responseStatusCode error = Some 404) then 404
        else if isTimeoutError error || timedOut env error then 504
             else 502)
       (remoteMessage p))
    ctx.

(** [fetchMetadata()] on the cache [st] at the instant [now]; the
    function is [async], so that the [throw] for an unknown type is a
    rejection. *)
Definition fetchMetadata (env : Env)
           (st : gmap string (SharedCache.Entry Metadata)) (now : Z)
           (p : Params) : SharedCache.GetResult Metadata :=
  if String.eqb (type p) "npm"
  then Npm.fetchNpmMetadata (encodeURIComponent env) (got env) st now
                            (sourceUrl env) (name p) (npmMaxAge (config env))
  else if String.eqb (type p) "gh"
       then GitHub.fetchGitHubMetadata (rCompare env) st now (user p) (repo p)
                                       (ghMaxAge (config env))
                                       (paginate env (user p) (repo p))
       else SharedCache.mkGetResult
              st
              (Throws (Error ("Unknown package type " +:+ type p +:+ ".")))
              [] false.

(** [getMetadata()] *)
Definition getMetadata := fetchMetadata.

(** [getResolvedVersion()]: the callback applied to the metadata. *)
Definition getResolvedVersion (metadata : Completion Thrown Metadata)
           (p : Params) : Completion Thrown JsValue :=
  match metadata with
  | Returns m =>
      match version p with
      | Some v => PackageRequest.getResolvedVersion m v
      | None => PackageRequest.getResolvedVersionUndefined m
      end
  | Throws e => Throws e
  end.

(** [handleResolveVersion()]: the new [ctx], and what the lookup of the
    metadata did. *)
Definition handleResolveVersion (env : Env)
           (st : gmap string (SharedCache.Entry Metadata)) (now : Z)
           (p : Params) (ctx : Ctx)
  : Ctx * SharedCache.GetResult Metadata :=
  let r := getMetadata env st now p in
  (match getResolvedVersion (SharedCache.result r) p with
   | Returns v =>
       let ctx1 :=
         setMaxStaleError
           (maxStaleErrorShort (config env))
           (setMaxStale (maxStaleShort (config env))
                        (setMaxAge (maxAgeShort (config env))
                                   (setBody (VersionBody v) ctx))) in
       if isTruthy v && isSemverStatic env (version p)
       then setMaxStaleError
              (maxStaleStatic (config env))
              (setMaxStale (maxStaleStatic (config env))
                           (setMaxAge (24 * 60 * 60) ctx1))
       else ctx1
   | Throws e => responseFromRemoteError env p e ctx
   end, r).

(** [handleVersions()] *)
Definition handleVersions (env : Env)
           (st : gmap string (SharedCache.Entry Metadata)) (now : Z)
           (p : Params) (ctx : Ctx)
  : Ctx * SharedCache.GetResult Metadata :=
  let r := getMetadata env st now p in
  (match SharedCache.result r with
   | Returns metadata =>
       setMaxStaleError
         (maxStaleErrorShort (config env))
         (setMaxStale (maxStaleShort (config env))
                      (setMaxAge (maxAgeShort (config env))
                                 (setBody (MetadataBody metadata) ctx)))
   | Throws e => responseFromRemoteError env p e ctx
   end, r).

(** The message of [handleVersionFiles] for a version that is not
    listed. *)
Definition unlistedMessage (p : Params) : string :=
  "Couldn't find version " +:+ versionText p +:+ " for " +:+ name p
    +:+ ". Make sure you use a specific version number,"
    +:+ " and not a version range or an npm tag.".

(** The second [try] of [handleVersionFiles]; [files] is the way the
    promise of [getFiles], which reads the listings kept in the
    database, settles. *)
Definition listFiles (env : Env) (files : Completion Thrown FilesValue)
           (ctx : Ctx) : Completion Thrown Ctx :=
  match files with
  | Returns value =>
      Returns (setMaxStale (maxStaleStatic (config env))
                           (setMaxAge (maxAgeStatic (config env))
                                      (setBody (FilesBody value) ctx)))
  | Throws error =>
      match error with
      | ThrownGot e =>
          match errorClass e with
          | RequestError | TimeoutError =>
              Returns (setStatus (if timedOut env error then 504 else 502)
                                 ctx)
          | HTTPError =>
              match response e with
              | Some (mkGotResponse sc message) =>
                  Returns (setBody (StatusBody (if sc =? 0 then 502 else sc)
                                               message)
                                   ctx)
              | None =>
                  Throws (TypeError
                            "Cannot read property 'statusCode' of undefined")
              end
          | ParseError => Throws error
          end
      | _ => Throws error
      end
  end.

(** [handleVersionFiles()]: the new [ctx] or what the handler throws,
    and what the lookup of the metadata did when there was one. *)
Definition handleVersionFiles (env : Env)
           (st : gmap string (SharedCache.Entry Metadata)) (now : Z)
           (p : Params) (files : Completion Thrown FilesValue) (ctx : Ctx)
  : Completion Thrown Ctx * option (SharedCache.GetResult Metadata) :=
  if negb (String.eqb (type p) "gh") || negb (isSha1 env (version p))
  then
    let r := getMetadata env st now p in
    (match SharedCache.result r with
     | Throws e => Returns (responseFromRemoteError env p e ctx)
     | Returns metadata =>
         if listed p (versions metadata)
         then listFiles env files ctx
         else Returns (setBody (StatusBody 404 (unlistedMessage p)) ctx)
     end, Some r)
  else (listFiles env files ctx, None).
End Bodies.
Arguments Body FilesValue : clear implicits.
Arguments Ctx FilesValue : clear implicits.

(** An example configuration and environment: the registries of
    [Npm.exampleConfig], names that need no encoding, no error codes. *)
Definition exampleLifetimes : Config :=
  mkConfig 300 600 86400 31536000 31536000 300 600.

Definition exampleEnv
           (got : string → Settled Npm.Response)
           (paginate : string → string
                       → Completion OctokitError (list GitHub.Tag))
  : Env :=
  mkEnv exampleLifetimes Npm.exampleConfig (fun s => s) got Semver.rcompareZ
        paginate
        (fun v => match v with Some s => Semver.valid s | None => false end)
        (fun _ => false) (fun _ => None) (fun _ => None).

(** GitHub does not know the repository; GitHub refuses because of the
    rate limit; GitHub lists two tags. *)
Definition exampleUnknown (user repo : string)
  : Completion OctokitError (list GitHub.Tag) :=
  Throws (mkOctokitError 404 false None).

Definition exampleLimited (user repo : string)
  : Completion OctokitError (list GitHub.Tag) :=
  Throws (mkOctokitError 403 false None).

Definition exampleTags (user repo : string)
  : Completion OctokitError (list GitHub.Tag) :=
  Returns [GitHub.mkTag "v3.7.1" "a"; GitHub.mkTag "3.7.0" "b"].

(** A registry whose answer has no [dist-tags], and a registry that
    does not answer in time. *)
Definition exampleUntagged (url : string) : Settled Npm.Response :=
  mkSettled 1 (Returns (Npm.mkResponse
                          (Some (Npm.mkRegistryBody None (Some ["1.0.0"]))))).

Definition exampleSlow (url : string) : Settled Npm.Response :=
  mkSettled 30 (Throws (mkGotError TimeoutError None)).

(** A registry whose answer has a key that is no version, and one whose
    answer has a single such key. *)
Definition exampleMixed (url : string) : Settled Npm.Response :=
  mkSettled 1 (Returns (Npm.mkResponse
                          (Some (Npm.mkRegistryBody
                                   None (Some ["1.0.0"; "next"]))))).

Definition exampleSingle (url : string) : Settled Npm.Response :=
  mkSettled 1 (Returns (Npm.mkResponse
                          (Some (Npm.mkRegistryBody None (Some ["next"]))))).

(** A registry whose answer has a key with a number above
    [MAX_SAFE_INTEGER], and one whose answer has two pre-releases with
    numeric identifiers above it, the one of lower precedence first. *)
Definition exampleOverflow (url : string) : Settled Npm.Response :=
  mkSettled 1 (Returns (Npm.mkResponse
                          (Some (Npm.mkRegistryBody
                                   None
                                   (Some ["1.0.0";
                                          "9007199254740992.0.0"]))))).

Definition exampleLarge (url : string) : Settled Npm.Response :=
  mkSettled 1 (Returns (Npm.mkResponse
                          (Some (Npm.mkRegistryBody
                                   None
                                   (Some ["1.0.0-9007199254740992.b";
                                          "1.0.0-9007199254740993.a"]))))).

(** A listing endpoint whose answers cannot be parsed. *)
Definition exampleUnparsable (url : string) (number : nat)
  : Completion GotError (list (string * string)) :=
  Throws (mkGotError ParseError None).

(** Example requests, and a [ctx] to which nothing was assigned. *)
Definition exampleRepository : Params :=
  mkParams "gh" "jquery/jquery" "jquery" "jquery" None.

Definition examplePackage (version : option string) : Params :=
  mkParams "npm" "left-pad" "" "" version.

Definition exampleCtx : Ctx FileTree.Output :=
  mkCtx None None None None None.

(** An example listing: a file in a directory, and a file. *)
Definition exampleEntries : list FileTree.FileEntry :=
  [FileTree.mkFileEntry "/lib/a.js" "h1" "t1" 10;
   FileTree.mkFileEntry "/index.js" "h2" "t2" 20].

End Handlers.

(** * Properties *)

(** ** The stable sort *)

Module JsArrayFacts.
Import JsArray.

Section Pure.
Context {A : Type}.
Variable f : A → A → Z.

Lemma insertZ_perm x l : Permutation (x :: l) (insertZ f x l).
Proof.
  induction l as [|y r IH]; simpl; [reflexivity|].
  destruct (f x y <=? 0); [reflexivity|].
  rewrite perm_swap. now apply perm_skip.
Qed.

Lemma sortZ_perm l : Permutation l (sortZ f l).
Proof.
  induction l as [|x r IH]; simpl; [constructor|].
  rewrite <- insertZ_perm. now apply perm_skip.
Qed.

Lemma sortZ_In x l : In x (sortZ f l) ↔ In x l.
Proof.
  split; apply Permutation_in;
    [symmetry|]; apply sortZ_perm.
Qed.

Lemma insertZ_front x l :
  Forall (before f x) l → insertZ f x l = x :: l.
Proof.
  intros H. destruct l as [|y r]; [reflexivity|].
  simpl. inversion_clear H as [|? ? Hy _].
  unfold before in Hy. apply Z.leb_le in Hy. now rewrite Hy.
Qed.

Hypothesis f_total : ∀ a b, 0 < f a b → f b a <= 0.
Hypothesis f_trans : ∀ a b c, f a b <= 0 → f b c <= 0 → f a c <= 0.

Lemma before_all x y l :
  before f x y → Forall (before f y) l → Forall (before f x) l.
Proof.
  intros Hxy. rewrite !List.Forall_forall. intros H z Hz.
  exact (f_trans _ _ _ Hxy (H z Hz)).
Qed.

Lemma insertZ_sorted x l :
  StronglySorted (before f) l → StronglySorted (before f) (insertZ f x l).
Proof.
  induction 1 as [|y r Hr IH Hy]; simpl.
  - repeat constructor.
  - destruct (f x y <=? 0) eqn:E.
    + apply Z.leb_le in E. constructor.
      * now constructor.
      * constructor; [exact E|]. now apply before_all with y.
    + apply Z.leb_gt in E. constructor; [exact IH|].
      apply (Permutation_Forall (insertZ_perm x r)).
      constructor; [|exact Hy]. apply f_total. lia.
Qed.

Lemma sortZ_sorted l : StronglySorted (before f) (sortZ f l).
Proof.
  induction l; simpl; [constructor|]. now apply insertZ_sorted.
Qed.




(** The head of the sorted array comes before every element. *)
Lemma sortZ_head x rest l :
  sortZ f l = x :: rest → In x l ∧ ∀ y, In y l → y = x ∨ before f x y.
Proof.
  intros E. split.
  - apply sortZ_In. rewrite E. now left.
  - intros y Hy. apply sortZ_In in Hy. rewrite E in Hy.
    destruct Hy as [->|Hy]; [now left|right].
    pose proof (sortZ_sorted l) as S. rewrite E in S.
    inversion_clear S as [|? ? _ Hall].
    rewrite List.Forall_forall in Hall. now apply Hall.
Qed.
End Pure.

(** Two comparisons with the same signs on the elements of an array
    sort it alike. *)
Section Alike.
Context {A : Type}.
Variables f g : A → A → Z.

Lemma insertZ_ext x l :
  (∀ y, In y l → (f x y <=? 0) = (g x y <=? 0)) →
  insertZ f x l = insertZ g x l.
Proof.
  induction l as [|y r IH]; intros H; simpl; [reflexivity|].
  rewrite (H y) by now left. rewrite IH; [reflexivity|].
  intros z Hz. apply H. now right.
Qed.

Lemma sortZ_ext l :
  (∀ x y, In x l → In y l → (f x y <=? 0) = (g x y <=? 0)) →
  sortZ f l = sortZ g l.
Proof.
  induction l as [|x r IH]; intros H; simpl; [reflexivity|].
  rewrite IH by (intros; apply H; now right).
  apply insertZ_ext. intros y Hy. apply H; [now left|right].
  exact (proj1 (sortZ_In g y r) Hy).
Qed.
End Alike.

(** The insertion sort: a comparison that returns on the elements of the
    array makes it return what [sortZ] computes; what it throws was
    thrown by a comparison of two elements; what it returns is a
    permutation; and it compares every element. *)
Section Insertion.
Context {A : Type}.
Variable compareFn : A → A → Completion Thrown Z.
Variable f : A → A → Z.

Lemma insert_returns x l :
  Forall (agree compareFn f x) l → insert compareFn x l = Returns (insertZ f x l).
Proof.
  induction 1 as [|y r (c & Hc & Hs) _ IH]; simpl; [reflexivity|].
  rewrite Hc, Hs. destruct (f x y <=? 0); [reflexivity|].
  now rewrite IH.
Qed.

Lemma insertionSort_agree l :
  (∀ x y, In x l → In y l → agree compareFn f x y) →
  insertionSort compareFn l = Returns (sortZ f l).
Proof.
  induction l as [|x r IH]; intros H; simpl; [reflexivity|].
  rewrite IH by (intros; apply H; now right).
  apply insert_returns. rewrite List.Forall_forall. intros y Hy.
  apply H; [now left|right]. now apply sortZ_In in Hy.
Qed.

Lemma insertionSort_consistent l :
  consistent compareFn f l → insertionSort compareFn l = Returns (sortZ f l).
Proof.
  intros (H & _). apply insertionSort_agree. intros x y Hx Hy.
  exists (f x y). split; [now apply H|reflexivity].
Qed.

Lemma insertionSort_short l :
  (length l < 2)%nat → insertionSort compareFn l = Returns l.
Proof.
  destruct l as [|x [|y r]]; simpl; [reflexivity|reflexivity|lia].
Qed.

Lemma insert_perm x l r :
  insert compareFn x l = Returns r → Permutation (x :: l) r.
Proof.
  revert r. induction l as [|y l IH]; intros r; simpl.
  - intros [= <-]. reflexivity.
  - destruct (compareFn x y) as [c|e]; [|discriminate].
    destruct (c <=? 0); [intros [= <-]; reflexivity|].
    destruct (insert compareFn x l) as [r'|e]; [|discriminate].
    intros [= <-]. rewrite perm_swap. apply perm_skip. now apply IH.
Qed.

Lemma insertionSort_cons x l :
  insertionSort compareFn (x :: l)
  = match insertionSort compareFn l with
    | Returns r => insert compareFn x r
    | Throws e => Throws e
    end.
Proof. reflexivity. Qed.

Lemma insertionSort_perm l r :
  insertionSort compareFn l = Returns r → Permutation l r.
Proof.
  revert r. induction l as [|x l IH]; intros r; simpl.
  - intros [= <-]. constructor.
  - destruct (insertionSort compareFn l) as [r'|e]; [|discriminate].
    intros E. rewrite <- (insert_perm _ _ _ E). apply perm_skip. now apply IH.
Qed.

Lemma insert_throws x l e :
  insert compareFn x l = Throws e → ∃ y, In y l ∧ compareFn x y = Throws e.
Proof.
  induction l as [|y l IH]; simpl; [discriminate|].
  destruct (compareFn x y) as [c|e'] eqn:E.
  - destruct (c <=? 0); [discriminate|].
    destruct (insert compareFn x l) as [r'|e']; [discriminate|].
    intros [= ->]. destruct (IH eq_refl) as (z & Hz & Ez).
    exists z. split; [now right|exact Ez].
  - intros [= ->]. exists y. split; [now left|exact E].
Qed.

Lemma insertionSort_throws l e :
  insertionSort compareFn l = Throws e →
  ∃ x y, In x l ∧ In y l ∧ compareFn x y = Throws e.
Proof.
  induction l as [|x l IH]; simpl; [discriminate|].
  destruct (insertionSort compareFn l) as [r|e'] eqn:E.
  - intros H. destruct (insert_throws _ _ _ H) as (y & Hy & Ey).
    exists x, y. split; [now left|]. split; [right|exact Ey].
    now apply (Permutation_in _ (Permutation_sym (insertionSort_perm _ _ E))).
  - intros [= ->]. destruct (IH eq_refl) as (a & b & Ha & Hb & Eab).
    exists a, b. repeat split; auto.
Qed.

Lemma insertionSort_reads l x :
  (2 ≤ length l)%nat → In x l → unreadable compareFn x l →
  ∃ e, insertionSort compareFn l = Throws e.
Proof.
  induction l as [|a r IH]; intros Hl Hx Hu; [destruct Hx|].
  rewrite insertionSort_cons.
  destruct (insertionSort compareFn r) as [r'|e] eqn:E; [|now exists e].
  pose proof (insertionSort_perm _ _ E) as P.
  destruct r as [|b r0]; [simpl in Hl; lia|].
  destruct r' as [|y r1]; [now apply Permutation_sym, Permutation_nil in P|].
  assert (Hy : In y (b :: r0)).
  { apply (Permutation_in _ (Permutation_sym P)). now left. }
  destruct r0 as [|b0 r2].
  - (* one element after [a] *)
    apply Permutation_length in P. destruct r1; [|discriminate P].
    destruct Hy as [<-|[]].
    destruct Hx as [<-|[<-|[]]].
    + destruct (Hu b) as [[e He] _]; [right; now left|].
      exists e. simpl. now rewrite He.
    + destruct (Hu a) as [_ [e He]]; [now left|].
      exists e. simpl. now rewrite He.
  - destruct Hx as [<-|Hx].
    + destruct (Hu y) as [[e He] _]; [now right|].
      exists e. simpl. now rewrite He.
    + destruct IH as [e He]; [simpl; lia|exact Hx| |congruence].
      intros z Hz. apply Hu. now right.
Qed.
End Insertion.

(** The insertion sort is an engine. *)
Lemma insertionEngine : SortEngine.
Proof.
  refine (mkSortEngine (@insertionSort) _ _ _ _ _).
  - exact (@insertionSort_short).
  - intros A compareFn compareZ l. apply insertionSort_consistent.
  - exact (@insertionSort_throws).
  - exact (@insertionSort_perm).
  - exact (@insertionSort_reads).
Defined.
#[global] Existing Instance insertionEngine.

End JsArrayFacts.

(** ** [_.uniq] *)

Module LodashFacts.
Import JsArray Lodash JsArrayFacts.

Lemma includes_In x l : includes x l = true ↔ In x l.
Proof.
  unfold includes. rewrite existsb_exists. split.
  - intros (y & Hy & E). apply String.eqb_eq in E. now subst.
  - intros H. exists x. split; [exact H|apply String.eqb_refl].
Qed.

Lemma includes_false x l : includes x l = false ↔ ¬ In x l.
Proof.
  rewrite <- includes_In. destruct (includes x l); intuition congruence.
Qed.

Lemma filter_ext_In' {A} (p q : A → bool) l :
  (∀ x, In x l → p x = q x) → List.filter p l = List.filter q l.
Proof.
  induction l as [|x r IH]; intros H; simpl; [reflexivity|].
  rewrite (H x) by now left. rewrite IH; [reflexivity|].
  intros; apply H; now right.
Qed.

Lemma filter_filter {A} (p q : A → bool) l :
  List.filter p (List.filter q l) = List.filter (fun x => q x && p x) l.
Proof.
  induction l as [|x r IH]; simpl; [reflexivity|].
  destruct (q x); simpl; [destruct (p x)|]; now rewrite IH.
Qed.

(** [baseUniq] with values already seen is [uniq] without them. *)
Lemma baseUniq_filter seen l :
  baseUniq seen l
  = List.filter (fun y => negb (includes y seen)) (uniq l).
Proof.
  unfold uniq. revert seen.
  induction l as [|x r IH]; intros seen; simpl; [reflexivity|].
  rewrite (IH [x]). destruct (includes x seen) eqn:E; simpl.
  - rewrite IH, filter_filter. apply filter_ext_In'. intros y _.
    unfold includes at 2. simpl. rewrite orb_false_r.
    destruct (String.eqb_spec y x) as [->|]; simpl; [now rewrite E|].
    reflexivity.
  - rewrite IH, filter_filter. f_equal. apply filter_ext_In'. intros y _.
    unfold includes. simpl. rewrite orb_false_r.
    destruct (String.eqb y x); reflexivity.
Qed.

Lemma uniq_cons x l : uniq (x :: l) = x :: List.filter (differs x) (uniq l).
Proof.
  unfold uniq at 1. simpl. rewrite baseUniq_filter. f_equal.
  apply filter_ext_In'. intros y _. unfold includes, differs. simpl.
  now rewrite orb_false_r.
Qed.

Lemma differs_true x y : differs x y = true ↔ y ≠ x.
Proof.
  unfold differs. destruct (String.eqb_spec y x); simpl; intuition congruence.
Qed.

Lemma uniq_In x l : In x (uniq l) ↔ In x l.
Proof.
  induction l as [|y r IH]; [reflexivity|].
  rewrite uniq_cons. simpl. rewrite filter_In, IH, differs_true.
  destruct (string_dec y x); intuition congruence.
Qed.



Section Sorted.
Variable f : string → string → Z.
Hypothesis f_refl : ∀ a, f a a = 0.
Hypothesis f_total : ∀ a b, 0 < f a b → f b a <= 0.
Hypothesis f_trans : ∀ a b c, f a b <= 0 → f b c <= 0 → f a c <= 0.



End Sorted.

End LodashFacts.

(** ** Text *)

Module TextFacts.
Import Text.

Lemma identChar_solid c : isIdentChar c = true → solid c.
Proof.
  destruct c as [[] [] [] [] [] [] [] []]; vm_compute; congruence.
Qed.

Lemma digit_solid c : isDigit c = true → solid c.
Proof.
  destruct c as [[] [] [] [] [] [] [] []]; vm_compute; congruence.
Qed.

Lemma digit_identChar c : isDigit c = true → isIdentChar c = true.
Proof.
  unfold isIdentChar. now intros ->.
Qed.

Lemma dropSpaces_solid l : Forall solid l → dropSpaces l = l.
Proof.
  intros H. destruct H as [|c r Hc _]; [reflexivity|].
  simpl. unfold solid in Hc. now rewrite Hc.
Qed.

(** Trimming leaves a text without blanks as it is. *)
Lemma trim_solid l : Forall solid l → trim l = l.
Proof.
  intros H. unfold trim. rewrite (dropSpaces_solid l H).
  rewrite dropSpaces_solid; [apply rev_involutive|].
  apply List.Forall_forall. intros c Hc. apply in_rev in Hc.
  revert c Hc. now apply List.Forall_forall.
Qed.

Lemma splitOn_nonempty sep l : splitOn sep l ≠ [].
Proof.
  destruct l as [|c r]; simpl; [discriminate|].
  destruct (c =? sep)%char; [discriminate|].
  destruct (splitOn sep r); discriminate.
Qed.

(** A property of the separator and of the characters of every piece
    holds of all the characters of the text. *)
Lemma splitOn_Forall (P : ascii → Prop) sep l :
  P sep → Forall (Forall P) (splitOn sep l) → Forall P l.
Proof.
  intros Hsep. induction l as [|c r IH]; simpl; [constructor|].
  destruct (Ascii.eqb_spec c sep) as [->|_].
  - intros H. inversion_clear H. constructor; auto.
  - destruct (splitOn sep r) as [|w ws] eqn:E.
    + now destruct (splitOn_nonempty sep r).
    + intros H. inversion_clear H as [|? ? Hw Hws].
      inversion_clear Hw. constructor; [assumption|].
      apply IH. now constructor.
Qed.

Lemma breakOn_Forall (P : ascii → Prop) sep l a b :
  P sep → breakOn sep l = (a, b) →
  Forall P a → (∀ b', b = Some b' → Forall P b') → Forall P l.
Proof.
  intros Hsep. revert a. induction l as [|c r IH]; simpl; intros a E Ha Hb.
  - constructor.
  - destruct (Ascii.eqb_spec c sep) as [->|_].
    + injection E as <- <-. constructor; [assumption|]. now apply Hb.
    + destruct (breakOn sep r) as [a' b'] eqn:E'.
      injection E as <- <-. inversion_clear Ha.
      constructor; [assumption|]. now apply (IH a').
Qed.

Lemma forallb_Forall' {A} (p : A → bool) (P : A → Prop) l :
  (∀ x, p x = true → P x) → forallb p l = true → Forall P l.
Proof.
  intros H E. apply List.Forall_forall. intros x Hx. apply H.
  rewrite forallb_forall in E. now apply E.
Qed.

End TextFacts.

(** ** Versions *)

Module SemverFacts.
Import Text Semver TextFacts.

Lemma numericIdentifier_digits l n :
  numericIdentifier l = Some n → forallb isDigit l = true.
Proof.
  unfold numericIdentifier. destruct l as [|c r]; [discriminate|].
  destruct (forallb isDigit (c :: r)); [reflexivity|discriminate].
Qed.

Lemma prereleaseIdentifier_solid l i :
  prereleaseIdentifier l = Some i → Forall solid l.
Proof.
  unfold prereleaseIdentifier.
  destruct (forallb isDigit l) eqn:D.
  - intros _. now apply (forallb_Forall' isDigit solid l digit_solid).
  - destruct (forallb isIdentChar l) eqn:I; [|discriminate].
    intros _. now apply (forallb_Forall' isIdentChar solid l identChar_solid).
Qed.

Lemma buildIdentifier_solid l i :
  buildIdentifier l = Some i → Forall solid l.
Proof.
  unfold buildIdentifier. destruct l as [|c r]; [discriminate|].
  destruct (forallb isIdentChar (c :: r)) eqn:I; [|discriminate].
  intros _. now apply (forallb_Forall' isIdentChar solid _ identChar_solid).
Qed.

Lemma pieces_solid {A} (g : list ascii → option A) pieces r :
  (∀ l a, g l = Some a → Forall solid l) →
  sequence (map g pieces) = Some r → Forall (Forall solid) pieces.
Proof.
  intros Hg. revert r. induction pieces as [|l ls IH]; simpl; intros r E.
  - constructor.
  - destruct (g l) as [a|] eqn:G; [|discriminate].
    destruct (sequence (map g ls)) as [r'|] eqn:S; [|discriminate].
    constructor; [now apply (Hg l a)|now apply (IH r')].
Qed.

Lemma solid_chars :
  solid "."%char ∧ solid "-"%char ∧ solid "+"%char ∧ solid "v"%char.
Proof. now vm_compute. Qed.

Lemma qualifier_solid pre bld q :
  parseQualifier pre bld = Some q →
  (∀ p, pre = Some p → Forall solid p)
  ∧ (∀ b, bld = Some b → Forall solid b).
Proof.
  unfold parseQualifier. intros E. split.
  - intros p ->.
    destruct (sequence (map prereleaseIdentifier (splitOn "." p)))
      as [r|] eqn:S; [|discriminate].
    apply (splitOn_Forall solid "."); [apply solid_chars|].
    apply (pieces_solid _ _ _ prereleaseIdentifier_solid S).
  - intros b ->.
    destruct (match pre with
              | Some p => sequence (map prereleaseIdentifier (splitOn "." p))
              | None => Some []
              end); [|discriminate].
    destruct (sequence (map buildIdentifier (splitOn "." b)))
      as [r|] eqn:S; [|discriminate].
    apply (splitOn_Forall solid "."); [apply solid_chars|].
    apply (pieces_solid _ _ _ buildIdentifier_solid S).
Qed.

Lemma numbers_solid main a b c :
  map numericIdentifier (splitOn "." main) = [Some a; Some b; Some c] →
  Forall solid main.
Proof.
  intros E. apply (splitOn_Forall solid "."); [apply solid_chars|].
  apply (pieces_solid numericIdentifier _ [a; b; c]).
  - intros l n H. apply numericIdentifier_digits in H.
    now apply (forallb_Forall' isDigit solid l digit_solid).
  - now rewrite E.
Qed.

(** A text accepted as a version contains no blank. *)
Lemma matchFull_solid l sv : matchFull l = Some sv → Forall solid l.
Proof.
  unfold matchFull, cutVersion.
  set (l' := match l with
             | c :: r => if (c =? "v")%char then r else l
             | [] => l
             end).
  destruct (breakOn "+" l') as [front bld] eqn:E1.
  destruct (breakOn "-" front) as [main pre] eqn:E2.
  destruct (map numericIdentifier (splitOn "." main))
    as [|[x|] [|[y|] [|[z|] [|? ?]]]] eqn:M; try discriminate.
  destruct (parseQualifier pre bld) as [[p bl]|] eqn:Q; [|discriminate].
  intros _.
  destruct (qualifier_solid _ _ _ Q) as [Hpre Hbld].
  assert (Hfront : Forall solid front).
  { apply (breakOn_Forall solid "-" front main pre);
      [apply solid_chars|exact E2|now apply numbers_solid with x y z|exact Hpre]. }
  assert (Hl' : Forall solid l').
  { apply (breakOn_Forall solid "+" l' front bld);
      [apply solid_chars|exact E1|exact Hfront|exact Hbld]. }
  subst l'. destruct l as [|c r]; [constructor|].
  destruct (Ascii.eqb_spec c "v") as [->|_]; [|exact Hl'].
  constructor; [apply solid_chars|exact Hl'].
Qed.

(** The constructor returns the object that [construct] gives. *)
Lemma newSemVer_Some v sv : construct v = Some sv → newSemVer v = Returns sv.
Proof.
  unfold construct. destruct (newSemVer v); [now intros [= ->]|discriminate].
Qed.

Lemma newSemVer_None v :
  construct v = None → ∃ e, newSemVer v = Throws e.
Proof.
  unfold construct. destruct (newSemVer v) as [sv|e]; [discriminate|].
  intros _. now exists e.
Qed.

(** A text that [parse] accepts is accepted by the constructor, with the
    same fields, and has no blank. *)
Lemma parse_construct v sv : parse v = Some sv → construct v = Some sv.
Proof.
  unfold parse. case_bool_decide; [discriminate|].
  now destruct (matchFull (list_ascii_of_string v)).
Qed.

(** *** Precedence on exact integers is a total preorder *)

Lemma o_strict {A} (c : A → A → Z) (O : Order c) a b d :
  c a b <= 0 → c b d <= 0 → c a d = 0 → c a b = 0 ∧ c b d = 0.
Proof.
  intros Hab Hbd Had.
  assert (Hda : c d a <= 0) by (rewrite (o_anti c O a d); lia).
  pose proof (o_trans c O b d a Hbd Hda) as Hba.
  pose proof (o_trans c O d a b Hda Hab) as Hdb.
  rewrite (o_anti c O a b) in Hba. rewrite (o_anti c O b d) in Hdb. lia.
Qed.

Lemma lexStep_trans {A} (c : A → A → Z) (O : Order c) a b d (r1 r2 r3 : Z) :
  (r1 <= 0 → r2 <= 0 → r3 <= 0) →
  lexStep (c a b) r1 <= 0 → lexStep (c b d) r2 <= 0 →
  lexStep (c a d) r3 <= 0.
Proof.
  unfold lexStep. intros Hr.
  pose proof (o_trans c O a b d) as T.
  pose proof (o_strict c O a b d) as S.
  destruct (bool_decide_reflect (c a b = 0)),
           (bool_decide_reflect (c b d = 0)),
           (bool_decide_reflect (c a d = 0)); lia.
Qed.

Lemma lexStep_anti (k r : Z) : lexStep (- k) (- r) = - lexStep k r.
Proof. unfold lexStep. repeat case_bool_decide; lia. Qed.

Lemma compareN_order : Order compareN.
Proof.
  split; unfold compareN; intros;
    repeat match goal with
           | |- context [(?x <? ?y)%N] => destruct (N.ltb_spec x y)
           | H : context [(?x <? ?y)%N] |- _ => destruct (N.ltb_spec x y)
           end; lia.
Qed.

Lemma on_order {A B} (g : A → B) (c : B → B → Z) :
  Order c → Order (fun a b => c (g a) (g b)).
Proof.
  intros [R An T]. split; intros; auto. now apply T with (g b).
Qed.

Lemma lex_order {A} (c1 c2 : A → A → Z) :
  Order c1 → Order c2 → Order (fun a b => lexStep (c1 a b) (c2 a b)).
Proof.
  intros O1 O2. split.
  - intros a. unfold lexStep. rewrite (o_refl c1 O1), (o_refl c2 O2).
    now case_bool_decide.
  - intros a b. rewrite (o_anti c1 O1 a b), (o_anti c2 O2 a b).
    apply lexStep_anti.
  - intros a b d. apply (lexStep_trans c1 O1). apply (o_trans c2 O2).
Qed.

Lemma compareMain_order : Order compareMain.
Proof.
  apply (lex_order (fun a b => compareN (major a) (major b))
                   (fun a b => lexStep (compareN (minor a) (minor b))
                                       (compareN (patch a) (patch b)))).
  - apply on_order, compareN_order.
  - apply lex_order; apply on_order, compareN_order.
Qed.

(** Strings in code unit order. *)
Lemma N_of_ascii_inj x y : N_of_ascii x = N_of_ascii y → x = y.
Proof.
  intros E. rewrite <- (ascii_N_embedding x), <- (ascii_N_embedding y).
  now rewrite E.
Qed.

Lemma ltb_irrefl x : ltb x x = false.
Proof.
  induction x as [|c r IH]; simpl; [reflexivity|].
  now rewrite N.ltb_irrefl.
Qed.

Lemma ltb_total x y : x ≠ y → ltb y x = negb (ltb x y).
Proof.
  revert y. induction x as [|c r IH]; intros [|d s] H; simpl;
    try reflexivity; [congruence|].
  destruct (N.ltb_spec (N_of_ascii c) (N_of_ascii d)),
           (N.ltb_spec (N_of_ascii d) (N_of_ascii c));
    simpl; try reflexivity; try lia.
  apply IH. intros ->.
  assert (c = d) by (apply N_of_ascii_inj; lia). congruence.
Qed.

Lemma ltb_trans x y z : ltb x y = true → ltb y z = true → ltb x z = true.
Proof.
  revert y z. induction x as [|c r IH]; intros [|d s] [|e t]; simpl;
    try congruence.
  destruct (N.ltb_spec (N_of_ascii c) (N_of_ascii d)),
           (N.ltb_spec (N_of_ascii d) (N_of_ascii c)),
           (N.ltb_spec (N_of_ascii d) (N_of_ascii e)),
           (N.ltb_spec (N_of_ascii e) (N_of_ascii d)),
           (N.ltb_spec (N_of_ascii c) (N_of_ascii e)),
           (N.ltb_spec (N_of_ascii e) (N_of_ascii c));
    try congruence; try lia.
  apply IH.
Qed.

Lemma exactIdentifiers_order : Order exactIdentifiers.
Proof.
  split.
  - intros [n|s]; simpl; [apply compareN_order|].
    unfold Text.eqb. now rewrite bool_decide_eq_true_2.
  - intros [n|s] [m|t]; simpl; try reflexivity; [apply compareN_order|].
    unfold Text.eqb. repeat case_bool_decide; subst;
      try congruence; try reflexivity.
    rewrite (ltb_total s t) by assumption. now destruct (ltb s t).
  - intros [n|s] [m|t] [k|u]; simpl; try lia; [apply compareN_order|].
    unfold Text.eqb.
    destruct (bool_decide_reflect (s = t)) as [->|Hst].
    + intros _ H. exact H.
    + destruct (bool_decide_reflect (t = u)) as [->|Htu].
      * intros H _. now rewrite bool_decide_eq_false_2.
      * intros H1 H2.
        destruct (ltb s t) eqn:E1; [|lia].
        destruct (ltb t u) eqn:E2; [|lia].
        rewrite (ltb_trans s t u E1 E2).
        destruct (bool_decide (s = u)); lia.
Qed.

Lemma exactPreLoop_step x a y b :
  exactPreLoop (x :: a) (y :: b)
  = lexStep (exactIdentifiers x y) (exactPreLoop a b).
Proof. reflexivity. Qed.

Lemma exactPreLoop_order : Order exactPreLoop.
Proof.
  split.
  - induction a as [|x a IH]; [reflexivity|].
    rewrite exactPreLoop_step, IH, (o_refl _ exactIdentifiers_order).
    reflexivity.
  - induction a as [|x a IH]; intros [|y b]; try reflexivity.
    rewrite !exactPreLoop_step, IH,
      (o_anti _ exactIdentifiers_order x y).
    apply lexStep_anti.
  - induction a as [|x a IH]; intros [|y b] [|z d];
      try (simpl; lia).
    rewrite !exactPreLoop_step.
    apply (lexStep_trans _ exactIdentifiers_order). apply IH.
Qed.

Lemma exactPre_order : Order exactPre.
Proof.
  pose proof exactPreLoop_order as [R An T].
  split; unfold exactPre.
  - intros a. destruct (prerelease a); [reflexivity|apply R].
  - intros a b. destruct (prerelease a), (prerelease b);
      try reflexivity. apply An.
  - intros a b d.
    destruct (prerelease a), (prerelease b), (prerelease d);
      try lia. apply T.
Qed.

Theorem exactSemVer_order : Order exactSemVer.
Proof.
  apply (lex_order compareMain exactPre).
  - apply compareMain_order.
  - apply exactPre_order.
Qed.

(** *** Comparisons answer [-1], [0] or [1] *)

Lemma lexStep_sign k r : sign k → sign r → sign (lexStep k r).
Proof. unfold lexStep, sign. case_bool_decide; lia. Qed.

Lemma compareN_sign a b : sign (compareN a b).
Proof.
  unfold compareN, sign. destruct (a <? b)%N, (b <? a)%N; lia.
Qed.

Lemma exactIdentifiers_sign a b : sign (exactIdentifiers a b).
Proof.
  destruct a, b; simpl; try (unfold sign; lia); [apply compareN_sign|].
  unfold sign. destruct (Text.eqb s s0), (ltb s s0); lia.
Qed.

Lemma exactPreLoop_sign a b : sign (exactPreLoop a b).
Proof.
  revert b. induction a as [|x a IH]; intros [|y b];
    try (unfold sign; simpl; lia).
  rewrite exactPreLoop_step.
  apply lexStep_sign; [apply exactIdentifiers_sign|apply IH].
Qed.

Lemma exactSemVer_sign a b : sign (exactSemVer a b).
Proof.
  apply lexStep_sign.
  - repeat apply lexStep_sign; apply compareN_sign.
  - unfold exactPre. destruct (prerelease a), (prerelease b);
      try (unfold sign; lia). apply exactPreLoop_sign.
Qed.

(** *** The comparison of the package and the exact one

    Numbers up to [MAX_SAFE_INTEGER] are doubles, so that the package
    compares versions whose identifiers are safe as the exact comparison
    does. *)

Lemma toDouble_safe n : (n <= MAX_SAFE_INTEGER)%N → toDouble n = n.
Proof.
  intros H. unfold toDouble. apply N.leb_le in H. now rewrite H.
Qed.

Lemma compareIdentifiers_exact x y :
  safeIdentifier x = true → safeIdentifier y = true →
  compareIdentifiers x y = exactIdentifiers x y.
Proof.
  destruct x as [n|s], y as [m|t]; simpl; try reflexivity.
  intros Hn Hm. apply N.leb_le in Hn, Hm.
  now rewrite !toDouble_safe.
Qed.

(** The exact comparison answers [0] on identical identifiers only. *)
Lemma exactIdentifiers_zero x y : exactIdentifiers x y = 0 ↔ x = y.
Proof.
  destruct x as [n|s], y as [m|t]; simpl.
  - unfold compareN.
    destruct (N.ltb_spec n m), (N.ltb_spec m n); split;
      try lia; try (intros [=]; lia).
    intros _. f_equal. lia.
  - split; [lia|discriminate].
  - split; [lia|discriminate].
  - unfold Text.eqb. case_bool_decide as E.
    + subst. tauto.
    + split; [destruct (ltb s t); lia|]. intros [=]. contradiction.
Qed.

Lemma comparePreLoop_exact a b :
  forallb safeIdentifier a = true → forallb safeIdentifier b = true →
  comparePreLoop a b = exactPreLoop a b.
Proof.
  revert b. induction a as [|x a IH]; intros [|y b]; try reflexivity.
  cbn [forallb]. rewrite !andb_true_iff. intros [Hx Ha] [Hy Hb].
  cbn [comparePreLoop]. rewrite exactPreLoop_step.
  rewrite (compareIdentifiers_exact x y Hx Hy), (IH b Ha Hb).
  unfold lexStep.
  destruct (bool_decide_reflect (x = y)) as [E|E];
    destruct (bool_decide_reflect (exactIdentifiers x y = 0)) as [Z|Z];
    try reflexivity.
  - now apply exactIdentifiers_zero in E.
  - now apply exactIdentifiers_zero in Z.
Qed.

Lemma compareSemVer_exact a b :
  safe a = true → safe b = true → compareSemVer a b = exactSemVer a b.
Proof.
  unfold safe, compareSemVer, exactSemVer, lexStep, comparePre, exactPre.
  intros Ha Hb.
  destruct (prerelease a) as [|x pa], (prerelease b) as [|y pb];
    try reflexivity.
  now rewrite (comparePreLoop_exact (x :: pa) (y :: pb) Ha Hb).
Qed.

(** *** The exact comparison is the precedence of Semantic Versioning *)

Lemma exactIdentifiers_lower x y : exactIdentifiers x y < 0 ↔ idLower x y.
Proof.
  destruct x as [n|s], y as [m|t]; simpl.
  - unfold compareN.
    destruct (N.ltb_spec n m), (N.ltb_spec m n); lia.
  - split; [tauto|lia].
  - split; [lia|tauto].
  - unfold Text.eqb. case_bool_decide as E.
    + subst. rewrite ltb_irrefl. split; [lia|discriminate].
    + destruct (ltb s t); split; try lia; try discriminate; reflexivity.
Qed.

Lemma exactPreLoop_lower a b : exactPreLoop a b < 0 ↔ preLower a b.
Proof.
  revert b. induction a as [|x a IH]; intros [|y b]; simpl;
    try (split; [lia|tauto]); try (split; [tauto|lia]).
  fold (exactPreLoop a b). unfold lexStep.
  rewrite <- IH, <- exactIdentifiers_lower, <- exactIdentifiers_zero.
  case_bool_decide; lia.
Qed.

Lemma compareN_lt a b : compareN a b < 0 ↔ (a < b)%N.
Proof.
  unfold compareN. destruct (N.ltb_spec a b), (N.ltb_spec b a); lia.
Qed.

Lemma compareN_zero a b : compareN a b = 0 ↔ a = b.
Proof.
  unfold compareN. destruct (N.ltb_spec a b), (N.ltb_spec b a); lia.
Qed.

Theorem exactSemVer_lower a b : exactSemVer a b < 0 ↔ lower a b.
Proof.
  unfold exactSemVer, compareMain, lower, lexStep, exactPre.
  rewrite <- !compareN_lt, <- !compareN_zero.
  assert (P : match prerelease a, prerelease b with
              | _ :: _, [] => -1
              | [], _ :: _ => 1
              | [], [] => 0
              | pa, pb => exactPreLoop pa pb
              end < 0
              ↔ match prerelease a, prerelease b with
                | _ :: _, [] => True
                | [], _ => False
                | pa, pb => preLower pa pb
                end).
  { destruct (prerelease a) as [|x pa], (prerelease b) as [|y pb];
      try (split; [lia|tauto]); try (split; [tauto|lia]).
    apply exactPreLoop_lower. }
  rewrite <- P.
  repeat case_bool_decide; lia.
Qed.

(** [v] is not below [w] when the exact comparison does not put [v]
    before [w]. *)
Lemma notBelow_exact v w x y :
  construct v = Some x → construct w = Some y →
  exactSemVer y x <= 0 → notBelow v w.
Proof.
  intros Hx Hy H. exists x, y. split; [exact Hx|]. split; [exact Hy|].
  rewrite <- exactSemVer_lower.
  rewrite (o_anti _ exactSemVer_order y x) in *. lia.
Qed.

(** *** The comparison used for sorting, made total *)

Lemma rcompareExact_refl a : rcompareExact a a = 0.
Proof. apply (o_refl _ exactSemVer_order). Qed.

Lemma rcompareExact_anti a b : rcompareExact a b < 0 ↔ 0 < rcompareExact b a.
Proof.
  unfold rcompareExact.
  rewrite (o_anti _ exactSemVer_order (rank b) (rank a)). lia.
Qed.

Lemma rcompareExact_total a b :
  0 < rcompareExact a b → rcompareExact b a <= 0.
Proof. intros H. apply rcompareExact_anti in H. lia. Qed.

Lemma rcompareExact_trans a b c :
  rcompareExact a b <= 0 → rcompareExact b c <= 0 → rcompareExact a c <= 0.
Proof.
  unfold rcompareExact. intros H1 H2.
  now apply (o_trans _ exactSemVer_order (rank c) (rank b) (rank a)).
Qed.

Lemma safeVersion_construct v :
  safeVersion v = true → ∃ sv, construct v = Some sv ∧ safe sv = true.
Proof.
  unfold safeVersion. destruct (construct v) as [sv|]; [|discriminate].
  intros H. now exists sv.
Qed.

Lemma safeVersion_version v : safeVersion v = true → isVersion v.
Proof.
  intros H. destruct (safeVersion_construct v H) as (sv & E & _).
  now exists sv.
Qed.

Lemma rcompareZ_exact a b :
  safeVersion a = true → safeVersion b = true →
  rcompareZ a b = rcompareExact a b.
Proof.
  intros Ha Hb.
  destruct (safeVersion_construct a Ha) as (x & Ex & Sx).
  destruct (safeVersion_construct b Hb) as (y & Ey & Sy).
  unfold rcompareZ, rcompareExact, rank. rewrite Ex, Ey. simpl.
  now apply compareSemVer_exact.
Qed.

Lemma rcompare_versions a b :
  isVersion a → isVersion b → rcompare a b = Returns (rcompareZ a b).
Proof.
  intros [x Hx] [y Hy].
  unfold rcompare, compare, rcompareZ, rank.
  rewrite (newSemVer_Some _ _ Hx), (newSemVer_Some _ _ Hy), Hx, Hy.
  reflexivity.
Qed.

Lemma forallb_In {A} (p : A → bool) l x :
  forallb p l = true → In x l → p x = true.
Proof. intros H. now apply forallb_forall. Qed.

(** On versions with safe identifiers [rcompare] is a consistent
    comparison function. *)
Lemma rcompare_consistent l :
  forallb safeVersion l = true →
  JsArray.consistent rcompare rcompareZ l.
Proof.
  intros H.
  assert (S : ∀ x, In x l → safeVersion x = true)
    by (intros x; now apply forallb_In).
  split; [|split; [|split]].
  - intros x y Hx Hy.
    apply rcompare_versions; apply safeVersion_version; auto.
  - intros x Hx. rewrite rcompareZ_exact by auto. apply rcompareExact_refl.
  - intros x y Hx Hy. rewrite !rcompareZ_exact by auto.
    apply rcompareExact_anti.
  - intros x y z Hx Hy Hz. rewrite !rcompareZ_exact by auto.
    apply rcompareExact_trans.
Qed.

(** On such versions the two comparisons sort alike. *)
Lemma sortZ_exact l :
  forallb safeVersion l = true →
  JsArray.sortZ rcompareZ l = JsArray.sortZ rcompareExact l.
Proof.
  intros H. apply JsArrayFacts.sortZ_ext. intros x y Hx Hy.
  rewrite rcompareZ_exact; [reflexivity| |]; now apply (forallb_In _ l).
Qed.

(** Sorting versions with safe identifiers with [rcompare] does not
    throw, whatever the engine. *)
Lemma sort_versions {engine : JsArray.SortEngine} l :
  forallb safeVersion l = true →
  JsArray.sort rcompare l = Returns (JsArray.sortZ rcompareZ l).
Proof.
  intros H. now apply JsArray.sort_consistent, rcompare_consistent.
Qed.

Lemma notBelow_of_rank a b :
  isVersion a → isVersion b → rcompareExact a b <= 0 → notBelow a b.
Proof.
  intros [x Hx] [y Hy] H. apply (notBelow_exact a b x y Hx Hy).
  unfold rcompareExact, rank in H. now rewrite Hx, Hy in H.
Qed.

(** What the constructor throws is a [TypeError], and it throws on the
    texts that are no versions. *)
Lemma newSemVer_TypeError v e :
  newSemVer v = Throws e → ∃ message, e = TypeError message.
Proof.
  unfold newSemVer. case_bool_decide; [intros [= <-]; eauto|].
  destruct (matchFull (trim (list_ascii_of_string v))) as [sv|];
    [|intros [= <-]; eauto].
  destruct (inRange (major sv)); [|intros [= <-]; eauto].
  destruct (inRange (minor sv)); [|intros [= <-]; eauto].
  destruct (inRange (patch sv)); [discriminate|intros [= <-]; eauto].
Qed.

Lemma newSemVer_throws v e : newSemVer v = Throws e → ¬ isVersion v.
Proof.
  intros E [sv H]. apply newSemVer_Some in H. congruence.
Qed.

Lemma rcompare_throws a b e :
  rcompare a b = Throws e →
  newSemVer b = Throws e ∨ (isVersion b ∧ newSemVer a = Throws e).
Proof.
  unfold rcompare, compare.
  destruct (newSemVer b) as [y|eb] eqn:Eb; simpl.
  - destruct (newSemVer a) as [x|ea] eqn:Ea; simpl; [discriminate|].
    intros [= <-]. right. split; [|reflexivity].
    exists y. unfold construct. now rewrite Eb.
  - intros [= <-]. now left.
Qed.

(** Every comparison with a text that is no version throws. *)
Lemma rcompare_unreadable k l :
  construct k = None → JsArray.unreadable rcompare k l.
Proof.
  intros H y _. destruct (newSemVer_None k H) as [e He].
  unfold rcompare, compare. rewrite He. split.
  - destruct (newSemVer y) as [sy|ey]; simpl; eauto.
  - simpl. eauto.
Qed.

Lemma invalid_key l :
  ¬ Forall isVersion l → ∃ k, In k l ∧ construct k = None.
Proof.
  induction l as [|x l IH]; intros H; [destruct H; constructor|].
  destruct (construct x) as [sx|] eqn:Ex.
  - destruct IH as (k & Hk & Ek).
    + intros Hl. apply H. constructor; [now exists sx|exact Hl].
    + exists k. split; [now right|exact Ek].
  - exists x. split; [now left|exact Ex].
Qed.

(** What [keys.sort(semver.rcompare)] throws is what the constructor
    throws on one of the keys; and with two keys or more, one of which is
    no version, it throws, whatever the engine. *)
Lemma sort_rcompare_throws {engine : JsArray.SortEngine} l e :
  JsArray.sort rcompare l = Throws e →
  ∃ k, In k l ∧ newSemVer k = Throws e.
Proof.
  intros H. apply JsArray.sort_throws in H.
  destruct H as (x & y & Hx & Hy & E).
  destruct (rcompare_throws x y e E) as [Ey|[_ Ex]]; eauto.
Qed.

Lemma sort_invalid_key {engine : JsArray.SortEngine} l :
  (2 ≤ length l)%nat → ¬ Forall isVersion l →
  ∃ k e, In k l ∧ newSemVer k = Throws e
         ∧ JsArray.sort rcompare l = Throws e.
Proof.
  intros Hl Hn. destruct (invalid_key l Hn) as (k0 & Hk0 & E0).
  destruct (JsArray.sort_reads _ rcompare l k0 Hl Hk0
                               (rcompare_unreadable k0 l E0)) as [e He].
  destruct (sort_rcompare_throws l e He) as (k & Hk & Ek).
  exists k, e. auto.
Qed.

End SemverFacts.

(** ** [maxSatisfying] *)

Module MaxFacts.
Import Semver SemverFacts.

Lemma maxLoop_returns r l acc :
  Forall isVersion l → ∃ res, maxLoop r l acc = Returns res.
Proof.
  intros H. revert acc. induction H as [|v rest [sv Hv] _ IH]; intros acc.
  - now exists acc.
  - simpl. rewrite (newSemVer_Some _ _ Hv). simpl.
    destruct (testRange r sv); [|apply IH].
    destruct acc as [[m msv]|]; [|apply IH].
    destruct (compareSemVer msv sv =? -1); apply IH.
Qed.

(** What the loop of [maxSatisfying] leaves in [max], for versions with
    safe identifiers: a version that was there or that the range accepts,
    and that no accepted version and no earlier [max] exceeds. *)
Lemma maxLoop_best r l : ∀ acc res,
  forallb safeVersion l = true → wellFormed acc →
  maxLoop r l acc = Returns res →
  (∀ v sv, res = Some (v, sv) →
           construct v = Some sv
           ∧ (acc = Some (v, sv) ∨ (In v l ∧ testRange r sv = true)))
  ∧ (∀ w wsv, In w l → construct w = Some wsv → testRange r wsv = true →
              ∃ v sv, res = Some (v, sv) ∧ exactSemVer wsv sv <= 0)
  ∧ (∀ m msv, acc = Some (m, msv) →
              ∃ v sv, res = Some (v, sv) ∧ exactSemVer msv sv <= 0).
Proof.
  pose proof exactSemVer_order as O.
  induction l as [|v0 rest IH]; intros acc res Hl Hacc E.
  - simpl in E. injection E as <-. repeat split.
    + now apply Hacc.
    + now left.
    + intros w wsv [].
    + intros m msv ->. exists m, msv. split; [reflexivity|].
      rewrite (o_refl _ O). lia.
  - cbn [forallb] in Hl. apply andb_true_iff in Hl. destruct Hl as [Hv Hrest].
    destruct (safeVersion_construct v0 Hv) as (sv0 & Hv0 & Ss0).
    simpl in E. rewrite (newSemVer_Some _ _ Hv0) in E. simpl in E.
    assert (Hnew : wellFormed (Some (v0, sv0))).
    { intros m msv [= <- <-]. now split. }
    assert (Step : ∀ acc',
               wellFormed acc' → maxLoop r rest acc' = Returns res →
               (acc' = acc ∨ (acc' = Some (v0, sv0) ∧ testRange r sv0 = true)) →
               (testRange r sv0 = true →
                ∃ m msv, acc' = Some (m, msv) ∧ exactSemVer sv0 msv <= 0) →
               (∀ m msv, acc = Some (m, msv) →
                  ∃ m' msv', acc' = Some (m', msv')
                             ∧ exactSemVer msv msv' <= 0) →
               (∀ v sv, res = Some (v, sv) →
                  construct v = Some sv
                  ∧ (acc = Some (v, sv)
                     ∨ (In v (v0 :: rest) ∧ testRange r sv = true)))
               ∧ (∀ w wsv, In w (v0 :: rest) → construct w = Some wsv →
                    testRange r wsv = true →
                    ∃ v sv, res = Some (v, sv) ∧ exactSemVer wsv sv <= 0)
               ∧ (∀ m msv, acc = Some (m, msv) →
                    ∃ v sv, res = Some (v, sv) ∧ exactSemVer msv sv <= 0)).
    { intros acc' Hwf E' Hfrom Hv0le Hacc'.
      destruct (IH acc' res Hrest Hwf E') as (I1 & I2 & I3).
      repeat split.
      - now apply (I1 v sv).
      - destruct (I1 v sv H) as [_ [Hin|[Hin Ht]]].
        + destruct Hfrom as [->|[-> Ht]]; [now left|].
          injection Hin as <- <-. right. split; [now left|exact Ht].
        + right. split; [now right|exact Ht].
      - intros w wsv [<-|Hin] Hw Ht.
        + rewrite Hv0 in Hw. injection Hw as <-.
          destruct (Hv0le Ht) as (m & msv & Em & Hle).
          destruct (I3 m msv Em) as (v & sv & Er & Hle').
          exists v, sv. split; [exact Er|].
          now apply (o_trans _ O sv0 msv sv).
        + now apply (I2 w wsv).
      - intros m msv Em.
        destruct (Hacc' m msv Em) as (m' & msv' & Em' & Hle).
        destruct (I3 m' msv' Em') as (v & sv & Er & Hle').
        exists v, sv. split; [exact Er|].
        now apply (o_trans _ O msv msv' sv). }
    destruct (testRange r sv0) eqn:T.
    + destruct acc as [[m msv]|].
      * destruct (Hacc m msv eq_refl) as [_ Sm].
        rewrite (compareSemVer_exact msv sv0 Sm Ss0) in E.
        destruct (exactSemVer msv sv0 =? -1) eqn:C.
        -- apply Z.eqb_eq in C.
           apply (Step (Some (v0, sv0))); auto.
           ++ intros _. exists v0, sv0. split; [reflexivity|].
              rewrite (o_refl _ O). lia.
           ++ intros m' msv' [= <- <-]. exists v0, sv0.
              split; [reflexivity|lia].
        -- apply Z.eqb_neq in C.
           apply (Step (Some (m, msv))); auto.
           ++ intros _. exists m, msv. split; [reflexivity|].
              rewrite (o_anti _ O msv sv0).
              destruct (exactSemVer_sign msv sv0) as [?|[?|?]]; lia.
           ++ intros m' msv' [= <- <-]. exists m, msv.
              split; [reflexivity|]. rewrite (o_refl _ O). lia.
      * apply (Step (Some (v0, sv0))); auto.
        -- intros _. exists v0, sv0. split; [reflexivity|].
           rewrite (o_refl _ O). lia.
        -- intros ? ? [=].
    + apply (Step acc); auto.
      * intros [=].
      * intros m msv ->. exists m, msv. split; [reflexivity|].
        rewrite (o_refl _ O). lia.
Qed.

End MaxFacts.

(** ** Version resolution *)

Module ResolveFacts.
Import Semver SemverFacts MaxFacts PackageRequest.

Lemma isStable_parse v :
  isStable v = true → ∃ sv, parse v = Some sv ∧ prerelease sv = [].
Proof.
  unfold isStable, valid, hasPrerelease.
  destruct (parse v) as [sv|]; [|discriminate].
  simpl. case_bool_decide; [|discriminate]. intros _. now exists sv.
Qed.

Lemma isStable_construct v :
  isStable v = true → ∃ sv, construct v = Some sv ∧ prerelease sv = [].
Proof.
  intros H. destruct (isStable_parse v H) as (sv & P & E).
  exists sv. split; [now apply parse_construct|exact E].
Qed.

Lemma isStable_version v : isStable v = true → isVersion v.
Proof.
  intros H. destruct (isStable_construct v H) as (sv & C & _). now exists sv.
Qed.

(** A version without pre-release has no identifier to convert. *)
Lemma isStable_safe v : isStable v = true → safeVersion v = true.
Proof.
  intros H. destruct (isStable_construct v H) as (sv & C & E).
  unfold safeVersion, safe. now rewrite C, E.
Qed.

Lemma isStable_nonempty v : isStable v = true → v ≠ "".
Proof. intros H ->. now vm_compute in H. Qed.

Lemma stable_versions l : Forall isVersion (List.filter isStable l).
Proof.
  apply List.Forall_forall. intros v Hv. apply filter_In in Hv.
  now apply isStable_version.
Qed.

Lemma stable_safe l : forallb safeVersion (List.filter isStable l) = true.
Proof.
  apply forallb_forall. intros v Hv. apply filter_In in Hv.
  now apply isStable_safe.
Qed.

(** The candidates: the stable versions of the document, sorted; the
    sort does not throw, and every engine gives the same array. *)
Lemma stableVersions_returns {engine : JsArray.SortEngine} metadata :
  stableVersions metadata
  = Returns (JsArray.sortZ rcompareZ
               (List.filter isStable (versions metadata))).
Proof. apply sort_versions, stable_safe. Qed.

Lemma candidate_In metadata v :
  In v (JsArray.sortZ rcompareZ (List.filter isStable (versions metadata)))
  ↔ In v (versions metadata) ∧ isStable v = true.
Proof. rewrite JsArrayFacts.sortZ_In. apply filter_In. Qed.

Lemma candidates_safe metadata :
  forallb safeVersion
          (JsArray.sortZ rcompareZ (List.filter isStable (versions metadata)))
  = true.
Proof.
  apply forallb_forall. intros v Hv. apply candidate_In in Hv.
  now apply isStable_safe.
Qed.

Lemma notBelow_refl v : isVersion v → notBelow v v.
Proof.
  intros [x Hx]. apply (notBelow_exact v v x x Hx Hx).
  rewrite (o_refl _ exactSemVer_order). lia.
Qed.

(** [versions[0] || null] on the candidates. *)
Lemma firstOrNull_candidates metadata :
  let stable w := In w (versions metadata) ∧ isStable w = true in
  (∃ v, firstOrNull (JsArray.sortZ rcompareZ
                       (List.filter isStable (versions metadata)))
        = JsString v ∧ highest stable v)
  ∨ (firstOrNull (JsArray.sortZ rcompareZ
                    (List.filter isStable (versions metadata))) = JsNull
     ∧ ∀ w, In w (versions metadata) → isStable w = false).
Proof.
  intros stable.
  destruct (JsArray.sortZ rcompareZ (List.filter isStable (versions metadata)))
    as [|v rest] eqn:E.
  - right. split; [reflexivity|]. intros w Hw.
    destruct (isStable w) eqn:S; [|reflexivity].
    assert (Hin : In w []) by (rewrite <- E; now apply candidate_In).
    destruct Hin.
  - left. exists v.
    rewrite (sortZ_exact _ (stable_safe (versions metadata))) in E.
    destruct (JsArrayFacts.sortZ_head rcompareExact rcompareExact_total
                rcompareExact_trans v rest _ E) as [Hv Hmax].
    apply filter_In in Hv. destruct Hv as [Hv Sv].
    split.
    + simpl. destruct (String.eqb_spec v ""); [|reflexivity].
      now destruct (isStable_nonempty v Sv).
    + split; [now split|]. intros w [Hw Sw].
      destruct (Hmax w) as [->|Hle].
      * now apply filter_In.
      * now apply notBelow_refl, isStable_version.
      * apply notBelow_of_rank; auto using isStable_version.
Qed.

(** [semver.maxSatisfying] on the candidates. *)
Lemma maxSatisfying_candidates metadata range :
  let l := JsArray.sortZ rcompareZ (List.filter isStable (versions metadata)) in
  let accepted w :=
    In w (versions metadata) ∧ isStable w = true
    ∧ satisfies w range = true in
  (∃ v, maxSatisfying l range = Returns (Some v) ∧ highest accepted v)
  ∨ (maxSatisfying l range = Returns None
     ∧ ∀ w, In w (versions metadata) → isStable w = true →
            satisfies w range = false).
Proof.
  intros l accepted. unfold maxSatisfying.
  assert (Hl : Forall isVersion l).
  { apply List.Forall_forall. intros v Hv. apply candidate_In in Hv.
    now apply isStable_version. }
  pose proof (candidates_safe metadata) as Hs. fold l in Hs.
  destruct (newRange range) as [r|] eqn:R.
  - destruct (maxLoop_returns r l None Hl) as [res E]. rewrite E.
    assert (Hwf : wellFormed None) by (intros ? ? [=]).
    destruct (maxLoop_best r l None res Hs Hwf E) as (B1 & B2 & _).
    destruct res as [[v sv]|]; simpl.
    + left. exists v. split; [reflexivity|].
      destruct (B1 v sv eq_refl) as [Cv [[=]|[Hin Ht]]].
      apply candidate_In in Hin. destruct Hin as [Hin Sv].
      split.
      * repeat split; auto. unfold satisfies. now rewrite R, Cv.
      * intros w (Hw & Sw & Aw).
        destruct (isStable_version w Sw) as [wsv Cw].
        unfold satisfies in Aw. rewrite R, Cw in Aw.
        destruct (B2 w wsv) as (v' & sv' & [= <- <-] & Hle); auto.
        { now apply candidate_In. }
        now apply (notBelow_exact v w sv wsv).
    + right. split; [reflexivity|]. intros w Hw Sw.
      destruct (isStable_version w Sw) as [wsv Cw].
      unfold satisfies. rewrite R, Cw.
      destruct (testRange r wsv) eqn:T; [|reflexivity].
      destruct (B2 w wsv) as (v' & sv' & [=] & _); auto.
      now apply candidate_In.
  - right. split; [reflexivity|]. intros w _ _.
    unfold satisfies. now rewrite R.
Qed.

End ResolveFacts.

(** * The claims *)

Section Resolution.
Import Semver SemverFacts ResolveFacts PackageRequest.
Context {engine : JsArray.SortEngine}.

Local Ltac resolve_steps metadata version :=
  unfold getResolvedVersion; rewrite (stableVersions_returns metadata);
  destruct (JsArray.includes version (versions metadata)) eqn:Inc;
  [apply LodashFacts.includes_In in Inc
  |apply LodashFacts.includes_false in Inc].

(** The exact match comes first, whatever the tags are. *)
Lemma resolve_exact metadata version :
  In version (versions metadata) →
  getResolvedVersion metadata version = Returns (JsString version).
Proof.
  intros H. apply LodashFacts.includes_In in H.
  unfold getResolvedVersion. rewrite (stableVersions_returns metadata).
  now rewrite H.
Qed.

Lemma resolve_tag metadata version :
  ¬ In version (versions metadata) →
  hasOwnProperty (tags metadata) version = Returns true →
  getResolvedVersion metadata version
  = Returns (getProperty (tags metadata) version).
Proof.
  intros H O. resolve_steps metadata version; [tauto|]. now rewrite O.
Qed.

Lemma resolve_latest metadata version :
  ¬ In version (versions metadata) →
  hasOwnProperty (tags metadata) version = Returns false →
  version = "" ∨ version = "latest" →
  getResolvedVersion metadata version
  = Returns (firstOrNull
               (JsArray.sortZ rcompareZ
                  (List.filter isStable (versions metadata)))).
Proof.
  intros H O L. resolve_steps metadata version; [tauto|]. rewrite O.
  now destruct L as [->| ->].
Qed.

Lemma resolve_range metadata version :
  ¬ In version (versions metadata) →
  hasOwnProperty (tags metadata) version = Returns false →
  version ≠ "" → version ≠ "latest" →
  getResolvedVersion metadata version
  = match maxSatisfying
            (JsArray.sortZ rcompareZ
               (List.filter isStable (versions metadata))) version with
    | Returns r => Returns (orNull r)
    | Throws e => Throws e
    end.
Proof.
  intros H O N1 N2. resolve_steps metadata version; [tauto|]. rewrite O.
  destruct (String.eqb_spec version "latest"); [tauto|].
  destruct (String.eqb_spec version ""); [tauto|]. reflexivity.
Qed.

(** On a document whose tags are a map from tag names to versions the
    resolution returns a string or [null] and does not throw. *)
Lemma resolution_total_on_maps m vs version :
  ∃ r, getResolvedVersion (mkMetadata (TagsObject m) vs) version = Returns r
       ∧ (r = JsNull ∨ ∃ s, r = JsString s).
Proof.
  set (metadata := mkMetadata (TagsObject m) vs).
  destruct (in_dec string_dec version vs) as [Hin|Hin].
  { exists (JsString version). split; [now apply resolve_exact|eauto]. }
  destruct (m !! version) as [t|] eqn:T.
  { exists (JsString t). split; [|eauto].
    rewrite (resolve_tag metadata version Hin).
    - simpl. now rewrite T.
    - simpl. rewrite T. reflexivity. }
  assert (O : hasOwnProperty (tags metadata) version = Returns false).
  { simpl. now rewrite T. }
  destruct (string_dec version "") as [E1|E1];
    [|destruct (string_dec version "latest") as [E2|E2]].
  - rewrite (resolve_latest metadata version Hin O (or_introl E1)).
    destruct (firstOrNull_candidates metadata) as [(v & -> & _)|[-> _]]; eauto.
  - rewrite (resolve_latest metadata version Hin O (or_intror E2)).
    destruct (firstOrNull_candidates metadata) as [(v & -> & _)|[-> _]]; eauto.
  - rewrite (resolve_range metadata version Hin O E1 E2).
    destruct (maxSatisfying_candidates metadata version)
      as [(v & -> & _)|[-> _]]; simpl; eauto.
Qed.

(** C1, as amended.  Version resolution follows four steps in order, for
    every document and every requested specifier: (1) a specifier that
    is an entry of [versions] is returned unchanged; (2) else, when it is
    an own property of [tags], [tags[spec]] is returned, which for a
    tag-to-version map is the version of the tag; (3) else, when it is
    empty or ["latest"], the result is the highest entry of [versions]
    that is a valid semantic version and not a pre-release, or [null]
    when there is none; (4) else the specifier is read as a range and the
    result is the highest valid, non pre-release entry of [versions] that
    satisfies it, or [null] when none does.  On the document of the
    example, [""] and ["latest"] give ["2.0.0"], ["^1.0.0"] gives
    ["1.9.9"] and ["1.9.9"] gives ["1.9.9"]. *)
Theorem resolution_order (metadata : Metadata) (version : string) :
  let stable w := In w (versions metadata) ∧ isStable w = true in
  let accepted w := stable w ∧ satisfies w version = true in
  (In version (versions metadata) →
   getResolvedVersion metadata version = Returns (JsString version))
  ∧ (¬ In version (versions metadata) →
     hasOwnProperty (tags metadata) version = Returns true →
     getResolvedVersion metadata version
     = Returns (getProperty (tags metadata) version)
     ∧ ∀ m t, tags metadata = TagsObject m → m !! version = Some t →
              getResolvedVersion metadata version = Returns (JsString t))
  ∧ (¬ In version (versions metadata) →
     hasOwnProperty (tags metadata) version = Returns false →
     version = "" ∨ version = "latest" →
     (∃ v, getResolvedVersion metadata version = Returns (JsString v)
           ∧ highest stable v)
     ∨ (getResolvedVersion metadata version = Returns JsNull
        ∧ ∀ w, In w (versions metadata) → isStable w = false))
  ∧ (¬ In version (versions metadata) →
     hasOwnProperty (tags metadata) version = Returns false →
     version ≠ "" → version ≠ "latest" →
     (∃ v, getResolvedVersion metadata version = Returns (JsString v)
           ∧ highest accepted v)
     ∨ (getResolvedVersion metadata version = Returns JsNull
        ∧ ∀ w, stable w → satisfies w version = false))
  ∧ getResolvedVersion exampleDocument "" = Returns (JsString "2.0.0")
  ∧ getResolvedVersion exampleDocument "latest" = Returns (JsString "2.0.0")
  ∧ getResolvedVersion exampleDocument "^1.0.0" = Returns (JsString "1.9.9")
  ∧ getResolvedVersion exampleDocument "1.9.9" = Returns (JsString "1.9.9").
Proof.
  intros stable accepted.
  split; [now apply resolve_exact|].
  split.
  { intros Hin O. pose proof (resolve_tag metadata version Hin O) as E.
    split; [exact E|]. intros m t Em Et. rewrite E, Em. simpl.
    now rewrite Et. }
  split.
  { intros Hin O L. rewrite (resolve_latest metadata version Hin O L).
    destruct (firstOrNull_candidates metadata) as [(v & E & Hv)|[E Hn]].
    - left. exists v. now rewrite E.
    - right. now rewrite E. }
  split.
  { intros Hin O N1 N2. rewrite (resolve_range metadata version Hin O N1 N2).
    destruct (maxSatisfying_candidates metadata version)
      as [(v & E & Hv)|[E Hn]]; rewrite E; simpl.
    - left. exists v. split; [reflexivity|].
      destruct Hv as [(H1 & H2 & H3) Hmax]. split; [repeat split; auto|].
      intros w [[Hw Sw] Aw]. now apply Hmax.
    - right. split; [reflexivity|]. intros w [Hw Sw]. now apply Hn. }
  repeat split; unfold getResolvedVersion;
    rewrite (stableVersions_returns exampleDocument); now vm_compute.
Qed.

(** C7.  The document that [fetchGitHubMetadata] builds has the array
    [[]] as its [tags]; an array owns the property [length], so the
    specifier ["length"] passes the own-property test and the resolution
    returns [tags["length"]], the number [0], which is neither a version
    string nor [null] (unless a tag is itself named ["length"]). *)
Theorem resolution_of_length_on_array_tags (vs : list string) :
  getResolvedVersion (mkMetadata TagsArray vs) "length"
  = Returns (if JsArray.includes "length" vs
             then JsString "length" else JsNumber 0).
Proof.
  set (metadata := mkMetadata TagsArray vs).
  destruct (JsArray.includes "length" vs) eqn:Inc.
  - apply LodashFacts.includes_In in Inc. now apply resolve_exact.
  - apply LodashFacts.includes_false in Inc.
    now rewrite (resolve_tag metadata "length" Inc).
Qed.

(** C9.  The candidates of the ["latest"], empty-specifier and range
    steps are the entries of [versions] that parse as semantic versions
    and are not pre-releases.  Hence, when no entry of [versions] is a
    valid semantic version, a specifier that is neither an entry of
    [versions] nor an own property of [tags] resolves to [null], be it
    ["latest"], empty or a range; and a specifier that is an entry of
    [versions] is returned unchanged, valid or not. *)
Theorem candidates_are_valid_and_stable (metadata : Metadata)
        (version : string) :
  (∃ c, stableVersions metadata = Returns c
        ∧ ∀ v, In v c ↔ In v (versions metadata) ∧ valid v = true
                        ∧ hasPrerelease v = false)
  ∧ ((∀ v, In v (versions metadata) → valid v = false) →
     ¬ In version (versions metadata) →
     hasOwnProperty (tags metadata) version = Returns false →
     getResolvedVersion metadata version = Returns JsNull)
  ∧ (In version (versions metadata) →
     getResolvedVersion metadata version = Returns (JsString version)).
Proof.
  split; [|split; [|now apply resolve_exact]].
  - eexists. split; [apply stableVersions_returns|].
    intros v. rewrite candidate_In. unfold isStable.
    rewrite andb_true_iff, negb_true_iff. tauto.
  - intros Hall Hin O.
    assert (Hns : ∀ w, In w (versions metadata) → isStable w = false).
    { intros w Hw. unfold isStable. now rewrite (Hall w Hw). }
    destruct (string_dec version "") as [E1|E1];
      [|destruct (string_dec version "latest") as [E2|E2]].
    + rewrite (resolve_latest metadata version Hin O (or_introl E1)).
      destruct (firstOrNull_candidates metadata)
        as [(v & _ & [[Hv Sv] _])|[-> _]]; [|reflexivity].
      rewrite (Hns v Hv) in Sv. discriminate.
    + rewrite (resolve_latest metadata version Hin O (or_intror E2)).
      destruct (firstOrNull_candidates metadata)
        as [(v & _ & [[Hv Sv] _])|[-> _]]; [|reflexivity].
      rewrite (Hns v Hv) in Sv. discriminate.
    + rewrite (resolve_range metadata version Hin O E1 E2).
      destruct (maxSatisfying_candidates metadata version)
        as [(v & _ & [(Hv & Sv & _) _])|[-> _]]; [|reflexivity].
      rewrite (Hns v Hv) in Sv. discriminate.
Qed.

End Resolution.

Section ResolutionExamples.
Import Semver PackageRequest.

(** C1 as the specification states it fails in three ways.  On its own
    example: ["1.9.9"] is not a pre-release and lies in [^1.0.0], so that
    resolving ["^1.0.0"] gives ["1.9.9"] and not [null].  On an entry
    that is no semantic version: it is not a pre-release, yet it is no
    candidate of the steps 3 and 4, which answer [null] on a document
    whose only entry it is.  On the tags of a GitHub document, the empty
    array: ["length"] is no key of a mapping, yet the resolution returns
    [tags["length"]], the number [0], where the range step would answer
    [null]. *)
Lemma resolution_as_specified_fails :
  (getResolvedVersion exampleDocument "^1.0.0" = Returns (JsString "1.9.9")
   ∧ hasPrerelease "1.9.9" = false
   ∧ satisfies "1.9.9" "^1.0.0" = true)
  ∧ (hasPrerelease "banana" = false
     ∧ getResolvedVersion (mkMetadata (TagsObject ∅) ["banana"]) "latest"
       = Returns JsNull
     ∧ getResolvedVersion (mkMetadata (TagsObject ∅) ["banana"]) "*"
       = Returns JsNull)
  ∧ (getResolvedVersion (mkMetadata TagsArray ["1.0.0"]) "length"
     = Returns (JsNumber 0)
     ∧ maxSatisfying ["1.0.0"] "length" = Returns None).
Proof. repeat split; vm_compute; reflexivity. Qed.

(** Ranges with [v], [=] and blanks before the version, which the
    expressions of the package allow: on the document of the example
    they select ["1.9.9"]. *)
Lemma resolution_of_prefixed_ranges :
  getResolvedVersion exampleDocument "^=1.0.0" = Returns (JsString "1.9.9")
  ∧ getResolvedVersion exampleDocument "v=1.x" = Returns (JsString "1.9.9")
  ∧ getResolvedVersion exampleDocument "~=1.9.0" = Returns (JsString "1.9.9")
  ∧ getResolvedVersion exampleDocument "~> 1.9" = Returns (JsString "1.9.9")
  ∧ getResolvedVersion exampleDocument "1.0.0 - 1.x"
    = Returns (JsString "1.9.9")
  ∧ getResolvedVersion exampleDocument "v=1.9.9" = Returns JsNull
  ∧ getResolvedVersion exampleDocument ">1.9.9 || <1" = Returns (JsString "2.0.0")
  ∧ getResolvedVersion exampleDocument "<1.0.0" = Returns JsNull.
Proof. repeat split; vm_compute; reflexivity. Qed.

(** An instance of C9: tag names that are not versions. *)
Lemma candidates_are_valid_and_stable_witness :
  getResolvedVersion (mkMetadata TagsArray ["nightly"; "release-2"])
                     "^1.0.0" = Returns JsNull.
Proof.
  apply (proj1 (proj2 (candidates_are_valid_and_stable
                         (mkMetadata TagsArray ["nightly"; "release-2"])
                         "^1.0.0"))).
  - intros v [<-|[<-|[]]]; reflexivity.
  - simpl. intros [H|[H|[]]]; discriminate.
  - reflexivity.
Defined.
End ResolutionExamples.

Section GitHubTags.
Import GitHub JsArrayFacts LodashFacts.

Lemma truthy_true s : truthy s = true ↔ s ≠ "".
Proof.
  unfold truthy. destruct (String.eqb_spec s ""); simpl; intuition congruence.
Qed.

(** The names that reach the sort: stripped and not empty. *)
Lemma normalize_In rCompare data s :
  In s (normalize rCompare data)
  ↔ s ≠ "" ∧ ∃ tag, In tag data ∧ name (stripV tag) = s.
Proof.
  unfold normalize. rewrite uniq_In, sortZ_In, filter_In, truthy_true.
  rewrite map_map, in_map_iff. split.
  - intros [(tag & E & Hin) Hs]. split; [exact Hs|]. now exists tag.
  - intros [Hs (tag & Hin & E)]. split; [|exact Hs]. now exists tag.
Qed.


(** The document of a successful listing. *)
Lemma loader_document rCompare user repo maxAge data :
  outcome (loader rCompare user repo maxAge (Returns data))
  = Returns (mkMetadata TagsArray (normalize rCompare data)).
Proof. reflexivity. Qed.

(** C10.  One leading [v] is stripped from a tag name and no more
    (["vv2.0"] becomes ["v2.0"]); a name that does not start with [v] is
    kept; and a name that is empty after stripping, such as the tag
    ["v"], is not among the versions. *)
Theorem strip_one_v_and_drop_empty :
  (∀ s c, name (stripV (mkTag (String "v"%char s) c)) = s)
  ∧ (∀ c, name (stripV (mkTag "vv2.0" c)) = "v2.0")
  ∧ (∀ tag, (∀ s, name tag ≠ String "v"%char s) → stripV tag = tag)
  ∧ (∀ rCompare data, ¬ In "" (normalize rCompare data))
  ∧ (∀ rCompare c, normalize rCompare [mkTag "v" c] = [])
  ∧ (∀ rCompare c, normalize rCompare [mkTag "vv2.0" c] = ["v2.0"]).
Proof.
  repeat split; try reflexivity.
  - intros [n c] H. unfold stripV. simpl in *.
    destruct n as [|a r]; [reflexivity|].
    destruct (Ascii.eqb_spec a "v") as [->|Hne]; [now destruct (H r)|].
    destruct a as [[] [] [] [] [] [] [] []]; try reflexivity.
    now destruct Hne.
  - intros rCompare data H. apply normalize_In in H. now destruct H.
Qed.

Section Comparator.
(** A comparison function is consistent: it answers [0] on equal
    arguments, the sign flips when the arguments are exchanged, and
    the order it induces is transitive. *)
Context {engine : JsArray.SortEngine}.
Variable rCompare : string → string → Z.
Hypothesis rCompare_refl : ∀ a, rCompare a a = 0.
Hypothesis rCompare_anti : ∀ a b, rCompare a b < 0 ↔ 0 < rCompare b a.
Hypothesis rCompare_trans :
  ∀ a b c, rCompare a b <= 0 → rCompare b c <= 0 → rCompare a c <= 0.




End Comparator.
End GitHubTags.

Section GitHubExamples.
Import GitHub Semver SemverFacts.


End GitHubExamples.

(** ** The shared cache *)

Module SharedCacheFacts.
Import SharedCache.

Lemma fresh_later {V} (st : gmap string (Entry V)) now now' key :
  now <= now' → fresh st now key = None → fresh st now' key = None.
Proof.
  unfold fresh. intros Hle. destruct (st !! key) as [e|]; [|reflexivity].
  destruct (now <? expiresAt e) eqn:E; [discriminate|].
  apply Z.ltb_ge in E. intros _.
  destruct (now' <? expiresAt e) eqn:E'; [|reflexivity].
  apply Z.ltb_lt in E'. lia.
Qed.

(** A load that called the override leaves a negative result that
    answers every call before it expires, without running the loader. *)
Lemma get_after_override {V} (st : gmap string (Entry V)) now key
      (run : Run V) defaultMaxAge sc ttl :
  fresh st now key = None →
  firstOverride (effects run) = Some (sc, ttl) →
  let r := get st now key run defaultMaxAge in
  result r = outcome run
  ∧ sent r = requests run
  ∧ entries r !! key
    = Some (mkEntry (Failure sc) (now + default defaultMaxAge ttl))
  ∧ ∀ now' (run' : Run V) defaultMaxAge',
      now' < now + default defaultMaxAge ttl →
      let r' := get (entries r) now' key run' defaultMaxAge' in
      invoked r' = false ∧ sent r' = []
      ∧ result r' = Throws (ThrownResponse sc).
Proof.
  intros F O. unfold get. rewrite F, O. simpl.
  repeat split; try apply lookup_insert_eq.
  all: unfold fresh; rewrite lookup_insert_eq; simpl;
    apply Z.ltb_lt in H; now rewrite H.
Qed.

(** A load that failed without override leaves the cache as it was, and
    the next call runs its loader. *)
Lemma get_after_failure {V} (st : gmap string (Entry V)) now key
      (run : Run V) defaultMaxAge e :
  fresh st now key = None →
  firstOverride (effects run) = None →
  outcome run = Throws e →
  let r := get st now key run defaultMaxAge in
  result r = Throws e
  ∧ entries r = st
  ∧ ∀ now' (run' : Run V) defaultMaxAge',
      now <= now' →
      let r' := get (entries r) now' key run' defaultMaxAge' in
      invoked r' = true ∧ sent r' = requests run'.
Proof.
  intros F O E. unfold get. rewrite F, O, E. simpl.
  repeat split; intros; rewrite (fresh_later st now now' key); auto.
Qed.

Lemma get_after_success {V} (st : gmap string (Entry V)) now key
      (run : Run V) defaultMaxAge v :
  fresh st now key = None →
  firstOverride (effects run) = None →
  outcome run = Returns v →
  let r := get st now key run defaultMaxAge in
  result r = Returns v
  ∧ entries r !! key = Some (mkEntry (Success v) (now + defaultMaxAge))
  ∧ ∀ now' (run' : Run V) defaultMaxAge',
      now' < now + defaultMaxAge →
      let r' := get (entries r) now' key run' defaultMaxAge' in
      invoked r' = false ∧ sent r' = [] ∧ result r' = Returns v.
Proof.
  intros F O E. unfold get. rewrite F, O, E. simpl.
  repeat split; try apply lookup_insert_eq.
  all: unfold fresh; rewrite lookup_insert_eq; simpl;
    apply Z.ltb_lt in H; now rewrite H.
Qed.

End SharedCacheFacts.

Section GitHubFailures.
Import GitHub SharedCache SharedCacheFacts.

Variable rCompare : string → string → Z.

(** C3.  In the loader of the GitHub tags, on a cache without a fresh
    entry for the repository: a 404 hands the negative result
    [{ response: { statusCode: 404 } }] to the cache for [maxAge * 2] and
    throws the error; a 403 with the [block] flag does the same with
    status 403; in both cases every call before [2 * maxAge] has passed
    fails with the stored result and sends nothing.  A 403 without the
    flag logs the rate limit, calls no override, leaves the cache as it
    was and throws, so that the next call runs the loader again. *)
Theorem github_failures_cached_or_logged
        (st : gmap string (Entry Metadata)) (now : Z)
        (user repo : string) (maxAge : Z) (error : OctokitError) :
  let key := "gh/" +:+ user +:+ "/" +:+ repo in
  let run := loader rCompare user repo maxAge (Throws error) in
  let thrown := ThrownOctokit (mkOctokitError (status error) (block error)
                                              (Some (status error))) in
  let r := fetchGitHubMetadata rCompare st now user repo maxAge
                               (Throws error) in
  let negative sc :=
    entries r !! key = Some (mkEntry (Failure sc) (now + maxAge * 2))
    ∧ ∀ now' paginated' maxAge',
        now' < now + maxAge * 2 →
        let r' := fetchGitHubMetadata rCompare (entries r) now' user repo
                                      maxAge' paginated' in
        invoked r' = false ∧ sent r' = []
        ∧ result r' = Throws (ThrownResponse sc) in
  fresh st now key = None →
  result r = Throws thrown
  ∧ (status error = 404 →
     effects run = [AddLabels "githubRepoNotFound" (LabelString "1");
                    CacheOverride 404 (Some (maxAge * 2))]
     ∧ negative 404)
  ∧ (status error = 403 → block error = true →
     effects run = [CacheOverride 403 (Some (maxAge * 2))]
     ∧ negative 403)
  ∧ (status error = 403 → block error = false →
     effects run = [LogError "GitHub API rate limit exceeded."]
     ∧ entries r = st
     ∧ ∀ now' paginated' maxAge',
         now <= now' →
         let r' := fetchGitHubMetadata rCompare (entries r) now' user repo
                                       maxAge' paginated' in
         invoked r' = true
         ∧ sent r' = [ListTags user repo 100]).
Proof.
  intros key run thrown r negative F.
  assert (Hout : outcome run = Throws thrown) by reflexivity.
  split.
  { unfold r, fetchGitHubMetadata, get. fold key. now rewrite F. }
  split; [|split].
  - intros S.
    assert (Heff : effects run
                   = [AddLabels "githubRepoNotFound" (LabelString "1");
                      CacheOverride 404 (Some (maxAge * 2))]).
    { unfold run, loader, onError. simpl. now rewrite S. }
    split; [exact Heff|].
    destruct (get_after_override st now key run maxAge 404
                                 (Some (maxAge * 2)) F)
      as (_ & _ & Hentry & Hnext); [now rewrite Heff|].
    split; [exact Hentry|].
    intros now' paginated' maxAge' Hlt. now apply Hnext.
  - intros S B.
    assert (Heff : effects run = [CacheOverride 403 (Some (maxAge * 2))]).
    { unfold run, loader, onError. simpl. now rewrite S, B. }
    split; [exact Heff|].
    destruct (get_after_override st now key run maxAge 403
                                 (Some (maxAge * 2)) F)
      as (_ & _ & Hentry & Hnext); [now rewrite Heff|].
    split; [exact Hentry|].
    intros now' paginated' maxAge' Hlt. now apply Hnext.
  - intros S B.
    assert (Heff : effects run
                   = [LogError "GitHub API rate limit exceeded."]).
    { unfold run, loader, onError. simpl. now rewrite S, B. }
    split; [exact Heff|].
    destruct (get_after_failure st now key run maxAge thrown F)
      as (_ & Hst & Hnext); [now rewrite Heff|exact Hout|].
    split; [exact Hst|].
    intros now' paginated' maxAge' Hle.
    destruct (Hnext now' (loader rCompare user repo maxAge' paginated')
                    maxAge' Hle) as [Hinv Hsent].
    split; [exact Hinv|]. etransitivity; [exact Hsent|].
    now destruct paginated'.
Qed.
End GitHubFailures.

(** The error of the example run of C3: a repository that does not
    exist, on an empty cache. *)
Lemma github_failures_cached_or_logged_witness :
  SharedCache.result
    (GitHub.fetchGitHubMetadata Semver.rcompareZ ∅ 0 "jquery" "jquery"
                                600 (Throws (mkOctokitError 404 false None)))
  = Throws (ThrownOctokit (mkOctokitError 404 false (Some 404))).
Proof.
  apply (github_failures_cached_or_logged
           Semver.rcompareZ ∅ 0 "jquery" "jquery" 600
           (mkOctokitError 404 false None)).
  reflexivity.
Defined.

(** ** The race of the registries *)

Module BluebirdFacts.
Import Bluebird JsArrayFacts.

Section Race.
Context {A : Type}.

Lemma settled_cases (p : Settled A) : fulfilled p ∨ rejected p.
Proof.
  unfold fulfilled, rejected. destruct (settlement p); eauto.
Qed.

Lemma rejected_not_fulfilled (p : Settled A) :
  rejected p → ¬ fulfilled p.
Proof. intros [e He] [r Hr]. congruence. Qed.

Lemma chronological_In (p : Settled A) (ps : list (Settled A)) :
  In p (chronological ps) ↔ In p ps.
Proof. apply sortZ_In. Qed.

Lemma chronological_sorted (ps : list (Settled A)) :
  StronglySorted (fun p q => (settledAt p <= settledAt q)%nat)
                 (chronological ps).
Proof.
  assert (S : StronglySorted (JsArray.before byInstant) (chronological ps)).
  { apply sortZ_sorted; unfold byInstant; intros; lia. }
  induction S as [|p l _ IH Hp]; constructor; [exact IH|].
  rewrite List.Forall_forall in *. intros q Hq.
  specialize (Hp q Hq). unfold JsArray.before, byInstant in Hp. lia.
Qed.

Lemma sorted_after {B} (R : B → B → Prop) l1 p l2 :
  StronglySorted R (l1 ++ p :: l2) → Forall (R p) l2.
Proof.
  induction l1 as [|x l1 IH]; simpl; intros S;
    inversion_clear S; auto.
Qed.

(** A promise that settles no later than all the others and was
    created first is the first to settle. *)
Lemma chronological_first (p : Settled A) (ps : list (Settled A)) :
  (∀ q, In q ps → (settledAt p <= settledAt q)%nat) →
  chronological (p :: ps) = p :: chronological ps.
Proof.
  intros H. unfold chronological. simpl. apply insertZ_front.
  apply List.Forall_forall. intros q Hq. apply sortZ_In in Hq.
  specialize (H q Hq). unfold JsArray.before, byInstant. lia.
Qed.

(** The loop stops at the first fulfilment. *)
Lemma anyLoop_fulfilled (events : list (Settled A)) reasons :
  (∃ p, In p events ∧ fulfilled p) →
  ∃ l1 p l2 r, events = (l1 ++ p :: l2)%list ∧ Forall rejected l1
               ∧ settlement p = Returns r
               ∧ anyLoop events reasons = Fulfilled r.
Proof.
  revert reasons. induction events as [|q rest IH]; intros reasons.
  - intros (p & [] & _).
  - intros (p & Hin & Hp). simpl.
    destruct (settlement q) as [r|e] eqn:E.
    + exists [], q, rest, r. repeat split; auto.
    + destruct Hin as [->|Hin].
      { destruct Hp as [r Hr]. congruence. }
      destruct (IH (reasons ++ [e])%list) as (l1 & w & l2 & r & -> & F & S & L).
      { now exists p. }
      exists (q :: l1), w, l2, r. repeat split; auto.
      constructor; [now exists e|exact F].
Qed.

(** When every promise is rejected the reasons are collected in the
    order of the events. *)
Lemma anyLoop_rejected (events : list (Settled A)) reasons :
  Forall rejected events →
  ∃ errors, Forall2 (fun p e => settlement p = Throws e) events errors
            ∧ anyLoop events reasons
              = AggregateError (reasons ++ errors)%list.
Proof.
  intros H. revert reasons.
  induction H as [|q rest [e He] _ IH]; intros reasons.
  - exists []. split; [constructor|]. simpl. now rewrite app_nil_r.
  - destruct (IH (reasons ++ [e])%list) as (errors & F & L).
    exists (e :: errors). split; [now constructor|].
    simpl. rewrite He, L. now rewrite <- app_assoc.
Qed.

(** [Bluebird.any]: the first promise to be fulfilled wins. *)
Lemma any_first_success (ps : list (Settled A)) :
  (∃ p, In p ps ∧ fulfilled p) →
  ∃ w r, In w ps ∧ settlement w = Returns r ∧ any ps = Fulfilled r
         ∧ ∀ q, In q ps → fulfilled q →
                (settledAt w <= settledAt q)%nat.
Proof.
  intros (p & Hin & Hp).
  destruct (anyLoop_fulfilled (chronological ps) [])
    as (l1 & w & l2 & r & E & F & S & L).
  { exists p. split; [now apply chronological_In|exact Hp]. }
  exists w, r.
  assert (Hw : In w ps).
  { apply chronological_In. rewrite E. apply in_or_app. right. now left. }
  repeat split; auto.
  intros q Hq Fq. apply chronological_In in Hq. rewrite E in Hq.
  pose proof (chronological_sorted ps) as Sorted. rewrite E in Sorted.
  apply in_app_or in Hq. destruct Hq as [Hq|[<-|Hq]].
  - rewrite List.Forall_forall in F.
    now destruct (rejected_not_fulfilled q (F q Hq)).
  - lia.
  - apply sorted_after in Sorted.
    rewrite List.Forall_forall in Sorted. now apply Sorted.
Qed.

(** [Bluebird.any]: when every promise is rejected, the first reason
    of the aggregate is the reason of the promise that is rejected
    first. *)
Lemma any_first_failure (ps : list (Settled A)) :
  ps ≠ [] → Forall rejected ps →
  ∃ w e rest, In w ps ∧ settlement w = Throws e
              ∧ any ps = AggregateError (e :: rest)
              ∧ chronological ps = w :: tl (chronological ps)
              ∧ ∀ q, In q ps → (settledAt w <= settledAt q)%nat.
Proof.
  intros Hne Hall.
  assert (Hall' : Forall rejected (chronological ps)).
  { rewrite List.Forall_forall in *. intros q Hq.
    now apply Hall, chronological_In. }
  destruct (anyLoop_rejected (chronological ps) [] Hall')
    as (errors & F & L).
  destruct (chronological ps) as [|w l] eqn:E.
  { destruct ps as [|p ps']; [congruence|].
    assert (Hin : In p []) by (rewrite <- E; apply chronological_In; now left).
    destruct Hin. }
  inversion F as [|? e ? errors' He F' E1 E2]. subst.
  exists w, e, errors'.
  assert (Hw : In w ps) by (apply chronological_In; rewrite E; now left).
  repeat split; auto.
  - unfold any. now rewrite E.
  - intros q Hq. apply chronological_In in Hq. rewrite E in Hq.
    pose proof (chronological_sorted ps) as Sorted. rewrite E in Sorted.
    destruct Hq as [<-|Hq]; [lia|].
    inversion_clear Sorted as [|? ? _ Hle].
    rewrite List.Forall_forall in Hle. now apply Hle.
Qed.
End Race.

End BluebirdFacts.

Section Registries.
Import Npm SharedCache Bluebird BluebirdFacts.

Variable encodeURIComponent : string → string.
Variable got : string → Settled Response.
Context {engine : JsArray.SortEngine}.

Lemma loader_requests name cfg :
  requests (loader encodeURIComponent got name cfg)
  = map (fun s => requestOf (urlOf (encodeName encodeURIComponent name) s))
        (urlsOf cfg).
Proof.
  unfold loader.
  destruct (promise got (encodeName encodeURIComponent name) cfg)
    as [response|error]; [|reflexivity].
  destruct (responseBody response) as [b|]; [|reflexivity].
  now destruct (versionKeys b).
Qed.

(** C2, as amended.  With several registries configured a request is
    sent to every one of them.  When at least one request succeeds, the
    promise resolves with the response that arrives first among the
    successful ones.  When every request fails, the promise is rejected
    with one of the original errors and not with an aggregate: the error
    of the request that fails first in time; this is the error of the
    first configured registry when no other request fails before that
    one.  With one registry configured as a string, a single request is
    sent and its outcome is the outcome of the promise. *)
Theorem registry_race (name first : string) (others : list string) :
  let encoded := encodeName encodeURIComponent name in
  let promises := map (fun s => got (urlOf encoded s)) (first :: others) in
  requests (loader encodeURIComponent got name (ManyUrls first others))
  = map (fun s => requestOf (urlOf encoded s)) (first :: others)
  ∧ ((∃ p, In p promises ∧ fulfilled p) →
     ∃ w r, In w promises ∧ settlement w = Returns r
            ∧ promise got encoded (ManyUrls first others) = Returns r
            ∧ ∀ q, In q promises → fulfilled q →
                   (settledAt w <= settledAt q)%nat)
  ∧ (Forall rejected promises →
     ∃ w e, In w promises ∧ settlement w = Throws e
            ∧ promise got encoded (ManyUrls first others)
              = Throws (ThrownGot e)
            ∧ ∀ q, In q promises → (settledAt w <= settledAt q)%nat)
  ∧ (Forall rejected promises →
     (∀ q, In q promises →
           (settledAt (got (urlOf encoded first)) <= settledAt q)%nat) →
     ∃ e, settlement (got (urlOf encoded first)) = Throws e
          ∧ promise got encoded (ManyUrls first others)
            = Throws (ThrownGot e))
  ∧ (∀ single,
       requests (loader encodeURIComponent got name (OneUrl single))
       = [requestOf (urlOf encoded single)]
       ∧ promise got encoded (OneUrl single)
         = match settlement (got (urlOf encoded single)) with
           | Returns r => Returns r
           | Throws e => Throws (ThrownGot e)
           end).
Proof.
  intros encoded promises.
  split; [apply loader_requests|].
  split; [|split; [|split]].
  - intros H. destruct (any_first_success promises H)
      as (w & r & Hw & Sw & Ew & Hmin).
    exists w, r. repeat split; auto.
    unfold promise. fold promises. now rewrite Ew.
  - intros H.
    destruct (any_first_failure promises) as (w & e & rest & Hw & Sw & Ew & _ & Hmin);
      [discriminate|exact H|].
    exists w, e. repeat split; auto.
    unfold promise. fold promises. now rewrite Ew.
  - intros H Hfirst.
    destruct (any_first_failure promises) as (w & e & rest & Hw & Sw & Ew & Ec & _);
      [discriminate|exact H|].
    assert (E : chronological promises
                = got (urlOf encoded first)
                      :: chronological
                           (map (fun s => got (urlOf encoded s)) others)).
    { apply chronological_first. intros q Hq. apply Hfirst. now right. }
    rewrite E in Ec. simpl in Ec. injection Ec as Ew'. subst w.
    exists e. split; [exact Sw|].
    unfold promise. fold promises. now rewrite Ew.
  - intros single. split; [apply loader_requests|reflexivity].
Qed.

(** The loader stores nothing and throws when the response has no
    [versions]. *)
Lemma loader_without_versions name cfg response :
  promise got (encodeName encodeURIComponent name) cfg = Returns response →
  (responseBody response = None
   ∨ ∃ b, responseBody response = Some b ∧ versionKeys b = None) →
  loader encodeURIComponent got name cfg
  = mkRun (map (fun s => requestOf
                           (urlOf (encodeName encodeURIComponent name) s))
               (urlsOf cfg))
          []
          (Throws (Error ("Unable to retrieve versions for package "
                            +:+ encodeName encodeURIComponent name +:+ "."))).
Proof.
  intros P H. unfold loader. rewrite P.
  destruct H as [->|(b & -> & ->)]; reflexivity.
Qed.
End Registries.

(** C2 as the specification states it fails when another registry fails
    before the first configured one: here the first registry answers 500
    at the instant 2 and the second answers 404 at the instant 1, and the
    error that is propagated is the 404 of the second registry. *)
Lemma registry_race_first_configured_loses :
  settlement (Npm.exampleGot (Npm.urlOf "left-pad" "https://registry.npmjs.org"))
  = Throws (mkGotError HTTPError
                       (Some (mkGotResponse 500 "Internal Server Error")))
  ∧ Npm.promise Npm.exampleGot "left-pad" Npm.exampleConfig
    ≠ Throws (ThrownGot (mkGotError
                           HTTPError
                           (Some (mkGotResponse 500 "Internal Server Error")))).
Proof. split; now vm_compute. Qed.

(** An instance of C2: both registries of the example fail, and the error
    is the one of the registry that fails first. *)
Lemma registry_race_witness :
  ∃ w e, In w (map (fun s => Npm.exampleGot (Npm.urlOf "left-pad" s))
                   ["https://registry.npmjs.org"; "https://registry.npmjs.cf"])
         ∧ settlement w = Throws e
         ∧ Npm.promise Npm.exampleGot "left-pad" Npm.exampleConfig
           = Throws (ThrownGot e)
         ∧ ∀ q, In q (map (fun s => Npm.exampleGot (Npm.urlOf "left-pad" s))
                          ["https://registry.npmjs.org";
                           "https://registry.npmjs.cf"]) →
                (settledAt w <= settledAt q)%nat.
Proof.
  apply (proj1 (proj2 (proj2 (registry_race (fun s => s) Npm.exampleGot
                                            "left-pad"
                                            "https://registry.npmjs.org"
                                            ["https://registry.npmjs.cf"])))).
  repeat constructor; eexists; reflexivity.
Defined.

Section RegistryAnswers.
Import Npm SharedCache SharedCacheFacts Semver SemverFacts JsArrayFacts.

Variable encodeURIComponent : string → string.
Variable got : string → Settled Response.
Context {engine : JsArray.SortEngine}.

(** C5.  When the error that the race, or the single request, ends with
    is a 404, the loader calls the cache override with the negative
    result [{ response: { statusCode: 404 } }] and no [maxAge], and
    throws the error.  The cache keeps the negative result for the
    [maxAge] given to [get], and every lookup of the same name before
    that time has passed fails with it and sends no request. *)
Theorem registry_not_found_cached
        (st : gmap string (Entry Metadata)) (now : Z) (cfg : SourceUrl)
        (name : string) (maxAge : Z) (e : GotError) (r404 : GotResponse) :
  let key := "npm/" +:+ name in
  let run := loader encodeURIComponent got name cfg in
  let r := fetchNpmMetadata encodeURIComponent got st now cfg name maxAge in
  fresh st now key = None →
  promise got (encodeName encodeURIComponent name) cfg
  = Throws (ThrownGot e) →
  response e = Some r404 → statusCode r404 = 404 →
  effects run = [CacheOverride 404 None]
  ∧ result r = Throws (ThrownGot e)
  ∧ entries r !! key = Some (mkEntry (Failure 404) (now + maxAge))
  ∧ ∀ now' got' cfg' maxAge',
      now' < now + maxAge →
      let r' := fetchNpmMetadata encodeURIComponent got' (entries r) now'
                                 cfg' name maxAge' in
      invoked r' = false ∧ sent r' = []
      ∧ result r' = Throws (ThrownResponse 404).
Proof.
  intros key run r F P R S.
  assert (Hrun : run = mkRun (requests run) [CacheOverride 404 None]
                             (Throws (ThrownGot e))).
  { unfold run, loader. rewrite P. unfold is404. rewrite R.
    apply Z.eqb_eq in S. now rewrite S. }
  assert (Heff : effects run = [CacheOverride 404 None])
    by now rewrite Hrun.
  destruct (get_after_override st now key run maxAge 404 None F)
    as (Hres & _ & Hentry & Hnext); [now rewrite Heff|].
  split; [exact Heff|].
  split; [etransitivity; [exact Hres|now rewrite Hrun]|].
  split; [exact Hentry|].
  intros now' got' cfg' maxAge' Hlt. now apply Hnext.
Qed.

(** An array sorted with the exact comparison is in descending
    precedence. *)
Lemma sorted_versions_descend l :
  Forall isVersion l → StronglySorted (JsArray.before rcompareExact) l →
  StronglySorted notBelow l.
Proof.
  intros V S. induction S as [|a l _ IH Ha]; constructor.
  - apply IH. now inversion_clear V.
  - inversion_clear V as [|? ? Va Vl].
    rewrite List.Forall_forall in *. intros b Hb.
    apply notBelow_of_rank; [exact Va|now apply Vl|now apply Ha].
Qed.

(** The run of the loader on an answer that has [versions]. *)
Lemma loader_with_versions name cfg answer b keys :
  promise got (encodeName encodeURIComponent name) cfg = Returns answer →
  responseBody answer = Some b → versionKeys b = Some keys →
  loader encodeURIComponent got name cfg
  = mkRun (map (fun s => requestOf
                           (urlOf (encodeName encodeURIComponent name) s))
               (urlsOf cfg))
          []
          (match JsArray.sort rcompare keys with
           | Returns sorted => Returns (mkMetadata (tagsOf b) sorted)
           | Throws e => Throws e
           end).
Proof. intros P Hb Hk. unfold loader. now rewrite P, Hb, Hk. Qed.

(** C8, as amended.  On a successful response the loader first checks
    the body: when the body or its [versions] is missing it throws the
    error "Unable to retrieve versions", having sent one request to each
    registry and called no override, so that the cache stores nothing
    and the next lookup runs the loader again.  Otherwise it sorts the
    keys of [versions] with [semver.rcompare] and calls no override
    either.  When the keys are semantic versions whose numeric
    pre-release identifiers do not exceed [MAX_SAFE_INTEGER], the
    document has the [dist-tags] of the body as its [tags], unchanged,
    and as its [versions] the keys in descending precedence, keys of the
    same precedence in the order of the answer.  When there are fewer
    than two keys the document lists them as they are, versions or not.
    When there are two keys or more and one of them is no semantic
    version, no document is built: the loader throws what the
    constructor of [SemVer] throws on such a key, and nothing is stored.
    In every case a document that is built has the [dist-tags] as its
    [tags] and a permutation of the keys as its [versions], and an
    error that is thrown is the one of the constructor on a key. *)
Theorem registry_document
        (st : gmap string (Entry Metadata)) (now : Z) (cfg : SourceUrl)
        (name : string) (maxAge : Z) (answer : Response) :
  let encoded := encodeName encodeURIComponent name in
  let key := "npm/" +:+ name in
  let run := loader encodeURIComponent got name cfg in
  let r := fetchNpmMetadata encodeURIComponent got st now cfg name maxAge in
  let failure :=
    Error ("Unable to retrieve versions for package " +:+ encoded +:+ ".") in
  promise got encoded cfg = Returns answer →
  ((responseBody answer = None
    ∨ ∃ b, responseBody answer = Some b ∧ versionKeys b = None) →
   outcome run = Throws failure
   ∧ effects run = []
   ∧ requests run = map (fun s => requestOf (urlOf encoded s)) (urlsOf cfg)
   ∧ (fresh st now key = None →
      result r = Throws failure ∧ entries r = st
      ∧ ∀ now' got' cfg' maxAge',
          now <= now' →
          invoked (fetchNpmMetadata encodeURIComponent got' (entries r)
                                    now' cfg' name maxAge') = true))
  ∧ (∀ b keys,
       responseBody answer = Some b → versionKeys b = Some keys →
       effects run = []
       ∧ requests run
         = map (fun s => requestOf (urlOf encoded s)) (urlsOf cfg)
       ∧ (forallb safeVersion keys = true →
          outcome run
          = Returns (mkMetadata (tagsOf b)
                                (JsArray.sortZ rcompareExact keys))
          ∧ Permutation keys (JsArray.sortZ rcompareExact keys)
          ∧ StronglySorted notBelow (JsArray.sortZ rcompareExact keys))
       ∧ ((length keys < 2)%nat →
          outcome run = Returns (mkMetadata (tagsOf b) keys))
       ∧ ((2 ≤ length keys)%nat → ¬ Forall isVersion keys →
          ∃ k e, In k keys ∧ ¬ isVersion k ∧ newSemVer k = Throws e
                 ∧ outcome run = Throws e
                 ∧ (fresh st now key = None →
                    result r = Throws e ∧ entries r = st))
       ∧ (∀ m, outcome run = Returns m →
               tags m = tagsOf b ∧ Permutation keys (versions m))
       ∧ (∀ e, outcome run = Throws e →
               ∃ k, In k keys ∧ ¬ isVersion k ∧ newSemVer k = Throws e))
  ∧ (∀ b m, distTags b = Some m → tagsOf b = TagsObject m).
Proof.
  intros encoded key run r failure P.
  split; [|split].
  - intros H.
    pose proof (loader_without_versions encodeURIComponent got name cfg
                                        answer P H) as E.
    fold encoded in E. fold run in E. fold failure in E.
    assert (Hout : outcome run = Throws failure) by now rewrite E.
    assert (Heff : effects run = []) by now rewrite E.
    repeat split; try (now rewrite E).
    all: destruct (get_after_failure st now key run maxAge failure)
      as (Hres & Hst & Hnext); auto; try (now rewrite Heff).
    intros. now apply Hnext.
  - intros b keys Hb Hk.
    pose proof (loader_with_versions name cfg answer b keys P Hb Hk) as E.
    fold encoded in E. fold run in E.
    assert (Heff : effects run = []) by now rewrite E.
    split; [exact Heff|]. split; [now rewrite E|].
    split; [|split; [|split; [|split]]].
    + intros V. split; [|split].
      * rewrite E. simpl. rewrite (sort_versions keys V).
        now rewrite (sortZ_exact keys V).
      * apply sortZ_perm.
      * apply sorted_versions_descend.
        -- apply (Permutation_Forall (sortZ_perm rcompareExact keys)).
           apply List.Forall_forall. intros k Hin.
           apply safeVersion_version. now apply (forallb_In _ keys).
        -- apply sortZ_sorted;
             [apply rcompareExact_total|apply rcompareExact_trans].
    + intros Hl. rewrite E. simpl.
      now rewrite (JsArray.sort_short _ rcompare keys Hl).
    + intros Hl Hn.
      destruct (sort_invalid_key keys Hl Hn) as (k & e & Hin & He & Es).
      exists k, e. split; [exact Hin|].
      split; [now apply newSemVer_throws with e|]. split; [exact He|].
      assert (Hout : outcome run = Throws e) by (rewrite E; simpl; now rewrite Es).
      split; [exact Hout|]. intros F.
      destruct (get_after_failure st now key run maxAge e)
        as (Hres & Hst & _); auto; now rewrite Heff.
    + intros m. rewrite E. simpl.
      destruct (JsArray.sort rcompare keys) as [sorted|e] eqn:Es;
        [|discriminate].
      intros [= <-]. split; [reflexivity|].
      now apply (JsArray.sort_returns _ rcompare).
    + intros e. rewrite E. simpl.
      destruct (JsArray.sort rcompare keys) as [sorted|e'] eqn:Es;
        [discriminate|].
      intros [= <-].
      destruct (sort_rcompare_throws keys e' Es) as (k & Hin & He).
      exists k. split; [exact Hin|].
      split; [now apply newSemVer_throws with e'|exact He].
  - intros b m H. unfold tagsOf. now rewrite H.
Qed.
End RegistryAnswers.

(** The example of C5: the only registry answers 404. *)
Lemma registry_not_found_cached_witness :
  effects (Npm.loader (fun s => s) Npm.exampleGot "left-pad"
                      (Npm.OneUrl "https://registry.npmjs.cf"))
  = [CacheOverride 404 None].
Proof.
  apply (registry_not_found_cached
           (fun s => s) Npm.exampleGot ∅ 0
           (Npm.OneUrl "https://registry.npmjs.cf") "left-pad" 600
           (mkGotError HTTPError (Some (mkGotResponse 404 "Not found")))
           (mkGotResponse 404 "Not found")); reflexivity.
Defined.

(** The example of C8: the document built from the example answer
    lists the release [1.3.0] before its release candidate, and the
    older release last. *)
Lemma registry_document_witness :
  outcome (Npm.loader (fun s => s) Npm.exampleSuccess "left-pad"
                      (Npm.OneUrl "https://registry.npmjs.org"))
  = Returns (mkMetadata (TagsObject {[ "latest" := "1.3.0" ]})
                        ["1.3.0"; "1.3.0-rc.1"; "1.0.0"]).
Proof.
  refine (proj1 (proj1 (proj2 (proj2
            (proj1 (proj2 (registry_document
                             (fun s => s) Npm.exampleSuccess ∅ 0
                             (Npm.OneUrl "https://registry.npmjs.org")
                             "left-pad" 600
                             (Npm.mkResponse (Some Npm.exampleBody)) _))
                   Npm.exampleBody ["1.0.0"; "1.3.0"; "1.3.0-rc.1"] _ _)))
            _)); vm_compute; reflexivity.
Defined.

(** C8 as the specification states it fails in two ways.  On an answer
    with a key that is no semantic version, here the keys [1.0.0] and
    [next]: no document is built, the loader throws.  On keys with
    numeric pre-release identifiers above [MAX_SAFE_INTEGER]: the
    package compares them as doubles, for which the two identifiers
    here are the same number, so that the document lists the keys in
    the order of the answer, the one of lower precedence first. *)
Lemma registry_document_as_specified_fails :
  outcome (Npm.loader (fun s => s) Handlers.exampleMixed "left-pad"
                      (Npm.OneUrl "https://registry.npmjs.org"))
  = Throws (TypeError "Invalid Version: next")
  ∧ outcome (Npm.loader (fun s => s) Handlers.exampleLarge "left-pad"
                        (Npm.OneUrl "https://registry.npmjs.org"))
    = Returns (mkMetadata TagsUndefined
                          ["1.0.0-9007199254740992.b";
                           "1.0.0-9007199254740993.a"])
  ∧ ¬ Semver.notBelow "1.0.0-9007199254740992.b" "1.0.0-9007199254740993.a".
Proof.
  split; [vm_compute; reflexivity|]. split; [vm_compute; reflexivity|].
  intros (x & y & Hx & Hy & H).
  vm_compute in Hx. vm_compute in Hy.
  injection Hx as <-. injection Hy as <-. apply H.
  right. right. right. repeat split. simpl. left. reflexivity.
Qed.

(** ** The retried fetch of the file listing *)

Section FileListing.
Import Files SharedCache SharedCacheFacts.

Variable got : string → nat → Completion GotError (list (string * string)).

Lemma attempt_retry settlement e :
  attempt settlement = Retry e
  ↔ settlement = Throws e ∧ errorClass e = ParseError.
Proof.
  unfold attempt. destruct settlement as [b|e'].
  { split; [discriminate|intros [H _]; discriminate]. }
  destruct (errorClass e') eqn:C.
  - destruct (response e') as [r|]; [destruct (statusCode r =? 403)|];
      (split; [discriminate|intros [[= ->] H]; congruence]).
  - split; [intros [= ->]; auto|intros [[= ->] _]; reflexivity].
  - split; [discriminate|intros [[= ->] H]; congruence].
  - split; [discriminate|intros [[= ->] H]; congruence].
Qed.

(** The attempts of [promiseRetry]: at most [retries + 1], all with the
    same request; every attempt but the last asked for a retry; the last
    one settled the promise, or asked for a retry when none was left. *)
Lemma promiseRetry_attempts url : ∀ retries number reqs c,
  promiseRetry got url retries number = (reqs, c) →
  (1 <= length reqs <= retries + 1)%nat
  ∧ Forall (eq (GotRequest url true 30000)) reqs
  ∧ (∀ k, (k + 1 < length reqs)%nat →
          ∃ e, attempt (got url (number + k)) = Retry e)
  ∧ (attempt (got url (number + length reqs - 1)) = Settles c
     ∨ ∃ e, attempt (got url (number + length reqs - 1)) = Retry e
            ∧ length reqs = (retries + 1)%nat
            ∧ c = Throws (ThrownGot e)).
Proof.
  induction retries as [|retries IH]; intros number reqs c; simpl.
  - destruct (attempt (got url number)) as [c'|e] eqn:A;
      intros [= <- <-]; simpl;
      (split; [lia|]); (split; [repeat constructor|]);
      (split; [intros k Hk; lia|]);
      replace (number + 1 - 1)%nat with number by lia; eauto.
  - destruct (attempt (got url number)) as [c'|e] eqn:A.
    + intros [= <- <-]; simpl.
      (split; [lia|]); (split; [repeat constructor|]);
      (split; [intros k Hk; lia|]).
      replace (number + 1 - 1)%nat with number by lia; eauto.
    + destruct (promiseRetry got url retries (S number)) as [reqs' c'] eqn:P.
      intros [= <- <-].
      destruct (IH (S number) reqs' c' P) as (Hlen & Hall & Hretry & Hlast).
      simpl. split; [lia|]. split; [now constructor|]. split.
      * intros [|k] Hk.
        -- exists e. now replace (number + 0)%nat with number by lia.
        -- destruct (Hretry k) as [e' He']; [lia|]. exists e'.
           now replace (number + S k)%nat with (S number + k)%nat by lia.
      * replace (number + S (length reqs') - 1)%nat
          with (S number + length reqs' - 1)%nat by lia.
        destruct Hlast as [Hs|(e' & He' & Hn & Hc)]; [now left|].
        right. exists e'. repeat split; auto; lia.
Qed.

(** C4, as amended.  The fetch of the file listing makes at most three
    attempts (two retries), each a [got] request with JSON parsing and a
    timeout of 30 seconds, and an attempt is followed by another one only
    when it failed with a [ParseError].  The last attempt decides: a
    response gives the picked listing; an [HTTPError] with status 403
    gives the value [{ status, message }] with the status code and the
    body of the response; any other [HTTPError], a timeout or a request
    error is thrown as it is, without retry; a [ParseError] on the third
    attempt is thrown.  A value the loader resolves with, the listing or
    the 403 value, is stored by the cache as a success. *)
Theorem file_listing_fetch (url : string) :
  let run := loader got url in
  let last := length (requests run) in
  (1 <= last <= 3)%nat
  ∧ Forall (eq (GotRequest url true 30000)) (requests run)
  ∧ effects run = []
  ∧ (∀ k, (k + 1 < last)%nat →
          ∃ e, got url (1 + k) = Throws e ∧ errorClass e = ParseError)
  ∧ (∀ listing, got url last = Returns listing →
       outcome run
       = Returns (Listing (Lodash.pick listing ["default"; "files"])))
  ∧ (∀ e r, got url last = Throws e → errorClass e = HTTPError →
            response e = Some r → statusCode r = 403 →
            outcome run = Returns (Refused 403 (body r)))
  ∧ (∀ e, got url last = Throws e → errorClass e ≠ ParseError →
          (∀ r, errorClass e = HTTPError → response e = Some r →
                statusCode r ≠ 403) →
          outcome run = Throws (ThrownGot e))
  ∧ (∀ e, got url last = Throws e → errorClass e = ParseError →
          last = 3%nat ∧ outcome run = Throws (ThrownGot e))
  ∧ (∀ st now defaultMaxAge v,
       fresh st now url = None → outcome run = Returns v →
       let r := get st now url run defaultMaxAge in
       result r = Returns v
       ∧ entries r !! url
         = Some (mkEntry (Success v) (now + defaultMaxAge))).
Proof.
  intros run last.
  assert (Hrun : ∃ reqs c, promiseRetry got url 2 1 = (reqs, c)
                           ∧ run = mkRun reqs [] c).
  { unfold run, loader. destruct (promiseRetry got url 2 1) as [reqs c].
    now exists reqs, c. }
  destruct Hrun as (reqs & c & P & Hrun).
  destruct (promiseRetry_attempts url 2 1 reqs c P)
    as (Hlen & Hall & Hretry & Hlast).
  assert (Hreqs : requests run = reqs) by now rewrite Hrun.
  assert (Hout : outcome run = c) by now rewrite Hrun.
  assert (Heff : effects run = []) by now rewrite Hrun.
  unfold last. rewrite Hreqs, Hout.
  replace (1 + length reqs - 1)%nat with (length reqs) in Hlast by lia.
  split; [lia|]. split; [exact Hall|]. split; [exact Heff|].
  split.
  { intros k Hk. destruct (Hretry k Hk) as [e He].
    exists e. now apply attempt_retry. }
  split.
  { intros listing G. rewrite G in Hlast.
    destruct Hlast as [[= <-]|(e & He & _)]; [reflexivity|discriminate]. }
  split.
  { intros e r G C R S. rewrite G in Hlast. unfold attempt in Hlast.
    rewrite C, R, S in Hlast. simpl in Hlast.
    destruct Hlast as [[= <-]|(e' & He & _)]; [reflexivity|discriminate]. }
  split.
  { intros e G C H. destruct Hlast as [Hs|(e' & He & _)].
    - rewrite G in Hs. unfold attempt in Hs.
      destruct (errorClass e) eqn:Ce; try congruence.
      destruct (response e) as [r|] eqn:R; [|congruence].
      destruct (Z.eqb_spec (statusCode r) 403) as [E|_]; [|congruence].
      now destruct (H r eq_refl eq_refl).
    - apply attempt_retry in He. rewrite G in He.
      destruct He as [[= ->] He]. congruence. }
  split.
  { intros e G C.
    assert (A : attempt (got url (length reqs)) = Retry e)
      by (apply attempt_retry; auto).
    rewrite A in Hlast.
    destruct Hlast as [[=]|(e' & [= <-] & Hn & ->)]. split; [lia|reflexivity]. }
  intros st now defaultMaxAge v F E.
  destruct (get_after_success st now url run defaultMaxAge v F)
    as (Hres & Hentry & _).
  - now rewrite Heff.
  - now rewrite Hout.
  - split; assumption.
Qed.
End FileListing.

(** C4 as the specification states it fails on an HTTP error other than
    403: on a 404 the loader is rejected with the [HTTPError], it does not
    resolve with a value made of the status and the body. *)
Lemma file_listing_not_found_is_thrown :
  ¬ ∃ v, outcome (Files.loader Files.exampleNotFound
                               "https://cdn.jsdelivr.net/npm/left-pad@1.3.0/+private-json")
         = Returns v.
Proof. intros [v H]. now vm_compute in H. Qed.

(** An instance of C4: a 403 of the listing endpoint becomes a value. *)
Lemma file_listing_fetch_witness :
  outcome (Files.loader Files.exampleForbidden
                        "https://cdn.jsdelivr.net/npm/left-pad@1.3.0/+private-json")
  = Returns (Files.Refused 403 "Package size exceeded").
Proof.
  destruct (file_listing_fetch
              Files.exampleForbidden
              "https://cdn.jsdelivr.net/npm/left-pad@1.3.0/+private-json")
    as (_ & _ & _ & _ & _ & H & _).
  apply (H (mkGotError HTTPError
                       (Some (mkGotResponse 403 "Package size exceeded")))
           (mkGotResponse 403 "Package size exceeded")); reflexivity.
Defined.

(** An instance of C1: a pre-release that is an entry of [versions] is
    returned as it is. *)
Lemma resolution_order_witness :
  PackageRequest.getResolvedVersion PackageRequest.exampleDocument "1.0.0-beta"
  = Returns (JsString "1.0.0-beta").
Proof.
  apply (proj1 (resolution_order PackageRequest.exampleDocument "1.0.0-beta")).
  simpl. tauto.
Defined.

(** An instance of C10: a name without a leading [v] is kept. *)
Lemma strip_one_v_and_drop_empty_witness :
  GitHub.stripV (GitHub.mkTag "1.1.0" "b") = GitHub.mkTag "1.1.0" "b".
Proof.
  destruct strip_one_v_and_drop_empty as (_ & _ & H & _).
  apply H. intros s. simpl. discriminate.
Defined.

(** When the answer of the registry has no [dist-tags], the own-property
    test of the resolution is applied to [undefined] and throws. *)
Lemma resolution_throws_without_tags :
  PackageRequest.getResolvedVersion (mkMetadata TagsUndefined ["1.0.0"]) "latest"
  = Throws (TypeError "Cannot convert undefined or null to object").
Proof. now vm_compute. Qed.

(** * Further properties *)

(** ** The tree of files *)

Module FileTreeFacts.
Import FileTree.

(** *** Strings *)

Lemma append_nil (s : string) : "" +:+ s = s.
Proof. reflexivity. Qed.

Lemma append_cons c (s t : string) : String c s +:+ t = String c (s +:+ t).
Proof. reflexivity. Qed.

Lemma split_nonempty s : split s ≠ [].
Proof.
  destruct s as [|c r]; simpl; [discriminate|].
  destruct (c =? "/")%char; [discriminate|].
  destruct (split r); discriminate.
Qed.

Lemma split_slashFree s : Forall (fun d => slashFree d = true) (split s).
Proof.
  induction s as [|c r IH]; simpl; [repeat constructor|].
  destruct (Ascii.eqb_spec c "/") as [->|Hc].
  - constructor; [reflexivity|exact IH].
  - destruct (split r) as [|w ws]; [repeat constructor|].
    + simpl. destruct (Ascii.eqb_spec c "/"); [contradiction|reflexivity].
    + inversion_clear IH. constructor; [|assumption].
      simpl. destruct (Ascii.eqb_spec c "/"); [contradiction|assumption].
Qed.

(** Cutting at the first slash, as one call of [fn] does, and going on
    with the rest reads the same names as splitting at every slash. *)
Lemma split_cut name :
  split name
  = match cut name with
    | (d, Some rest) => d :: split (substr1 rest)
    | (f, None) => [f]
    end.
Proof.
  induction name as [|c r IH]; simpl; [reflexivity|].
  destruct (c =? "/")%char; [reflexivity|].
  rewrite IH. destruct (cut r) as [a [rest|]]; reflexivity.
Qed.

Lemma cut_length s d rest :
  cut s = (d, Some rest) → (String.length rest ≤ String.length s)%nat.
Proof.
  revert d. induction s as [|c r IH]; intros d E; simpl in E; [discriminate|].
  destruct (c =? "/")%char.
  - injection E as _ <-. reflexivity.
  - destruct (cut r) as [a [x|]] eqn:Ec; [|discriminate].
    injection E as _ <-. specialize (IH a eq_refl). simpl. lia.
Qed.

Lemma slashFree_not_append v u w :
  slashFree v = true → v ≠ u +:+ "/" +:+ w.
Proof.
  revert u. induction v as [|c v IH]; intros u Hv E.
  - destruct u; discriminate.
  - simpl in Hv. apply andb_true_iff in Hv. destruct Hv as [Hc Hv].
    destruct u as [|c' u]; rewrite ?append_cons, ?append_nil in E.
    + injection E as -> _. discriminate.
    + injection E as _ E. now apply (IH u Hv).
Qed.

Lemma append_slash_inj a b x y :
  slashFree x = true → slashFree y = true →
  a +:+ "/" +:+ x = b +:+ "/" +:+ y → a = b ∧ x = y.
Proof.
  intros Hx Hy. revert b.
  induction a as [|c a IH]; intros [|c' b] E;
    rewrite ?append_cons, ?append_nil in E.
  - injection E as ->. now split.
  - injection E as _ E. now destruct (slashFree_not_append x b y Hx).
  - injection E as _ E. symmetry in E.
    now destruct (slashFree_not_append y a x Hy).
  - injection E as -> E. destruct (IH b E) as [-> ->]. now split.
Qed.

Lemma keyOf_snoc pre d : keyOf (pre ++ [d]) = keyOf pre +:+ "/" +:+ d.
Proof. unfold keyOf. now rewrite fold_left_app. Qed.

Lemma keyOf_long ds :
  ∃ c r, keyOf ds = String c r ∧ (ds ≠ [] → r ≠ EmptyString).
Proof.
  induction ds as [|d ds IH] using rev_ind.
  - exists "/"%char, EmptyString. split; [reflexivity|congruence].
  - rewrite keyOf_snoc. destruct IH as (c & r & -> & _).
    exists c, (r +:+ "/" +:+ d). split; [reflexivity|].
    intros _. destruct r; discriminate.
Qed.

Lemma arrayOf_atOf ds : arrayOf ds = atOf (keyOf ds).
Proof.
  destruct (keyOf_long ds) as (c & r & E & H). unfold atOf. rewrite E.
  destruct ds as [|d ds]; [now injection E as <- <-|].
  unfold arrayOf. rewrite E.
  destruct (String.eqb_spec (String c r) "/") as [[= -> ->]|]; [|reflexivity].
  now destruct H.
Qed.

Lemma keyOf_nonempty ds : keyOf ds ≠ EmptyString.
Proof. destruct (keyOf_long ds) as (c & r & -> & _). discriminate. Qed.

Lemma keyOf_root d q : "/" ≠ keyOf q +:+ "/" +:+ d.
Proof.
  destruct (keyOf_long q) as (c & r & -> & _). rewrite append_cons.
  intros [= _ E]. destruct r; discriminate E.
Qed.

(** The key of a directory tells the names that lead to it. *)
Lemma keyOf_inj ds : ∀ ds',
  Forall (fun d => slashFree d = true) ds →
  Forall (fun d => slashFree d = true) ds' →
  keyOf ds = keyOf ds' → ds = ds'.
Proof.
  induction ds as [|d p IH] using rev_ind;
    intros ds'; induction ds' as [|d' q _] using rev_ind; intros Hs Hs' E.
  - reflexivity.
  - rewrite keyOf_snoc in E. now destruct (keyOf_root d' q).
  - rewrite keyOf_snoc in E. symmetry in E. now destruct (keyOf_root d p).
  - rewrite !keyOf_snoc in E.
    apply Forall_app in Hs. destruct Hs as [Hp Hd].
    apply Forall_app in Hs'. destruct Hs' as [Hq Hd'].
    inversion_clear Hd as [|? ? Hd0 _]. inversion_clear Hd' as [|? ? Hd0' _].
    destruct (append_slash_inj _ _ _ _ Hd0 Hd0' E) as [Ek ->].
    now rewrite (IH q Hp Hq Ek).
Qed.

Lemma arrayOf_inj ds ds' :
  Forall (fun d => slashFree d = true) ds →
  Forall (fun d => slashFree d = true) ds' →
  arrayOf ds = arrayOf ds' → ds = ds'.
Proof.
  intros Hs Hs' E. apply keyOf_inj; try assumption.
  destruct ds, ds'; try discriminate E; [reflexivity|].
  now injection E.
Qed.

(** *** The calls of [fn] *)

Lemma fn_unfold fuel b e at_ dir :
  fn fuel b e at_ dir
  = match cut (substr1 (name e)) with
    | (fileName, None) => push b at_ fileName e
    | (dirName, Some rest) =>
        match fuel with
        | O => b
        | S fuel' =>
            fn fuel' (enter b at_ dir dirName)
               (mkFileEntry rest (hash e) (time e) (size e))
               (Some (dir +:+ "/" +:+ dirName)) (dir +:+ "/" +:+ dirName)
        end
    end.
Proof. destruct fuel; reflexivity. Qed.

Lemma walk_entry b at_ dir path e e' :
  hash e = hash e' → time e = time e' → size e = size e' →
  walk b at_ dir path e = walk b at_ dir path e'.
Proof.
  intros Hh Ht Hs. revert b at_ dir.
  induction path as [|x r IH]; intros b at_ dir; [reflexivity|].
  destruct r as [|y r].
  - simpl. unfold push. now rewrite Hh, Ht, Hs.
  - apply IH.
Qed.

(** The length of the name is enough fuel: [fn] makes one call for each
    name of the path. *)
Lemma fn_walk fuel b e at_ dir :
  (String.length (name e) ≤ fuel)%nat →
  fn fuel b e at_ dir = walk b at_ dir (pathOf e) e.
Proof.
  revert b e at_ dir.
  induction fuel as [|fuel IH]; intros b e at_ dir Hl;
    rewrite fn_unfold; unfold pathOf; rewrite split_cut;
    destruct (cut (substr1 (name e))) as [d [rest|]] eqn:Ec;
    try reflexivity.
  - destruct (name e); [discriminate Ec|simpl in Hl; lia].
  - pose proof (cut_length _ _ _ Ec) as Hr.
    assert (String.length rest ≤ fuel)%nat as Hf.
    { destruct (name e); [discriminate Ec|]. simpl in *. lia. }
    rewrite (IH _ (mkFileEntry rest (hash e) (time e) (size e)) _ _ Hf).
    unfold pathOf. simpl name.
    pose proof (split_nonempty (substr1 rest)) as Hn.
    destruct (split (substr1 rest)) as [|y r] eqn:Es; [contradiction|].
    transitivity (walk (enter b at_ dir d) (Some (dir +:+ "/" +:+ d))
                       (dir +:+ "/" +:+ d) (y :: r) e);
      [now apply walk_entry|reflexivity].
Qed.

(** *** Arrays *)

Lemma In_splice {A} i (x y : A) l : In y (splice i x l) ↔ y = x ∨ In y l.
Proof.
  assert (In y l ↔ In y (take i l) ∨ In y (drop i l)) as ->
    by (rewrite <- in_app_iff, take_drop; reflexivity).
  unfold splice. rewrite in_app_iff. simpl. intuition congruence.
Qed.

Lemma In_addDirectory l d y : In y (addDirectory l d) ↔ y = d ∨ In y l.
Proof. apply In_splice. Qed.

Lemma findIndex_files ds fs :
  forallb (fun i => negb (isFile i)) ds = true → forallb isFile fs = true →
  findIndex isFile (ds ++ fs)
  = match fs with [] => None | _ => Some (length ds) end.
Proof.
  intros Hd Hf. induction ds as [|x ds IH]; simpl in *.
  - destruct fs as [|f fs]; [reflexivity|]. simpl in Hf.
    apply andb_true_iff in Hf. destruct Hf as [Hf _]. simpl. now rewrite Hf.
  - apply andb_true_iff in Hd. destruct Hd as [Hx Hd].
    apply negb_true_iff in Hx. rewrite Hx, (IH Hd). now destruct fs.
Qed.

Lemma addDirectory_files ds fs d :
  forallb (fun i => negb (isFile i)) ds = true → forallb isFile fs = true →
  addDirectory (ds ++ fs) d
  = match fs with [] => d :: ds | _ => (ds ++ d :: fs)%list end.
Proof.
  intros Hd Hf. unfold addDirectory. rewrite (findIndex_files _ _ Hd Hf).
  destruct fs as [|f fs].
  - now rewrite app_nil_r.
  - unfold splice. simpl default. now rewrite take_app_length, drop_app_length.
Qed.

Lemma directoriesFirst_nil : directoriesFirst [].
Proof. now exists [], []. Qed.

Lemma directoriesFirst_push l f h t s :
  directoriesFirst l → directoriesFirst (l ++ [FileItem f h t s]).
Proof.
  intros (ds & fs & -> & Hf & Hd).
  exists ds, (fs ++ [FileItem f h t s])%list. split; [now rewrite app_assoc|].
  split; [|assumption]. rewrite forallb_app, Hf. reflexivity.
Qed.

Lemma directoriesFirst_add l k :
  directoriesFirst l → directoriesFirst (addDirectory l (DirectoryItem k)).
Proof.
  intros (ds & fs & -> & Hf & Hd). rewrite (addDirectory_files _ _ _ Hd Hf).
  destruct fs as [|f fs].
  - exists (DirectoryItem k :: ds), []. now rewrite app_nil_r.
  - exists (ds ++ [DirectoryItem k])%list, (f :: fs).
    split; [now rewrite <- app_assoc|]. split; [assumption|].
    rewrite forallb_app, Hd. reflexivity.
Qed.

(** *** Changes of one array *)

Lemma filesAt_update b at_ f at' :
  filesAt (update b at_ f) at' = filesAt b at'
  ∨ (at' = at_ ∧ present b at_
     ∧ filesAt (update b at_ f) at' = f (filesAt b at')).
Proof.
  destruct at_ as [k|], at' as [k'|]; simpl; auto.
  rewrite lookup_alter. destruct (decide (k = k')) as [<-|]; [|now left].
  destruct (dirs b !! k) as [dd|] eqn:E; simpl; [|now left].
  right. repeat split; eauto.
Qed.

Lemma filesAt_update_eq b at_ f :
  present b at_ → filesAt (update b at_ f) at_ = f (filesAt b at_).
Proof.
  destruct at_ as [k|]; simpl; [|reflexivity].
  intros [dd E]. now rewrite lookup_alter_eq, E.
Qed.

Lemma dirs_update_fwd b at_ f k dd :
  dirs b !! k = Some dd →
  ∃ dd', dirs (update b at_ f) !! k = Some dd' ∧ dirName dd' = dirName dd.
Proof.
  intros E. destruct at_ as [k'|]; simpl; [|eauto].
  rewrite lookup_alter. destruct (decide (k' = k)) as [->|]; [|eauto].
  rewrite E. simpl. eauto.
Qed.

Lemma dirs_update_bwd b at_ f k dd' :
  dirs (update b at_ f) !! k = Some dd' →
  ∃ dd, dirs b !! k = Some dd ∧ dirName dd = dirName dd'.
Proof.
  destruct at_ as [k'|]; simpl; [|eauto].
  rewrite lookup_alter. destruct (decide (k' = k)) as [->|]; [|eauto].
  destruct (dirs b !! k) as [dd|]; simpl; [|discriminate].
  intros [= <-]. eauto.
Qed.

Lemma grows_refl b : grows b b.
Proof. split; eauto. Qed.

Lemma grows_trans b1 b2 b3 : grows b1 b2 → grows b2 b3 → grows b1 b3.
Proof.
  intros [F1 D1] [F2 D2]. split; [auto|].
  intros k dd E. destruct (D1 _ _ E) as (dd' & E' & N').
  destruct (D2 _ _ E') as (dd'' & E'' & N''). exists dd''. split; congruence.
Qed.

Lemma grows_update b at_ f :
  (∀ l i, In i l → In i (f l)) → grows b (update b at_ f).
Proof.
  intros Hf. split.
  - intros at' i Hi.
    destruct (filesAt_update b at_ f at') as [->|(_ & _ & ->)]; auto.
  - intros k dd. apply dirs_update_fwd.
Qed.

Lemma grows_insert b k dd :
  dirs b !! k = None → grows b (mkBuilder (tree b) (<[k := dd]> (dirs b))).
Proof.
  intros E. split.
  - intros [k'|] i; simpl; [|auto].
    rewrite lookup_insert. destruct (decide (k = k')) as [<-|]; [|auto].
    now rewrite E.
  - intros k' dd' E'. simpl. rewrite lookup_insert.
    destruct (decide (k = k')) as [<-|]; [congruence|eauto].
Qed.

Lemma grows_chain b b' ds : grows b b' → chain b ds → chain b' ds.
Proof.
  intros [F D] C p d q E. destruct (C p d q E) as (Hi & dd & Hd & Hn).
  split; [auto|]. destruct (D _ _ Hd) as (dd' & Hd' & Hn').
  exists dd'. split; congruence.
Qed.

Lemma filesAt_insert b k dd at' :
  filesAt (mkBuilder (tree b) (<[k := dd]> (dirs b))) at'
  = if decide (at' = Some k) then files dd else filesAt b at'.
Proof.
  destruct at' as [k'|]; simpl.
  - rewrite lookup_insert. destruct (decide (k = k')) as [<-|Hn].
    + now rewrite decide_True.
    + rewrite decide_False; [reflexivity|congruence].
  - reflexivity.
Qed.

Lemma dirs_grows b b' k : grows b b' → is_Some (dirs b !! k) →
  is_Some (dirs b' !! k).
Proof. intros [_ D] [dd E]. destruct (D k dd E) as (dd' & E' & _). eauto. Qed.

(** *** The two steps of [fn] *)

Lemma grows_push b at_ f e : grows b (push b at_ f e).
Proof. apply grows_update. intros l i Hi. apply in_or_app. now left. Qed.

Lemma grows_create b at_ k dd :
  dirs b !! k = None →
  grows b (update (mkBuilder (tree b) (<[k := dd]> (dirs b))) at_
                  (fun l => addDirectory l (DirectoryItem k))).
Proof.
  intros E.
  apply (grows_trans _ (mkBuilder (tree b) (<[k := dd]> (dirs b))));
    [apply grows_insert; exact E|apply grows_update].
  intros l i Hi. apply In_addDirectory. now right.
Qed.

Lemma grows_enter b at_ dir d : grows b (enter b at_ dir d).
Proof.
  unfold enter.
  destruct (bool_decide_reflect (is_Some (dirs b !! (dir +:+ "/" +:+ d))))
    as [|Hn]; [apply grows_refl|].
  apply grows_create. now apply eq_None_not_Some.
Qed.

Lemma ordered_update b at_ f :
  (∀ l, directoriesFirst l → directoriesFirst (f l)) →
  ordered b → ordered (update b at_ f).
Proof.
  intros Hf Hb at'.
  destruct (filesAt_update b at_ f at') as [->|(_ & _ & ->)]; auto.
Qed.

Lemma ordered_push b at_ f e : ordered b → ordered (push b at_ f e).
Proof. apply ordered_update. intros l. apply directoriesFirst_push. Qed.

Lemma ordered_enter b at_ dir d : ordered b → ordered (enter b at_ dir d).
Proof.
  intros Hb. unfold enter.
  destruct (bool_decide (is_Some (dirs b !! (dir +:+ "/" +:+ d))));
    [assumption|].
  apply ordered_update; [intros l; apply directoriesFirst_add|].
  intros [k|]; simpl; [|apply (Hb None)].
  rewrite lookup_insert. destruct (decide (dir +:+ "/" +:+ d = k));
    [apply directoriesFirst_nil|apply (Hb (Some k))].
Qed.

Lemma ordered_walk e path : ∀ b at_ dir,
  ordered b → ordered (walk b at_ dir path e).
Proof.
  induction path as [|x r IH]; intros b at_ dir Hb; [assumption|].
  destruct r as [|y r]; [now apply ordered_push|].
  apply IH. now apply ordered_enter.
Qed.

(** *** The directories stay registered *)

Lemma registered_grows b b' :
  registered b → grows b b' → sameDirs b b' → registered b'.
Proof.
  intros R [F D] S k dd' E'. destruct (S _ _ E') as (dd & E & N).
  destruct (R _ _ E) as (Hs & dir & Hd & Hk & Hi). rewrite <- N.
  split; [assumption|]. exists dir. repeat split; auto.
Qed.

Lemma registered_push b at_ f e : registered b → registered (push b at_ f e).
Proof.
  intros R. eapply registered_grows; [exact R|apply grows_push|].
  intros k dd'. apply dirs_update_bwd.
Qed.

Lemma enter_spec b at_ dir d :
  registered b → present b at_ → at_ = atOf dir → dir ≠ EmptyString →
  slashFree d = true →
  registered (enter b at_ dir d)
  ∧ In (DirectoryItem (dir +:+ "/" +:+ d)) (filesAt (enter b at_ dir d) at_)
  ∧ ∃ dd, dirs (enter b at_ dir d) !! (dir +:+ "/" +:+ d) = Some dd
          ∧ dirName dd = d.
Proof.
  intros R V A Hdir Hd. unfold enter.
  destruct (bool_decide_reflect (is_Some (dirs b !! (dir +:+ "/" +:+ d))))
    as [[dd E]|Hn].
  - split; [assumption|]. destruct (R _ _ E) as (Hs & dir' & Hd' & Hk & Hi).
    destruct (append_slash_inj _ _ _ _ Hd Hs Hk) as [<- Hname].
    rewrite A. eauto.
  - apply eq_None_not_Some in Hn.
    pose proof (grows_create b at_ _ (mkDirectory d []) Hn) as G.
    set (abs := dir +:+ "/" +:+ d) in *.
    set (b0 := mkBuilder (tree b) (<[abs := mkDirectory d []]> (dirs b))) in *.
    assert (present b0 at_) as V0.
    { destruct at_ as [k|]; simpl; [|trivial]. rewrite lookup_insert.
      destruct (decide (abs = k)); eauto. }
    assert (In (DirectoryItem abs)
               (filesAt (update b0 at_
                                (fun l => addDirectory l (DirectoryItem abs)))
                        at_)) as Hin.
    { rewrite filesAt_update_eq by assumption. apply In_addDirectory.
      now left. }
    split; [|split; [exact Hin|]].
    + intros k dd' E'. destruct (dirs_update_bwd _ _ _ _ _ E') as (dd & E & N).
      simpl in E. rewrite lookup_insert in E.
      destruct (decide (abs = k)) as [<-|].
      * injection E as <-. simpl in N. rewrite <- N. split; [assumption|].
        exists dir. rewrite <- A. repeat split; auto.
      * destruct (R _ _ E) as (Hs & dir' & Hd' & Hk & Hi). rewrite <- N.
        split; [assumption|]. exists dir'. repeat split; auto.
        now apply G.
    + apply (dirs_update_fwd b0 _ _ abs (mkDirectory d [])). simpl.
      apply lookup_insert_eq.
Qed.

Lemma walk_cons b at_ dir d rest e :
  rest ≠ [] →
  walk b at_ dir (d :: rest) e
  = walk (enter b at_ dir d) (Some (dir +:+ "/" +:+ d)) (dir +:+ "/" +:+ d)
         rest e.
Proof. destruct rest; [congruence|reflexivity]. Qed.

Lemma arrayOf_snoc pre d :
  arrayOf (pre ++ [d]) = Some (keyOf pre +:+ "/" +:+ d).
Proof.
  unfold arrayOf. destruct (pre ++ [d])%list eqn:E;
    [destruct pre; discriminate|].
  now rewrite <- E, keyOf_snoc.
Qed.

(** The calls of [fn] for one entry, started in the directory reached by
    [pre]: the file ends up in the array of the directory reached by the
    names before it, and each of these directories is an element of the
    array of its parent. *)
Lemma walk_spec e ds : ∀ f pre b,
  Forall (fun d => slashFree d = true) ds →
  registered b → present b (arrayOf pre) →
  registered (walk b (arrayOf pre) (keyOf pre) (ds ++ [f]) e)
  ∧ grows b (walk b (arrayOf pre) (keyOf pre) (ds ++ [f]) e)
  ∧ In (FileItem f (hash e) (time e) (size e))
       (filesAt (walk b (arrayOf pre) (keyOf pre) (ds ++ [f]) e)
                (arrayOf (pre ++ ds)))
  ∧ ∀ p d q, ds = (p ++ d :: q)%list →
      In (DirectoryItem (keyOf (pre ++ p ++ [d])))
         (filesAt (walk b (arrayOf pre) (keyOf pre) (ds ++ [f]) e)
                  (arrayOf (pre ++ p)))
      ∧ ∃ dd, dirs (walk b (arrayOf pre) (keyOf pre) (ds ++ [f]) e)
                !! keyOf (pre ++ p ++ [d]) = Some dd
              ∧ dirName dd = d.
Proof.
  induction ds as [|d ds IH]; intros f pre b Hs R V.
  - simpl. split; [now apply registered_push|].
    split; [apply grows_push|]. split.
    + rewrite app_nil_r. unfold push. rewrite filesAt_update_eq by assumption.
      apply in_or_app. right. now left.
    + intros [|x p] d q E; discriminate E.
  - inversion_clear Hs as [|? ? Hd Hs'].
    rewrite <- app_comm_cons, walk_cons by (destruct ds; discriminate).
    destruct (enter_spec b (arrayOf pre) (keyOf pre) d R V
                         (arrayOf_atOf pre) (keyOf_nonempty pre) Hd)
      as (R1 & Hin1 & dd1 & E1 & N1).
    pose proof (grows_enter b (arrayOf pre) (keyOf pre) d) as G1.
    rewrite <- (arrayOf_snoc pre d), <- (keyOf_snoc pre d).
    set (b1 := enter b (arrayOf pre) (keyOf pre) d) in *.
    assert (present b1 (arrayOf (pre ++ [d]))) as V1.
    { rewrite arrayOf_snoc. simpl. eauto. }
    destruct (IH f (pre ++ [d])%list b1 Hs' R1 V1) as (R' & G' & F' & C').
    set (b' := walk b1 (arrayOf (pre ++ [d])) (keyOf (pre ++ [d]))
                    (ds ++ [f]) e) in *.
    split; [assumption|]. split; [now apply (grows_trans b b1 b')|].
    split; [now rewrite <- app_assoc in F'|].
    intros [|x p] d0 q E; injection E as <- E.
    + simpl. rewrite app_nil_r, keyOf_snoc. destruct G' as [GF GD].
      split; [now apply GF|].
      destruct (GD _ _ E1) as (dd' & E' & N').
      exists dd'. split; congruence.
    + specialize (C' p d0 q E).
      now rewrite <- (app_assoc pre [d] (p ++ [d0])),
                  <- (app_assoc pre [d] p) in C'.
Qed.

(** *** The files of an array *)

Lemma filesAt_update_ne b at_ f at' :
  at' ≠ at_ → filesAt (update b at_ f) at' = filesAt b at'.
Proof.
  intros Hn. now destruct (filesAt_update b at_ f at') as [E|(E & _)].
Qed.

Lemma filesOf_app l k : filesOf (l ++ k) = (filesOf l ++ filesOf k)%list.
Proof. apply List.filter_app. Qed.

Lemma filesOf_addDirectory l k :
  filesOf (addDirectory l (DirectoryItem k)) = filesOf l.
Proof.
  unfold addDirectory, splice. rewrite filesOf_app.
  change (filesOf (DirectoryItem k
                     :: drop (default 0%nat (findIndex isFile l)) l))
    with (filesOf (drop (default 0%nat (findIndex isFile l)) l)).
  now rewrite <- filesOf_app, take_drop.
Qed.

Lemma filesOf_push b at_ x e at' :
  present b at_ →
  filesOf (filesAt (push b at_ x e) at')
  = (filesOf (filesAt b at')
       ++ if decide (at' = at_)
          then [FileItem x (hash e) (time e) (size e)] else [])%list.
Proof.
  intros V. unfold push. destruct (decide (at' = at_)) as [->|Hn].
  - rewrite filesAt_update_eq by assumption. apply filesOf_app.
  - rewrite filesAt_update_ne by assumption. now rewrite app_nil_r.
Qed.

Lemma filesOf_enter b at_ dir d at' :
  filesOf (filesAt (enter b at_ dir d) at') = filesOf (filesAt b at').
Proof.
  unfold enter.
  destruct (bool_decide_reflect (is_Some (dirs b !! (dir +:+ "/" +:+ d))))
    as [|Hn]; [reflexivity|].
  apply eq_None_not_Some in Hn.
  set (abs := dir +:+ "/" +:+ d) in *.
  set (b0 := mkBuilder (tree b) (<[abs := mkDirectory d []]> (dirs b))).
  assert (filesAt b0 at' = filesAt b at') as E0.
  { unfold b0. rewrite filesAt_insert.
    destruct (decide (at' = Some abs)) as [->|]; [|reflexivity].
    simpl. now rewrite Hn. }
  destruct (filesAt_update
              b0 at_ (fun l => addDirectory l (DirectoryItem abs)) at')
    as [->|(_ & _ & ->)]; [|rewrite filesOf_addDirectory]; now rewrite E0.
Qed.

Lemma enter_present b at_ dir d :
  present (enter b at_ dir d) (Some (dir +:+ "/" +:+ d)).
Proof.
  unfold enter. simpl.
  destruct (bool_decide_reflect (is_Some (dirs b !! (dir +:+ "/" +:+ d))))
    as [|Hn]; [assumption|].
  destruct (dirs_update_fwd
              (mkBuilder (tree b)
                         (<[dir +:+ "/" +:+ d := mkDirectory d []]> (dirs b)))
              at_
              (fun l => addDirectory l (DirectoryItem (dir +:+ "/" +:+ d)))
              (dir +:+ "/" +:+ d) (mkDirectory d []))
    as (dd' & E' & _); [apply lookup_insert_eq|eauto].
Qed.

Lemma filesOf_walk e ds : ∀ x pre b at',
  present b (arrayOf pre) →
  filesOf (filesAt (walk b (arrayOf pre) (keyOf pre) (ds ++ [x]) e) at')
  = (filesOf (filesAt b at')
       ++ if decide (at' = arrayOf (pre ++ ds))
          then [FileItem x (hash e) (time e) (size e)] else [])%list.
Proof.
  induction ds as [|d ds IH]; intros x pre b at' V.
  - simpl. rewrite app_nil_r. now apply filesOf_push.
  - rewrite <- app_comm_cons, walk_cons by (destruct ds; discriminate).
    rewrite <- (arrayOf_snoc pre d), <- (keyOf_snoc pre d).
    rewrite IH.
    + now rewrite filesOf_enter, <- app_assoc.
    + rewrite arrayOf_snoc. apply enter_present.
Qed.

(** *** The whole listing *)

Lemma path_last e :
  ∃ ds f, pathOf e = (ds ++ [f])%list
          ∧ Forall (fun d => slashFree d = true) ds.
Proof.
  unfold pathOf. pose proof (split_nonempty (substr1 (name e))) as Hn.
  pose proof (split_slashFree (substr1 (name e))) as Hs.
  destruct (split (substr1 (name e))) as [|f ds _] using rev_ind;
    [contradiction|].
  exists ds, f. split; [reflexivity|]. now apply Forall_app in Hs.
Qed.

Lemma build_snoc es e :
  build (es ++ [e]) = walk (build es) None "/" (pathOf e) e.
Proof.
  unfold build. rewrite fold_left_app. simpl. now apply fn_walk.
Qed.

Lemma registered_build es : registered (build es).
Proof.
  induction es as [|e es IH] using rev_ind.
  - intros k dd E. discriminate E.
  - rewrite build_snoc. destruct (path_last e) as (ds & f & -> & Hs).
    now apply (walk_spec e ds f [] (build es) Hs IH).
Qed.

Lemma grows_build es e : grows (build es) (build (es ++ [e])).
Proof.
  rewrite build_snoc. destruct (path_last e) as (ds & f & -> & Hs).
  now apply (walk_spec e ds f [] (build es) Hs (registered_build es)).
Qed.

(** *** Every directory once *)

Lemma directoryKeys_In l k : In k (directoryKeys l) ↔ In (DirectoryItem k) l.
Proof.
  unfold directoryKeys. rewrite in_flat_map. split.
  - intros ([f h t s|k'] & Hi & Hk); [destruct Hk|].
    destruct Hk as [->|[]]. exact Hi.
  - intros Hi. exists (DirectoryItem k). split; [exact Hi|now left].
Qed.

Lemma directoryKeys_splice i d l :
  Permutation (directoryKeys (splice i d l)) (directoryKeys (d :: l)).
Proof.
  apply Permutation_flat_map. unfold splice.
  rewrite <- (take_drop i l) at 3. symmetry. apply Permutation_middle.
Qed.

Lemma linked_push b at_ f e : linked b → linked (push b at_ f e).
Proof.
  intros L at'. destruct (L at') as [N D].
  pose proof (grows_push b at_ f e) as G. unfold push in *.
  destruct (filesAt_update
              b at_
              (fun l => (l ++ [FileItem f (hash e) (time e) (size e)])%list)
              at') as [->|(_ & _ & ->)].
  - split; [exact N|]. intros k Hk. eapply dirs_grows; eauto.
  - assert (directoryKeys
              (filesAt b at' ++ [FileItem f (hash e) (time e) (size e)])
            = directoryKeys (filesAt b at')) as ->.
    { unfold directoryKeys. rewrite flat_map_app. simpl. apply app_nil_r. }
    split; [exact N|]. intros k Hk. apply (dirs_grows b _ k G), D.
    apply in_app_or in Hk. destruct Hk as [Hk|[Hk|[]]];
      [exact Hk|discriminate Hk].
Qed.

Lemma linked_enter b at_ dir d : linked b → linked (enter b at_ dir d).
Proof.
  intros L. pose proof (grows_enter b at_ dir d) as G. unfold enter in *.
  destruct (bool_decide_reflect (is_Some (dirs b !! (dir +:+ "/" +:+ d))))
    as [|Hn]; [exact L|].
  set (abs := dir +:+ "/" +:+ d) in *.
  set (b0 := mkBuilder (tree b) (<[abs := mkDirectory d []]> (dirs b))) in *.
  assert (∀ at', List.NoDup (directoryKeys (filesAt b0 at'))
                 ∧ ∀ k, In (DirectoryItem k) (filesAt b0 at') →
                        is_Some (dirs b !! k)) as L0.
  { intros at'. unfold b0. rewrite filesAt_insert.
    destruct (decide (at' = Some abs)); [|apply L].
    split; [constructor|intros k []]. }
  intros at'. destruct (L0 at') as [N D].
  destruct (filesAt_update
              b0 at_ (fun l => addDirectory l (DirectoryItem abs)) at')
    as [->|(_ & _ & ->)].
  - split; [exact N|]. intros k Hk. eapply dirs_grows; eauto.
  - split.
    + unfold addDirectory.
      apply (Permutation_NoDup
               (Permutation_sym
                  (directoryKeys_splice _ (DirectoryItem abs) _))).
      simpl. constructor; [|exact N].
      intros Hin. apply directoryKeys_In in Hin. now apply Hn, D.
    + intros k Hk. apply In_addDirectory in Hk. destruct Hk as [[= ->]|Hk].
      * destruct (dirs_update_fwd
                    b0 at_ (fun l => addDirectory l (DirectoryItem abs)) abs
                    (mkDirectory d []))
          as (dd' & E' & _); [apply lookup_insert_eq|eauto].
      * eapply dirs_grows; eauto.
Qed.

Lemma linked_walk e path : ∀ b at_ dir,
  linked b → linked (walk b at_ dir path e).
Proof.
  induction path as [|x r IH]; intros b at_ dir Hb; [assumption|].
  destruct r as [|y r]; [now apply linked_push|].
  apply IH. now apply linked_enter.
Qed.

(** [getFiles] lists the directories before the files: in the tree and in
    every directory of it, no directory comes after a file. *)
Theorem directories_before_files entries at_ :
  directoriesFirst (filesAt (build entries) at_).
Proof.
  revert at_. change (ordered (build entries)).
  induction entries as [|e es IH] using rev_ind.
  - intros [k|]; apply directoriesFirst_nil.
  - rewrite build_snoc. now apply ordered_walk.
Qed.

(** [getFiles] loses no entry of the flat listing: the last name of the
    entry is a file, with the hash, time and size of the entry, in the
    array of the directory that the names before it lead to, and each of
    these directories is an element of the array of its parent, under
    its name. *)
Theorem entry_is_in_tree entries e :
  In e entries →
  ∃ ds f, pathOf e = (ds ++ [f])%list
          ∧ In (FileItem f (hash e) (time e) (size e))
               (filesAt (build entries) (arrayOf ds))
          ∧ chain (build entries) ds.
Proof.
  induction entries as [|e' es IH] using rev_ind; [intros []|].
  intros Hi. apply in_app_or in Hi. destruct Hi as [Hi|[->|[]]].
  - destruct (IH Hi) as (ds & f & Hp & Hf & Hc). exists ds, f.
    pose proof (grows_build es e') as G. split; [assumption|].
    split; [now apply G|now apply (grows_chain (build es))].
  - rewrite build_snoc. destruct (path_last e) as (ds & f & Hp & Hs).
    exists ds, f. split; [assumption|]. rewrite Hp.
    destruct (walk_spec e ds f [] (build es) Hs (registered_build es) I)
      as (_ & _ & Hf & Hc).
    split; [exact Hf|]. intros p d q E. exact (Hc p d q E).
Qed.

(** [getFiles] keeps the files in the order of the flat listing: the
    files of an array are the files of the entries whose directory names
    lead to this array, one for each such entry, in the order of the
    listing. *)
Theorem files_in_listing_order entries at_ :
  filesOf (filesAt (build entries) at_)
  = map fileOf
        (List.filter (fun e => bool_decide (arrayOf (directoryOf e) = at_))
                     entries).
Proof.
  induction entries as [|e es IH] using rev_ind.
  - now destruct at_.
  - rewrite build_snoc, List.filter_app, map_app, <- IH.
    destruct (path_last e) as (ds & x & Hp & _).
    pose proof (filesOf_walk e ds x [] (build es) at_ I) as W.
    change (arrayOf []) with (@None string) in W.
    change (keyOf []) with "/" in W. change ([] ++ ds)%list with ds in W.
    rewrite Hp, W. f_equal. cbn [List.filter].
    assert (directoryOf e = ds) as Hd
      by (unfold directoryOf; now rewrite Hp, removelast_last).
    assert (fileOf e = FileItem x (hash e) (time e) (size e)) as Hf
      by (unfold fileOf, fileNameOf; now rewrite Hp, last_last).
    rewrite Hd. destruct (decide (at_ = arrayOf ds)) as [->|Hn].
    + rewrite bool_decide_eq_true_2 by reflexivity. simpl. now rewrite Hf.
    + rewrite bool_decide_eq_false_2; [reflexivity|congruence].
Qed.

(** The keys of [dirs] are not ambiguous: two entries of the listing
    are put into the same array only when the directory names of their
    paths are the same. *)
Theorem directories_do_not_collide e e' :
  arrayOf (directoryOf e) = arrayOf (directoryOf e') →
  directoryOf e = directoryOf e'.
Proof.
  destruct (path_last e) as (ds & x & Hp & Hs).
  destruct (path_last e') as (ds' & x' & Hp' & Hs').
  unfold directoryOf. rewrite Hp, Hp', !removelast_last.
  now apply arrayOf_inj.
Qed.

(** [getFiles] lists a directory once: in the tree and in every
    directory of it, no two elements are the same directory, however
    many entries of the listing are in it. *)
Theorem directory_is_listed_once entries at_ :
  List.NoDup (directoryKeys (filesAt (build entries) at_)).
Proof.
  revert at_.
  assert (linked (build entries)) as L; [|intros at_; apply L].
  induction entries as [|e es IH] using rev_ind.
  - intros [k|]; simpl; (split; [constructor|intros k' []]).
  - rewrite build_snoc. now apply linked_walk.
Qed.

Lemma tree_enter b k dir d : tree (enter b (Some k) dir d) = tree b.
Proof.
  unfold enter.
  now destruct (bool_decide (is_Some (dirs b !! (dir +:+ "/" +:+ d)))).
Qed.

Lemma tree_walk e path : ∀ b k dir,
  tree (walk b (Some k) dir path e) = tree b.
Proof.
  induction path as [|x r IH]; intros b k dir; [reflexivity|].
  destruct r as [|y r]; [reflexivity|].
  rewrite walk_cons by discriminate. now rewrite IH, tree_enter.
Qed.

(** Where [getFiles] lists a new directory of the root: an entry that is
    the first of its top-level directory puts this directory in front of
    the whole tree when the tree holds no file yet, and directly before
    the first file otherwise.  Top-level directories that are met before
    any top-level file are thus listed in the reverse of the order in
    which the listing names them. *)
Theorem new_directory_position es e d rest ds fs :
  pathOf e = d :: rest → rest ≠ [] →
  dirs (build es) !! ("/" +:+ "/" +:+ d) = None →
  tree (build es) = (ds ++ fs)%list →
  forallb (fun i => negb (isFile i)) ds = true →
  forallb isFile fs = true →
  tree (build (es ++ [e]))
  = match fs with
    | [] => DirectoryItem ("/" +:+ "/" +:+ d) :: ds
    | _ => (ds ++ DirectoryItem ("/" +:+ "/" +:+ d) :: fs)%list
    end.
Proof.
  intros Hp Hr Hn Ht Hd Hf.
  rewrite build_snoc, Hp, walk_cons, tree_walk by assumption.
  unfold enter. rewrite bool_decide_eq_false_2.
  - simpl. rewrite Ht. now apply addDirectory_files.
  - rewrite Hn. now intros [? ?].
Qed.

End FileTreeFacts.


(** ** The request handlers *)

Module HandlersFacts.
Import Handlers SharedCacheFacts.

Section Handling.
Context {FilesValue : Type}.
Context {engine : JsArray.SortEngine}.
Implicit Types (env : Env) (p : Params) (ctx : Ctx FilesValue).
Implicit Types (st : gmap string (SharedCache.Entry Metadata)).

Lemma fetchMetadata_gh env st now p :
  type p = "gh" →
  fetchMetadata env st now p
  = GitHub.fetchGitHubMetadata (rCompare env) st now (user p) (repo p)
                               (ghMaxAge (config env))
                               (paginate env (user p) (repo p)).
Proof. unfold fetchMetadata. now intros ->. Qed.

Lemma fetchMetadata_npm env st now p :
  type p = "npm" →
  fetchMetadata env st now p
  = Npm.fetchNpmMetadata (encodeURIComponent env) (got env) st now
                         (sourceUrl env) (name p) (npmMaxAge (config env)).
Proof. unfold fetchMetadata. now intros ->. Qed.

Lemma handleVersions_throws env st now p ctx e :
  SharedCache.result (fetchMetadata env st now p) = Throws e →
  (handleVersions env st now p ctx).1 = responseFromRemoteError env p e ctx.
Proof. unfold handleVersions, getMetadata. simpl. now intros ->. Qed.

Lemma handleVersions_lookup env st now p ctx :
  (handleVersions env st now p ctx).2 = fetchMetadata env st now p.
Proof. reflexivity. Qed.

(** The negative result that the cache hands out is answered with its
    status when that is 404, and with 502 otherwise. *)
Lemma remote_error_of_negative env p ctx sc :
  body (responseFromRemoteError env p (ThrownResponse sc) ctx)
  = Some (StatusBody (if bool_decide (sc = 404) then 404 else 502)
                     (remoteMessage p)).
Proof.
  unfold responseFromRemoteError. simpl.
  destruct (bool_decide_reflect (Some sc = Some 404)) as [[= ->]|Hn].
  - reflexivity.
  - destruct (bool_decide_reflect (sc = 404)) as [->|]; [now destruct Hn|].
    reflexivity.
Qed.

Lemma is404_status error :
  Npm.is404 error = true → responseStatusCode error = Some 404.
Proof.
  destruct error as [| |e| |]; try discriminate. simpl.
  destruct (response e) as [r|]; [|discriminate]. simpl.
  intros H. apply Z.eqb_eq in H. now rewrite H.
Qed.

(** [handleVersions] for a repository that GitHub does not know: the
    answer has the status 404, and until twice [maxAge] has passed every
    further request for the tags of this repository gets the same answer
    from the cache, whatever GitHub would say, without a request to
    GitHub. *)
Theorem repository_not_found_is_repeated env st now p ctx blocked resp :
  type p = "gh" →
  SharedCache.fresh st now ("gh/" +:+ user p +:+ "/" +:+ repo p) = None →
  paginate env (user p) (repo p)
  = Throws (mkOctokitError 404 blocked resp) →
  body (handleVersions env st now p ctx).1
  = Some (StatusBody 404 (remoteMessage p))
  ∧ ∀ env' now' ctx',
      now' < now + ghMaxAge (config env) * 2 →
      body (handleVersions
              env' (SharedCache.entries (handleVersions env st now p ctx).2)
              now' p ctx').1
      = Some (StatusBody 404 (remoteMessage p))
      ∧ SharedCache.invoked
          (handleVersions
             env' (SharedCache.entries (handleVersions env st now p ctx).2)
             now' p ctx').2
        = false
      ∧ SharedCache.sent
          (handleVersions
             env' (SharedCache.entries (handleVersions env st now p ctx).2)
             now' p ctx').2
        = [].
Proof.
  intros Ht Hf Hp.
  set (maxAge := ghMaxAge (config env)).
  set (run := GitHub.loader (rCompare env) (user p) (repo p) maxAge
                            (Throws (mkOctokitError 404 blocked resp))).
  assert (firstOverride (effects run) = Some (404, Some (maxAge * 2))) as Ho
    by reflexivity.
  destruct (get_after_override st now _ run maxAge 404 (Some (maxAge * 2))
                               Hf Ho) as (R & _ & _ & Again).
  rewrite handleVersions_lookup, (fetchMetadata_gh env st now p Ht).
  unfold GitHub.fetchGitHubMetadata. rewrite Hp. fold maxAge. fold run.
  split.
  - rewrite (handleVersions_throws
               env st now p ctx
               (ThrownOctokit (mkOctokitError 404 blocked (Some 404)))).
    + reflexivity.
    + rewrite (fetchMetadata_gh env st now p Ht).
      unfold GitHub.fetchGitHubMetadata. rewrite Hp. exact R.
  - intros env' now' ctx' Hlt.
    rewrite handleVersions_lookup, (fetchMetadata_gh env' _ now' p Ht).
    unfold GitHub.fetchGitHubMetadata.
    destruct (Again now'
                    (GitHub.loader (rCompare env') (user p) (repo p)
                                   (ghMaxAge (config env'))
                                   (paginate env' (user p) (repo p)))
                    (ghMaxAge (config env')) Hlt) as (I & S & R').
    split; [|split; assumption].
    rewrite (handleVersions_throws env' _ now' p ctx' (ThrownResponse 404)).
    + now rewrite remote_error_of_negative.
    + rewrite (fetchMetadata_gh env' _ now' p Ht). exact R'.
Qed.

(** [handleVersions] for a package that the registries do not know: the
    answer has the status 404, and until [maxAge] has passed every
    further request for this package gets the same answer from the
    cache, without a request to a registry. *)
Theorem package_not_found_is_repeated env st now p ctx error :
  type p = "npm" →
  SharedCache.fresh st now ("npm/" +:+ name p) = None →
  Npm.promise (got env)
              (Npm.encodeName (encodeURIComponent env) (name p))
              (sourceUrl env)
  = Throws error →
  Npm.is404 error = true →
  body (handleVersions env st now p ctx).1
  = Some (StatusBody 404 (remoteMessage p))
  ∧ ∀ env' now' ctx',
      now' < now + npmMaxAge (config env) →
      body (handleVersions
              env' (SharedCache.entries (handleVersions env st now p ctx).2)
              now' p ctx').1
      = Some (StatusBody 404 (remoteMessage p))
      ∧ SharedCache.invoked
          (handleVersions
             env' (SharedCache.entries (handleVersions env st now p ctx).2)
             now' p ctx').2
        = false
      ∧ SharedCache.sent
          (handleVersions
             env' (SharedCache.entries (handleVersions env st now p ctx).2)
             now' p ctx').2
        = [].
Proof.
  intros Ht Hf Hp H404.
  set (maxAge := npmMaxAge (config env)).
  set (run := Npm.loader (encodeURIComponent env) (got env) (name p)
                         (sourceUrl env)).
  assert (effects run = [CacheOverride 404 None]
          ∧ outcome run = Throws error) as [He Ho].
  { unfold run, Npm.loader. rewrite Hp, H404. now split. }
  assert (firstOverride (effects run) = Some (404, None)) as Hfirst
    by now rewrite He.
  destruct (get_after_override st now _ run maxAge 404 None Hf Hfirst)
    as (R & _ & _ & Again).
  rewrite Ho in R.
  rewrite handleVersions_lookup, (fetchMetadata_npm env st now p Ht).
  unfold Npm.fetchNpmMetadata. fold maxAge. fold run.
  split.
  - rewrite (handleVersions_throws env st now p ctx error).
    + unfold responseFromRemoteError. simpl.
      now rewrite (is404_status error H404).
    + rewrite (fetchMetadata_npm env st now p Ht). exact R.
  - intros env' now' ctx' Hlt.
    rewrite handleVersions_lookup, (fetchMetadata_npm env' _ now' p Ht).
    unfold Npm.fetchNpmMetadata.
    destruct (Again now'
                    (Npm.loader (encodeURIComponent env') (got env') (name p)
                                (sourceUrl env'))
                    (npmMaxAge (config env')) Hlt) as (I & S & R').
    split; [|split; assumption].
    rewrite (handleVersions_throws env' _ now' p ctx' (ThrownResponse 404)).
    + now rewrite remote_error_of_negative.
    + rewrite (fetchMetadata_npm env' _ now' p Ht). exact R'.
Qed.

(** [handleVersions] when GitHub refuses with the status 403 without
    blocking the repository, which is how the rate limit shows: the
    answer has the status 502, nothing is cached, and the next request
    asks GitHub again. *)
Theorem rate_limit_is_not_cached env st now p ctx resp :
  type p = "gh" →
  SharedCache.fresh st now ("gh/" +:+ user p +:+ "/" +:+ repo p) = None →
  paginate env (user p) (repo p)
  = Throws (mkOctokitError 403 false resp) →
  octokitCode env (mkOctokitError 403 false (Some 403))
  ≠ Some "ETIMEDOUT" →
  body (handleVersions env st now p ctx).1
  = Some (StatusBody 502 (remoteMessage p))
  ∧ SharedCache.entries (handleVersions env st now p ctx).2 = st
  ∧ ∀ env' now' ctx',
      now <= now' →
      SharedCache.invoked
        (handleVersions
           env' (SharedCache.entries (handleVersions env st now p ctx).2)
           now' p ctx').2
      = true
      ∧ SharedCache.sent
          (handleVersions
             env' (SharedCache.entries (handleVersions env st now p ctx).2)
             now' p ctx').2
        = [ListTags (user p) (repo p) 100].
Proof.
  intros Ht Hf Hp Hc.
  set (maxAge := ghMaxAge (config env)).
  set (run := GitHub.loader (rCompare env) (user p) (repo p) maxAge
                            (Throws (mkOctokitError 403 false resp))).
  destruct (get_after_failure
              st now ("gh/" +:+ user p +:+ "/" +:+ repo p) run maxAge
              (ThrownOctokit (mkOctokitError 403 false (Some 403)))
              Hf eq_refl eq_refl) as (R & E & Again).
  rewrite handleVersions_lookup, (fetchMetadata_gh env st now p Ht).
  unfold GitHub.fetchGitHubMetadata. rewrite Hp. fold maxAge. fold run.
  split; [|split; [exact E|]].
  - rewrite (handleVersions_throws
               env st now p ctx
               (ThrownOctokit (mkOctokitError 403 false (Some 403)))).
    + unfold responseFromRemoteError, timedOut. simpl.
      destruct (bool_decide_reflect
                  (octokitCode env (mkOctokitError 403 false (Some 403))
                   = Some "ETIMEDOUT")); [contradiction|reflexivity].
    + rewrite (fetchMetadata_gh env st now p Ht).
      unfold GitHub.fetchGitHubMetadata. rewrite Hp. exact R.
  - intros env' now' ctx' Hle.
    rewrite handleVersions_lookup, (fetchMetadata_gh env' _ now' p Ht).
    unfold GitHub.fetchGitHubMetadata.
    destruct (Again now'
                    (GitHub.loader (rCompare env') (user p) (repo p)
                                   (ghMaxAge (config env'))
                                   (paginate env' (user p) (repo p)))
                    (ghMaxAge (config env')) Hle) as (I & S).
    split; [exact I|]. rewrite S.
    unfold GitHub.loader.
    destruct (paginate env' (user p) (repo p)) as [data|error];
      [reflexivity|].
    now destruct (GitHub.onError (ghMaxAge (config env')) error).
Qed.

Lemma handleResolveVersion_throws env st now p ctx e :
  getResolvedVersion (SharedCache.result (fetchMetadata env st now p)) p
  = Throws e →
  (handleResolveVersion env st now p ctx).1
  = responseFromRemoteError env p e ctx.
Proof. unfold handleResolveVersion, getMetadata. simpl. now intros ->. Qed.

Lemma resolution_without_tags vs v :
  ¬ In v vs →
  PackageRequest.getResolvedVersion (mkMetadata TagsUndefined vs) v
  = Throws (TypeError "Cannot convert undefined or null to object").
Proof.
  intros Hn. apply LodashFacts.includes_false in Hn.
  unfold PackageRequest.getResolvedVersion.
  rewrite ResolveFacts.stableVersions_returns. simpl. now rewrite Hn.
Qed.

Lemma resolution_of_undefined_without_tags vs :
  PackageRequest.getResolvedVersionUndefined (mkMetadata TagsUndefined vs)
  = Throws (TypeError "Cannot convert undefined or null to object").
Proof.
  unfold PackageRequest.getResolvedVersionUndefined.
  now rewrite ResolveFacts.stableVersions_returns.
Qed.

(** [handleResolveVersion] for a version that is an entry of [versions]
    and that [is-semver-static] accepts: the answer is this version, and
    it may be kept for a day. *)
Theorem listed_static_version_is_kept_a_day env st now p ctx m v :
  SharedCache.result (fetchMetadata env st now p) = Returns m →
  version p = Some v →
  In v (versions m) →
  v ≠ "" →
  isSemverStatic env (version p) = true →
  (handleResolveVersion env st now p ctx).1
  = mkCtx (Some (VersionBody (JsString v))) (status ctx)
          (Some 86400) (Some (maxStaleStatic (config env)))
          (Some (maxStaleStatic (config env))).
Proof.
  intros Hm Hv Hin Hne Hs. unfold handleResolveVersion, getMetadata.
  simpl. rewrite Hm. simpl. rewrite Hs, Hv. rewrite (resolve_exact m v Hin).
  simpl.
  destruct (String.eqb_spec v ""); [contradiction|reflexivity].
Qed.

(** [handleResolveVersion] for a package whose registry document has no
    [dist-tags]: every version that is not literally a key of [versions],
    [latest] and the ranges included, is answered with the status 502,
    because the test for a tag throws. *)
Theorem missing_dist_tags_fail_resolution env st now p ctx response b keys :
  type p = "npm" →
  SharedCache.fresh st now ("npm/" +:+ name p) = None →
  Npm.promise (got env)
              (Npm.encodeName (encodeURIComponent env) (name p))
              (sourceUrl env)
  = Returns response →
  Npm.responseBody response = Some b →
  Npm.distTags b = None →
  Npm.versionKeys b = Some keys →
  (∀ v, version p = Some v → ¬ In v keys) →
  body (handleResolveVersion env st now p ctx).1
  = Some (StatusBody 502 (remoteMessage p)).
Proof.
  intros Ht Hf Hp Hb Hd Hk Hn.
  assert (SharedCache.result (fetchMetadata env st now p)
          = match JsArray.sort Semver.rcompare keys with
            | Returns sorted => Returns (mkMetadata TagsUndefined sorted)
            | Throws e => Throws e
            end) as R.
  { rewrite (fetchMetadata_npm env st now p Ht).
    unfold Npm.fetchNpmMetadata, SharedCache.get. rewrite Hf.
    unfold Npm.loader. rewrite Hp, Hb, Hk. unfold Npm.tagsOf. rewrite Hd.
    reflexivity. }
  destruct (JsArray.sort Semver.rcompare keys) as [sorted|e] eqn:Es.
  - rewrite (handleResolveVersion_throws
               env st now p ctx
               (TypeError "Cannot convert undefined or null to object"));
      [reflexivity|].
    rewrite R. simpl. destruct (version p) as [v|] eqn:Ev.
    + apply resolution_without_tags.
      intros Hin. apply (Hn v eq_refl).
      apply (Permutation_in _ (Permutation_sym
                                 (JsArray.sort_returns _ _ _ _ Es))).
      exact Hin.
    + apply resolution_of_undefined_without_tags.
  - destruct (SemverFacts.sort_rcompare_throws keys e Es) as (k & _ & Ek).
    destruct (SemverFacts.newSemVer_TypeError k e Ek) as [message ->].
    rewrite (handleResolveVersion_throws
               env st now p ctx (TypeError message));
      [reflexivity|].
    now rewrite R.
Qed.

(** [handleVersionFiles] for a version that must be validated (the type
    is not [gh], or the version is no commit hash) and that is not an
    entry of [versions]: the answer is the 404 message, whatever a
    listing of the files would be, and no lifetime is set. *)
Theorem unlisted_version_has_no_files env st now p files ctx m :
  type p ≠ "gh" ∨ isSha1 env (version p) = false →
  SharedCache.result (fetchMetadata env st now p) = Returns m →
  (∀ v, version p = Some v → ¬ In v (versions m)) →
  (handleVersionFiles env st now p files ctx).1
  = Returns (setBody (StatusBody 404 (unlistedMessage p)) ctx).
Proof.
  intros Hv Hm Hn.
  assert (listed p (versions m) = false) as Hl.
  { unfold listed. destruct (version p) as [v|]; [|reflexivity].
    apply LodashFacts.includes_false. now apply Hn. }
  unfold handleVersionFiles, getMetadata.
  assert (negb (String.eqb (type p) "gh") || negb (isSha1 env (version p))
          = true) as ->.
  { destruct Hv as [Hv|Hv].
    - destruct (String.eqb_spec (type p) "gh"); [contradiction|reflexivity].
    - rewrite Hv. apply orb_true_r. }
  simpl. now rewrite Hm, Hl.
Qed.

(** [handleVersions] when the request to the registries ends with a
    [TimeoutError]: the answer has the status 504, and nothing is cached. *)
Theorem registry_timeout_is_504 env st now p ctx e :
  type p = "npm" →
  SharedCache.fresh st now ("npm/" +:+ name p) = None →
  Npm.promise (got env)
              (Npm.encodeName (encodeURIComponent env) (name p))
              (sourceUrl env)
  = Throws (ThrownGot e) →
  errorClass e = TimeoutError →
  response e = None →
  body (handleVersions env st now p ctx).1
  = Some (StatusBody 504 (remoteMessage p))
  ∧ SharedCache.entries (handleVersions env st now p ctx).2 = st.
Proof.
  intros Ht Hf Hp Hc Hr.
  rewrite handleVersions_lookup.
  assert (fetchMetadata env st now p
          = SharedCache.mkGetResult
              st (Throws (ThrownGot e))
              (map (fun s => Npm.requestOf
                               (Npm.urlOf
                                  (Npm.encodeName (encodeURIComponent env)
                                                  (name p)) s))
                   (Npm.urlsOf (sourceUrl env)))
              true) as E.
  { rewrite (fetchMetadata_npm env st now p Ht).
    unfold Npm.fetchNpmMetadata, SharedCache.get. rewrite Hf.
    unfold Npm.loader. rewrite Hp. simpl. now rewrite Hr. }
  split; [|now rewrite E].
  rewrite (handleVersions_throws env st now p ctx (ThrownGot e))
    by now rewrite E.
  unfold responseFromRemoteError. simpl. now rewrite Hr, Hc.
Qed.

(** [handleVersions] for a package type other than [npm] and [gh]: the
    error of [fetchMetadata] is a rejection, which is answered with the
    status 502; nothing is requested or cached. *)
Theorem unknown_type_is_502 env st now p ctx :
  type p ≠ "npm" → type p ≠ "gh" →
  body (handleVersions env st now p ctx).1
  = Some (StatusBody 502 (remoteMessage p))
  ∧ SharedCache.entries (handleVersions env st now p ctx).2 = st
  ∧ SharedCache.sent (handleVersions env st now p ctx).2 = [].
Proof.
  intros H1 H2. unfold handleVersions, getMetadata, fetchMetadata.
  destruct (String.eqb_spec (type p) "npm"); [contradiction|].
  destruct (String.eqb_spec (type p) "gh"); [contradiction|].
  now repeat split.
Qed.

(** The listing of the files is refused with an HTTP status other than
    403: [fetchFiles] sends one request and rejects, nothing is cached,
    and when [getFiles] rejects with this error, as it does when the
    database holds no listing, [handleVersionFiles] answers with the
    status of the refusal (502 when that is 0) and the body of the
    response as the message. *)
Theorem refused_listing_is_answered_with_its_status
        (cdn : string → nat → Completion GotError (list (string * string)))
        (encode : string → string)
        (listings : gmap string (SharedCache.Entry Files.FetchResult))
        now cdnUrl type name version defaultMaxAge env ctx sc message :
  SharedCache.fresh listings now
                    (Files.filesUrl encode cdnUrl type name version) = None →
  cdn (Files.filesUrl encode cdnUrl type name version) 1%nat
  = Throws (mkGotError HTTPError (Some (mkGotResponse sc message))) →
  sc ≠ 403 →
  SharedCache.sent (Files.fetchFiles cdn encode listings now cdnUrl type name
                                     version defaultMaxAge)
  = [GotRequest (Files.filesUrl encode cdnUrl type name version) true 30000]
  ∧ SharedCache.entries (Files.fetchFiles cdn encode listings now cdnUrl type
                                          name version defaultMaxAge)
    = listings
  ∧ ∃ e, SharedCache.result (Files.fetchFiles cdn encode listings now cdnUrl
                                              type name version defaultMaxAge)
         = Throws e
         ∧ listFiles env (Throws e) ctx
           = Returns (setBody (StatusBody (if sc =? 0 then 502 else sc)
                                          message) ctx).
Proof.
  intros Hf Hg Hsc. unfold Files.fetchFiles, SharedCache.get. rewrite Hf.
  unfold Files.loader. cbn [Files.promiseRetry]. rewrite Hg.
  unfold Files.attempt. cbn [errorClass response statusCode].
  destruct (Z.eqb_spec sc 403) as [|_]; [contradiction|].
  cbn. repeat split. eexists. split; reflexivity.
Qed.

(** The listing of the files cannot be parsed three times in a row:
    [fetchFiles] rejects after the third request, nothing is cached, and
    when [getFiles] rejects with this error [handleVersionFiles] throws
    it again instead of answering. *)
Theorem unparsable_listing_is_thrown
        (cdn : string → nat → Completion GotError (list (string * string)))
        (encode : string → string)
        (listings : gmap string (SharedCache.Entry Files.FetchResult))
        now cdnUrl type name version defaultMaxAge env ctx :
  SharedCache.fresh listings now
                    (Files.filesUrl encode cdnUrl type name version) = None →
  (∀ n, (1 ≤ n ≤ 3)%nat →
        ∃ e, cdn (Files.filesUrl encode cdnUrl type name version) n = Throws e
             ∧ errorClass e = ParseError) →
  length (SharedCache.sent (Files.fetchFiles cdn encode listings now cdnUrl
                                             type name version defaultMaxAge))
  = 3%nat
  ∧ SharedCache.entries (Files.fetchFiles cdn encode listings now cdnUrl type
                                          name version defaultMaxAge)
    = listings
  ∧ ∃ e, SharedCache.result (Files.fetchFiles cdn encode listings now cdnUrl
                                              type name version defaultMaxAge)
         = Throws e
         ∧ listFiles env (Throws e) ctx = Throws e.
Proof.
  intros Hf Hg. unfold Files.fetchFiles, SharedCache.get. rewrite Hf.
  destruct (Hg 1%nat ltac:(lia)) as (e1 & G1 & C1).
  destruct (Hg 2%nat ltac:(lia)) as (e2 & G2 & C2).
  destruct (Hg 3%nat ltac:(lia)) as (e3 & G3 & C3).
  unfold Files.loader. cbn [Files.promiseRetry]. rewrite G1, G2, G3.
  unfold Files.attempt. rewrite C1, C2, C3. cbn.
  repeat split. eexists. split; [reflexivity|]. cbn. now rewrite C3.
Qed.

End Handling.

End HandlersFacts.

(** ** Registry documents with keys that are no versions *)

Section RegistryKeys.
Import Npm SharedCache Semver.

Variable encodeURIComponent : string → string.
Variable got : string → Settled Response.
Context {engine : JsArray.SortEngine}.

(** [fetchNpmMetadata] on a registry answer with two or more keys in
    [versions], one of which is not a version: the sort throws what the
    constructor of [SemVer] throws on such a key (which of them, when
    there are several, is up to the engine), the promise is rejected
    with it, and nothing is cached, so that every request for the
    package asks the registries again. *)
Theorem invalid_version_key_fails_the_package
        (st : gmap string (Entry Metadata)) now cfg name maxAge
        response b keys :
  fresh st now ("npm/" +:+ name) = None →
  promise got (encodeName encodeURIComponent name) cfg = Returns response →
  responseBody response = Some b →
  versionKeys b = Some keys →
  (2 ≤ length keys)%nat →
  ¬ Forall isVersion keys →
  ∃ k e, In k keys ∧ ¬ isVersion k ∧ newSemVer k = Throws e
         ∧ result (fetchNpmMetadata encodeURIComponent got st now cfg name
                                    maxAge)
           = Throws e
         ∧ entries (fetchNpmMetadata encodeURIComponent got st now cfg name
                                     maxAge)
           = st.
Proof.
  intros Hf Hp Hb Hk Hl Hn.
  destruct (SemverFacts.sort_invalid_key keys Hl Hn)
    as (k & e & Hin & He & E).
  exists k, e. split; [exact Hin|].
  split; [now apply SemverFacts.newSemVer_throws with e|].
  split; [exact He|].
  unfold fetchNpmMetadata, get. rewrite Hf.
  unfold loader. rewrite Hp, Hb, Hk, E. now split.
Qed.

(** [fetchNpmMetadata] on a registry answer with a single key in
    [versions]: the key is never compared, so that the document lists
    it whether it is a version or not. *)
Theorem single_version_key_is_not_checked
        (st : gmap string (Entry Metadata)) now cfg name maxAge
        response b key :
  fresh st now ("npm/" +:+ name) = None →
  promise got (encodeName encodeURIComponent name) cfg = Returns response →
  responseBody response = Some b →
  versionKeys b = Some [key] →
  result (fetchNpmMetadata encodeURIComponent got st now cfg name maxAge)
  = Returns (mkMetadata (tagsOf b) [key]).
Proof.
  intros Hf Hp Hb Hk. unfold fetchNpmMetadata, get. rewrite Hf.
  unfold loader. rewrite Hp, Hb, Hk.
  now rewrite (JsArray.sort_short _ rcompare [key]) by (simpl; lia).
Qed.

End RegistryKeys.

(** ** Resolving a resolved version *)

Section ResolvedAgain.
Import Semver PackageRequest ResolveFacts.
Context {engine : JsArray.SortEngine}.

(** [getResolvedVersion] on its own result: when the requested version
    is no own property of [tags] and the resolution gives a version,
    this version is an entry of [versions], and resolving it gives it
    again. *)
Theorem resolved_version_resolves_to_itself metadata version w :
  hasOwnProperty (tags metadata) version = Returns false →
  getResolvedVersion metadata version = Returns (JsString w) →
  In w (versions metadata)
  ∧ getResolvedVersion metadata w = Returns (JsString w).
Proof.
  intros Ho Hr.
  assert (In w (versions metadata)) as Hin.
  { destruct (in_dec string_dec version (versions metadata)) as [Hv|Hv].
    - rewrite (resolve_exact metadata version Hv) in Hr. now injection Hr as <-.
    - destruct (string_dec version "") as [E1|E1];
        [|destruct (string_dec version "latest") as [E2|E2]].
      + rewrite (resolve_latest metadata version Hv Ho (or_introl E1)) in Hr.
        destruct (firstOrNull_candidates metadata)
          as [(v & E & [[Hin _] _])|[E _]]; rewrite E in Hr;
          [now injection Hr as <-|discriminate Hr].
      + rewrite (resolve_latest metadata version Hv Ho (or_intror E2)) in Hr.
        destruct (firstOrNull_candidates metadata)
          as [(v & E & [[Hin _] _])|[E _]]; rewrite E in Hr;
          [now injection Hr as <-|discriminate Hr].
      + rewrite (resolve_range metadata version Hv Ho E1 E2) in Hr.
        destruct (maxSatisfying_candidates metadata version)
          as [(v & E & [(Hin & _) _])|[E _]]; rewrite E in Hr;
          [now injection Hr as <-|discriminate Hr]. }
  split; [exact Hin|now apply resolve_exact].
Qed.

End ResolvedAgain.

(** ** Instances *)

Section Instances.
Import Handlers.

(** An entry in a directory: the file is in the array of [lib], which is
    an element of the tree. *)
Lemma entry_is_in_tree_witness :
  ∃ ds f,
    FileTree.pathOf (FileTree.mkFileEntry "/lib/a.js" "h1" "t1" 10)
    = (ds ++ [f])%list
    ∧ In (FileTree.FileItem f "h1" "t1" 10)
         (FileTree.filesAt (FileTree.build exampleEntries)
                           (FileTree.arrayOf ds))
    ∧ FileTree.chain (FileTree.build exampleEntries) ds.
Proof.
  apply (FileTreeFacts.entry_is_in_tree
           exampleEntries (FileTree.mkFileEntry "/lib/a.js" "h1" "t1" 10)).
  simpl. auto.
Defined.

(** Two entries of the same directory. *)
Lemma directories_do_not_collide_witness :
  FileTree.directoryOf (FileTree.mkFileEntry "/lib/a.js" "h1" "t1" 10)
  = FileTree.directoryOf (FileTree.mkFileEntry "/lib/b.js" "h3" "t3" 30).
Proof.
  apply FileTreeFacts.directories_do_not_collide. reflexivity.
Defined.

(** A second top-level directory, met before any top-level file, is
    listed first. *)
Lemma new_directory_position_witness :
  FileTree.tree
    (FileTree.build
       ([FileTree.mkFileEntry "/lib/a.js" "h1" "t1" 10]
          ++ [FileTree.mkFileEntry "/src/b.js" "h2" "t2" 20]))
  = [FileTree.DirectoryItem ("/" +:+ "/" +:+ "src");
     FileTree.DirectoryItem "//lib"].
Proof.
  apply (FileTreeFacts.new_directory_position
           [FileTree.mkFileEntry "/lib/a.js" "h1" "t1" 10]
           (FileTree.mkFileEntry "/src/b.js" "h2" "t2" 20)
           "src" ["b.js"] [FileTree.DirectoryItem "//lib"] []).
  - reflexivity.
  - discriminate.
  - vm_compute. reflexivity.
  - vm_compute. reflexivity.
  - reflexivity.
  - reflexivity.
Defined.

(** A repository that GitHub does not know. *)
Lemma repository_not_found_is_repeated_witness :
  body (handleVersions (exampleEnv Npm.exampleGot exampleUnknown) ∅ 0
                       exampleRepository exampleCtx).1
  = Some (StatusBody 404 "Couldn't fetch versions for jquery/jquery.").
Proof.
  refine (proj1 (HandlersFacts.repository_not_found_is_repeated
                  (exampleEnv Npm.exampleGot exampleUnknown) ∅ 0
                  exampleRepository exampleCtx false None _ _ _));
    vm_compute; reflexivity.
Defined.

(** A package that no registry knows: the second registry is the first
    to answer. *)
Lemma package_not_found_is_repeated_witness :
  body (handleVersions (exampleEnv Npm.exampleGot exampleUnknown) ∅ 0
                       (examplePackage None) exampleCtx).1
  = Some (StatusBody 404 "Couldn't fetch versions for left-pad.").
Proof.
  refine (proj1 (HandlersFacts.package_not_found_is_repeated
                  (exampleEnv Npm.exampleGot exampleUnknown) ∅ 0
                  (examplePackage None) exampleCtx
                  (ThrownGot (mkGotError
                                HTTPError
                                (Some (mkGotResponse 404 "Not found"))))
                  _ _ _ _));
    vm_compute; reflexivity.
Defined.

(** The rate limit of GitHub. *)
Lemma rate_limit_is_not_cached_witness :
  body (handleVersions (exampleEnv Npm.exampleGot exampleLimited) ∅ 0
                       exampleRepository exampleCtx).1
  = Some (StatusBody 502 "Couldn't fetch versions for jquery/jquery.").
Proof.
  refine (proj1 (HandlersFacts.rate_limit_is_not_cached
                  (exampleEnv Npm.exampleGot exampleLimited) ∅ 0
                  exampleRepository exampleCtx None _ _ _ _));
    try (vm_compute; reflexivity).
  discriminate.
Defined.

(** A listed version of a package. *)
Lemma listed_static_version_is_kept_a_day_witness :
  (handleResolveVersion (exampleEnv Npm.exampleSuccess exampleUnknown) ∅ 0
                        (examplePackage (Some "1.3.0")) exampleCtx).1
  = mkCtx (Some (VersionBody (JsString "1.3.0"))) None (Some 86400)
          (Some 31536000) (Some 31536000).
Proof.
  apply (HandlersFacts.listed_static_version_is_kept_a_day
           (exampleEnv Npm.exampleSuccess exampleUnknown) ∅ 0
           (examplePackage (Some "1.3.0")) exampleCtx
           (mkMetadata (TagsObject {[ "latest" := "1.3.0" ]})
                       ["1.3.0"; "1.3.0-rc.1"; "1.0.0"])
           "1.3.0").
  - vm_compute. reflexivity.
  - reflexivity.
  - simpl. auto.
  - discriminate.
  - vm_compute. reflexivity.
Defined.

(** The newest version of a package whose document has no [dist-tags]. *)
Lemma missing_dist_tags_fail_resolution_witness :
  body (handleResolveVersion (exampleEnv exampleUntagged exampleUnknown) ∅ 0
                             (examplePackage (Some "latest")) exampleCtx).1
  = Some (StatusBody 502 "Couldn't find left-pad@latest.").
Proof.
  apply (HandlersFacts.missing_dist_tags_fail_resolution
           (exampleEnv exampleUntagged exampleUnknown) ∅ 0
           (examplePackage (Some "latest")) exampleCtx
           (Npm.mkResponse (Some (Npm.mkRegistryBody None (Some ["1.0.0"]))))
           (Npm.mkRegistryBody None (Some ["1.0.0"])) ["1.0.0"]);
    try (vm_compute; reflexivity).
  intros v [= <-]. simpl. intros [H|[]]. discriminate H.
Defined.

(** The files of a tag instead of a version. *)
Lemma unlisted_version_has_no_files_witness :
  (handleVersionFiles (exampleEnv Npm.exampleSuccess exampleUnknown) ∅ 0
                      (examplePackage (Some "latest"))
                      (Returns (FileTree.Unchanged
                                  (FileTree.mkListing None None)))
                      exampleCtx).1
  = Returns (setBody
               (StatusBody 404 (unlistedMessage (examplePackage (Some "latest"))))
               exampleCtx).
Proof.
  apply (HandlersFacts.unlisted_version_has_no_files
           (exampleEnv Npm.exampleSuccess exampleUnknown) ∅ 0
           (examplePackage (Some "latest"))
           (Returns (FileTree.Unchanged (FileTree.mkListing None None)))
           exampleCtx
           (mkMetadata (TagsObject {[ "latest" := "1.3.0" ]})
                       ["1.3.0"; "1.3.0-rc.1"; "1.0.0"])).
  - left. discriminate.
  - vm_compute. reflexivity.
  - intros v [= <-]. simpl. intros [H|[H|[H|[]]]]; discriminate H.
Defined.

(** Registries that do not answer in time. *)
Lemma registry_timeout_is_504_witness :
  body (handleVersions (exampleEnv exampleSlow exampleUnknown) ∅ 0
                       (examplePackage None) exampleCtx).1
  = Some (StatusBody 504 "Couldn't fetch versions for left-pad.").
Proof.
  refine (proj1 (HandlersFacts.registry_timeout_is_504
                  (exampleEnv exampleSlow exampleUnknown) ∅ 0
                  (examplePackage None) exampleCtx
                  (mkGotError TimeoutError None) _ _ _ _ _));
    vm_compute; reflexivity.
Defined.

(** A package type that does not exist. *)
Lemma unknown_type_is_502_witness :
  body (handleVersions (exampleEnv Npm.exampleGot exampleUnknown) ∅ 0
                       (mkParams "wp" "akismet" "" "" None) exampleCtx).1
  = Some (StatusBody 502 "Couldn't fetch versions for akismet.").
Proof.
  refine (proj1 (HandlersFacts.unknown_type_is_502
                  (exampleEnv Npm.exampleGot exampleUnknown) ∅ 0
                  (mkParams "wp" "akismet" "" "" None) exampleCtx
                  ltac:(discriminate) ltac:(discriminate))).
Defined.

(** A listing that does not exist. *)
Lemma refused_listing_is_answered_with_its_status_witness :
  SharedCache.sent (Files.fetchFiles Files.exampleNotFound (fun s => s) ∅ 0
                                     "https://cdn.jsdelivr.net" "npm"
                                     "left-pad" "1.3.0" 300)
  = [GotRequest
       (Files.filesUrl (fun s => s) "https://cdn.jsdelivr.net" "npm"
                       "left-pad" "1.3.0")
       true 30000].
Proof.
  refine (proj1 (HandlersFacts.refused_listing_is_answered_with_its_status
                  Files.exampleNotFound (fun s => s) ∅ 0
                  "https://cdn.jsdelivr.net" "npm" "left-pad" "1.3.0" 300
                  (exampleEnv Npm.exampleGot exampleUnknown) exampleCtx
                  404 "Not found" _ _ _));
    try (vm_compute; reflexivity).
  discriminate.
Defined.

(** A listing that cannot be parsed. *)
Lemma unparsable_listing_is_thrown_witness :
  length (SharedCache.sent
            (Files.fetchFiles exampleUnparsable (fun s => s) ∅ 0
                              "https://cdn.jsdelivr.net" "npm" "left-pad"
                              "1.3.0" 300))
  = 3%nat.
Proof.
  refine (proj1 (HandlersFacts.unparsable_listing_is_thrown
                  exampleUnparsable (fun s => s) ∅ 0
                  "https://cdn.jsdelivr.net" "npm" "left-pad" "1.3.0" 300
                  (exampleEnv Npm.exampleGot exampleUnknown) exampleCtx
                  _ _)).
  - vm_compute. reflexivity.
  - intros n _. exists (mkGotError ParseError None). now split.
Defined.

(** A document with a key whose first number is above
    [MAX_SAFE_INTEGER]: the text has the form of a version, and the
    constructor throws the error for the number. *)
Lemma invalid_version_key_fails_the_package_witness :
  SharedCache.result
    (Npm.fetchNpmMetadata (fun s => s) exampleOverflow ∅ 0
                          Npm.exampleConfig "left-pad" 300)
  = Throws (TypeError "Invalid major version")
  ∧ SharedCache.entries
      (Npm.fetchNpmMetadata (fun s => s) exampleOverflow ∅ 0
                            Npm.exampleConfig "left-pad" 300)
    = ∅.
Proof.
  destruct (invalid_version_key_fails_the_package
              (fun s => s) exampleOverflow ∅ 0 Npm.exampleConfig "left-pad"
              300
              (Npm.mkResponse
                 (Some (Npm.mkRegistryBody
                          None (Some ["1.0.0"; "9007199254740992.0.0"]))))
              (Npm.mkRegistryBody
                 None (Some ["1.0.0"; "9007199254740992.0.0"]))
              ["1.0.0"; "9007199254740992.0.0"])
    as (k & e & Hin & _ & He & Hr & Hs).
  - vm_compute. reflexivity.
  - vm_compute. reflexivity.
  - reflexivity.
  - reflexivity.
  - simpl. lia.
  - intros H. inversion_clear H as [|? ? _ H'].
    inversion_clear H' as [|? ? H _].
    destruct H as [sv H]. vm_compute in H. discriminate H.
  - split; [|exact Hs]. rewrite Hr.
    destruct Hin as [<-|[<-|[]]]; vm_compute in He.
    + discriminate He.
    + now injection He as <-.
Defined.

(** A document with a single key, which is no version. *)
Lemma single_version_key_is_not_checked_witness :
  SharedCache.result
    (Npm.fetchNpmMetadata (fun s => s) exampleSingle ∅ 0 Npm.exampleConfig
                          "left-pad" 300)
  = Returns (mkMetadata TagsUndefined ["next"]).
Proof.
  apply (single_version_key_is_not_checked
           (fun s => s) exampleSingle ∅ 0 Npm.exampleConfig "left-pad" 300
           (Npm.mkResponse (Some (Npm.mkRegistryBody None (Some ["next"]))))
           (Npm.mkRegistryBody None (Some ["next"])) "next");
    vm_compute; reflexivity.
Defined.

(** The version that a range resolves to. *)
Lemma resolved_version_resolves_to_itself_witness :
  In "1.9.9" (versions PackageRequest.exampleDocument)
  ∧ PackageRequest.getResolvedVersion PackageRequest.exampleDocument "1.9.9"
    = Returns (JsString "1.9.9").
Proof.
  apply (resolved_version_resolves_to_itself
           PackageRequest.exampleDocument "^1.0.0" "1.9.9").
  - vm_compute. reflexivity.
  - vm_compute. reflexivity.
Defined.

End Instances.
